(** * anon-chat: the relay, its rate limiter, message store and validator

    A shallow embedding of the JavaScript sources
    - [backend/lib/rateLimit.js]   (class [RateLimit]),
    - [backend/lib/redis.js]       (class [RedisManager]),
    - the server-side helper class [ServerEncryption] (sanitizer, validator),
    - the WebSocket relay [ChatServer],
    followed by the properties of the specification, stated over it.

    Conventions.  A JavaScript string is a list of UTF-16 code units
    ([list N]); [Date.now()] and the other readings of the clock are
    integer milliseconds ([Z]) handed to each operation by its caller;
    [Math.random], [uuidv4] and the faults of the external Redis server are
    inputs of the operations as well.  A [Map] whose iteration order is
    observable is an association list, the rate limiter's [Map] (only
    looked up by key) is a [gmap].  Numbers are integers of [Z]; the
    source computes in doubles, which are exact on the integers up to
    2^53 in absolute value.  A [Date] is its time value, and [None] the
    Invalid Date that [new Date] gives beyond 8.64e15 ms either side of
    the epoch.

    Each handler of the relay is run to its end before the next event is
    taken, and [ws.send] returns normally: the sockets of the server are
    never in the state CONNECTING, the only one in which [send] throws, and
    a failure of the transport is reported afterwards, by its ['error']
    and ['close'] events. *)

From Stdlib Require Import ZArith NArith Lia Ascii String.
From stdpp Require Import gmap strings list pretty.

Local Open Scope Z_scope.

(* ===================================================================== *)
(** ** Control flow: results that may be exceptions *)
(* ===================================================================== *)

(** [Ok a]: the call returned [a]; [Throw e]: it threw (or its promise was
    rejected with) [e]. *)
Inductive Result (E A : Type) : Type :=
| Ok (a : A)
| Throw (e : E).
Arguments Ok {E A} a.
Arguments Throw {E A} e.

(** Code that reads and writes a world [W] and may throw: every [await]ed
    call and every method below is a function of this type.  The world
    after a [Throw] is the one reached when the exception was raised. *)
Definition M (W E A : Type) : Type := W -> Result E A * W.

Definition ret {W E A} (a : A) : M W E A := fun w => (Ok a, w).

Definition throw {W E A} (e : E) : M W E A := fun w => (Throw e, w).

Definition bind {W E A B} (c : M W E A) (k : A -> M W E B) : M W E B :=
  fun w =>
    match c w with
    | (Ok a, w') => k a w'
    | (Throw e, w') => (Throw e, w')
    end.

(** [try { c } catch (error) { h error }] *)
Definition try_catch {W E A} (c : M W E A) (h : E -> M W E A) : M W E A :=
  fun w =>
    match c w with
    | (Ok a, w') => (Ok a, w')
    | (Throw e, w') => h e w'
    end.

Definition get {W E} : M W E W := fun w => (Ok w, w).

Definition modify {W E} (f : W -> W) : M W E unit := fun w => (Ok tt, f w).

Declare Scope js_scope.
Delimit Scope js_scope with js.
Notation "x <~ c1 ;; c2" := (bind c1 (fun x => c2))
  (at level 100, c1 at next level, right associativity) : js_scope.
Notation "c1 ;;; c2" := (bind c1 (fun _ => c2))
  (at level 100, right associativity) : js_scope.

(* ===================================================================== *)
(** ** backend/lib/rateLimit.js *)
(* ===================================================================== *)

Module RateLimit.

(** The object returned by the limiter.  [resetTime] is a [Date]; [None]
    is the invalid date: [new Date(NaN)], which [validRequests[0] +
    windowMs] produces when [validRequests] is empty, or the date of a
    sum beyond the range of [Date]. *)
Record LimitResult : Type := mkLimitResult {
  allowed : bool;
  remaining : Z;
  resetTime : option Z;
  totalHits : Z
}.

(** [this.inMemoryStore]: identifier -> timestamps of the admitted calls,
    oldest first. *)
Abbreviation MemoryStore := (gmap string (list Z)).

(** The largest time value of a [Date], and [new Date(t)] for an integer
    [t]: beyond that value on either side the date is invalid. *)
Definition maxDate : Z := 8640000000000000.

Definition new_Date (t : Z) : option Z :=
  if Z.abs t <=? maxDate then Some t else None.

(** [checkMemoryLimit(identifier, maxRequests, windowMs)], [now] being the
    value of [Date.now()] read on entry.  The array pushed to is the one
    already stored under [identifier], and it is stored again. *)
Definition checkMemoryLimit (now : Z) (identifier : string)
    (maxRequests windowMs : Z) (inMemoryStore : MemoryStore)
  : LimitResult * MemoryStore :=
  let windowStart := now - windowMs in
  let store1 :=
    match inMemoryStore !! identifier with
    | Some _ => inMemoryStore
    | None => <[identifier := []]> inMemoryStore
    end in
  let requests := default [] (store1 !! identifier) in
  let validRequests := filter (λ timestamp, windowStart < timestamp) requests in
  let store2 := <[identifier := validRequests]> store1 in
  if bool_decide (maxRequests <= Z.of_nat (length validRequests)) then
    ({| allowed := false;
        remaining := 0;
        resetTime := match head validRequests with
                     | Some t => new_Date (t + windowMs)
                     | None => None
                     end;
        totalHits := Z.of_nat (length validRequests) |},
     store2)
  else
    let validRequests' := validRequests ++ [now] in
    ({| allowed := true;
        remaining := maxRequests - Z.of_nat (length validRequests');
        resetTime := new_Date (now + windowMs);
        totalHits := Z.of_nat (length validRequests') |},
     <[identifier := validRequests']> store2).

(** The callback of [startCleanupTimer], run at time [now]: every record
    keeps its timestamps of the last five minutes and is deleted when none
    is left. *)
Definition cleanup (now : Z) (inMemoryStore : MemoryStore) : MemoryStore :=
  let fiveMinutesAgo := now - 5 * 60 * 1000 in
  omap (λ requests,
          let validRequests := filter (λ timestamp, fiveMinutesAgo < timestamp) requests in
          match validRequests with
          | [] => None
          | _ => Some validRequests
          end) inMemoryStore.

(** A sequence of calls of [checkMemoryLimit] for one identifier and one
    policy, the [k]-th made at the [k]-th time of [times]. *)
Fixpoint checks (identifier : string) (maxRequests windowMs : Z)
    (times : list Z) (store : MemoryStore) : list LimitResult * MemoryStore :=
  match times with
  | [] => ([], store)
  | now :: times' =>
      let '(r, store') := checkMemoryLimit now identifier maxRequests windowMs store in
      let '(rs, store'') := checks identifier maxRequests windowMs times' store' in
      (r :: rs, store'')
  end.

(** Calls made within one window: every call comes less than [w] after
    each of the calls before it. *)
Fixpoint within_window (w : Z) (times : list Z) : bool :=
  match times with
  | [] => true
  | t :: later => forallb (fun t' => t' - t <? w) later && within_window w later
  end.

(** The times of 21 calls, one second apart. *)
Definition times21 : list Z := (fun k => 1000 * Z.of_nat k) <$> seq 0 21.

(** What happens to the in-process store over the life of the limiter: a
    check (for whatever identifier and policy) or a run of the cleanup
    timer, each at the time it comes with. *)
Inductive Op : Type :=
| Check (identifier : string) (maxRequests windowMs : Z)
| Cleanup.

Definition apply (store : MemoryStore) (o : Z * Op) : MemoryStore :=
  match o with
  | (now, Check identifier maxRequests windowMs) =>
      snd (checkMemoryLimit now identifier maxRequests windowMs store)
  | (now, Cleanup) => cleanup now store
  end.

Definition replay (ops : list (Z * Op)) (store : MemoryStore) : MemoryStore :=
  foldl apply store ops.

(** The checks of [identifier] all use the policy [m], [w]. *)
Definition same_policy (identifier : string) (m w : Z) (o : Z * Op) : bool :=
  match snd o with
  | Check identifier' m' w' =>
      implb (bool_decide (identifier' = identifier)) ((m' =? m) && (w' =? w))
  | Cleanup => true
  end.

(** A clock that does not go back. *)
Fixpoint nondecreasing (times : list Z) : bool :=
  match times with
  | [] => true
  | t :: later => forallb (fun t' => t <=? t') later && nondecreasing later
  end.

(** The record of [identifier] holds at most [m] timestamps, none later
    than [bound]. *)
Definition record_ok (identifier : string) (m : Z) (bound : Z) (store : MemoryStore)
  : Prop :=
  let l := default [] (store !! identifier) in
  Z.of_nat (length l) <= m ∧ ∀ t, t ∈ l → t <= bound.

(** The decisions of the checks of [identifier] along a history, in
    order, and the times of these checks. *)
Fixpoint decisions (identifier : string) (ops : list (Z * Op)) (store : MemoryStore)
  : list LimitResult :=
  match ops with
  | [] => []
  | (now, Check identifier' maxRequests windowMs) :: ops' =>
      let '(r, store') := checkMemoryLimit now identifier' maxRequests windowMs store in
      if bool_decide (identifier' = identifier)
      then r :: decisions identifier ops' store'
      else decisions identifier ops' store'
  | (now, Cleanup) :: ops' => decisions identifier ops' (cleanup now store)
  end.

Definition is_check_of (identifier : string) (o : Z * Op) : bool :=
  match snd o with
  | Check identifier' _ _ => bool_decide (identifier' = identifier)
  | Cleanup => false
  end.

Definition check_times (identifier : string) (ops : list (Z * Op)) : list Z :=
  map fst (List.filter (is_check_of identifier) ops).

Definition is_cleanup (o : Z * Op) : bool :=
  match snd o with Cleanup => true | _ => false end.

(** The cleanup timer cannot reach into a window of [w] milliseconds: it
    does not run in the history, or the window is at most the five minutes
    the timer keeps and the clock does not go back. *)
Definition timer_is_harmless (w : Z) (ops : list (Z * Op)) : bool :=
  forallb (fun o => negb (is_cleanup o)) ops
  || ((w <=? 5 * 60 * 1000) && nondecreasing (map fst ops)).

(** The 21 calls of the scenario, as a history. *)
Definition calls21 : list (Z * Op) := (fun t => (t, Check "a" 20 60000)) <$> times21.

(** Clock, window and record are such that the reset dates of a check
    are within the range of [Date]: a clock that is not negative, a
    window that is not negative and ends within the range, and no stored
    timestamp later than the clock. *)
Definition in_date_range (now windowMs : Z) (record : list Z) : bool :=
  (0 <=? now) && (0 <=? windowMs) && (now + windowMs <=? maxDate)
  && forallb (fun t => t <=? now) record.

(** A decision a caller can use under the policy [m]: counts that are not
    negative, nothing remaining on a rejection, and a valid reset date. *)
Definition well_formed (m : Z) (r : LimitResult) : Prop :=
  0 <= totalHits r ∧
  (allowed r = false → remaining r = 0) ∧
  (1 <= m → 0 <= remaining r ∧ is_Some (resetTime r)).

(** The node-redis client as far as the limiter uses it.  [R] is the state
    of the connection and of the server behind it; every command may
    change it and may fail (the promise is rejected), whatever the reason. *)
Record RedisClient (R E : Type) : Type := {
  zRemRangeByScore : string -> Z -> Z -> M R E Z;
  zCard : string -> M R E Z;
  ttl : string -> M R E Z;
  zAdd : string -> Z -> string -> M R E Z;
  expire : string -> Z -> M R E bool
}.
Arguments zRemRangeByScore {R E}.
Arguments zCard {R E}.
Arguments ttl {R E}.
Arguments zAdd {R E}.
Arguments expire {R E}.

(** The singleton [redisManager] of lib/redis.js, as the limiter sees it:
    [hasClient] is [this.client] being non-null. *)
Record RedisManager (R : Type) : Type := {
  hasClient : bool;
  isConnected : bool;
  server : R
}.
Arguments hasClient {R}.
Arguments isConnected {R}.
Arguments server {R}.

(** [isReady() { return this.client && this.isConnected; }] *)
Definition isReady {R} (m : RedisManager R) : bool :=
  hasClient m && isConnected m.

(** [getClient() { return this.isReady() ? this.client : null; }] *)
Definition getClient {R} (m : RedisManager R) : bool := isReady m.

(** What a check reads and writes. *)
Record World (R : Type) : Type := {
  redisManager : RedisManager R;
  inMemoryStore : MemoryStore
}.
Arguments redisManager {R}.
Arguments inMemoryStore {R}.

(** What a check reads from outside: the clock, [Math.random()] as the
    text interpolated into the sorted-set member, and the clock as the
    in-process backend reads it again when it takes over from a failed
    attempt on the shared store. *)
Record Env : Type := { now : Z; random : string; later : Z }.

(** [options]: an absent key is [None]. *)
Record Options : Type := {
  maxRequests : option Z;
  windowMs : option Z
}.

Section Limiter.
Context {R E : Type} (client : RedisClient R E).

Local Open Scope js_scope.

(** A command of the client, run on the server of the world. *)
Definition redis {A} (c : M R E A) : M (World R) E A :=
  fun w =>
    let '(r, srv) := c (server (redisManager w)) in
    (r, {| redisManager := {| hasClient := hasClient (redisManager w);
                              isConnected := isConnected (redisManager w);
                              server := srv |};
           inMemoryStore := inMemoryStore w |}).

(** [this.checkMemoryLimit(...)] on the store of the world, [now] being
    what [Date.now()] returns to it. *)
Definition memoryLimit (now : Z) (identifier : string)
    (maxRequests windowMs : Z) : M (World R) E LimitResult :=
  fun w =>
    let '(r, st) := checkMemoryLimit now identifier maxRequests windowMs
                      (inMemoryStore w) in
    (Ok r, {| redisManager := redisManager w; inMemoryStore := st |}).

(** The [try] block of [checkRedisLimit]. *)
Definition checkRedisLimit_try (env : Env) (identifier : string)
    (maxRequests windowSeconds : Z) : M (World R) E LimitResult :=
  let key := ("ratelimit:" +:+ identifier)%string in
  w <~ get ;;
  if negb (getClient (redisManager w)) then
    memoryLimit (now env) identifier maxRequests (windowSeconds * 1000)
  else
    let now := now env in
    let windowStart := now - windowSeconds * 1000 in
    redis (zRemRangeByScore client key 0 windowStart) ;;;
    currentRequests <~ redis (zCard client key) ;;
    if bool_decide (maxRequests <= currentRequests) then
      ttl <~ redis (ttl client key) ;;
      ret {| allowed := false;
             remaining := 0;
             resetTime := new_Date (now + ttl * 1000);
             totalHits := currentRequests |}
    else
      redis (zAdd client key now (pretty now +:+ "-" +:+ random env)%string) ;;;
      redis (expire client key windowSeconds) ;;;
      ret {| allowed := true;
             remaining := maxRequests - currentRequests - 1;
             resetTime := new_Date (now + windowSeconds * 1000);
             totalHits := currentRequests + 1 |}.

(** [checkRedisLimit]: any exception of the block is logged and answered
    from the in-process store. *)
Definition checkRedisLimit (env : Env) (identifier : string)
    (maxRequests windowSeconds : Z) : M (World R) E LimitResult :=
  try_catch (checkRedisLimit_try env identifier maxRequests windowSeconds)
    (fun _error => memoryLimit (later env) identifier maxRequests (windowSeconds * 1000)).

(** [checkLimit(identifier, options = {})] *)
Definition checkLimit (env : Env) (identifier : string) (options : Options)
  : M (World R) E LimitResult :=
  let maxRequests := default 30 (maxRequests options) in
  let windowMs := default 60000 (windowMs options) in
  let windowSeconds := windowMs / 1000 in
  w <~ get ;;
  if isReady (redisManager w) then
    checkRedisLimit env identifier maxRequests windowSeconds
  else
    memoryLimit (now env) identifier maxRequests windowMs.

(** [checkMessageLimit]: the preset [{maxRequests: 20, windowMs: 60000}],
    overridden by the keys of [options]. *)
Definition checkMessageLimit (env : Env) (identifier : string) (options : Options)
  : M (World R) E LimitResult :=
  checkLimit env ("msg:" +:+ identifier)%string
    {| maxRequests := Some (default 20 (maxRequests options));
       windowMs := Some (default 60000 (windowMs options)) |}.

End Limiter.

(** A client none of whose commands gets through. *)
Definition unreachable : RedisClient unit unit :=
  {| zRemRangeByScore := fun _ _ _ => throw tt;
     zCard := fun _ => throw tt;
     ttl := fun _ => throw tt;
     zAdd := fun _ _ _ => throw tt;
     expire := fun _ _ => throw tt |}.

End RateLimit.

(* ===================================================================== *)
(** ** JavaScript values and strings *)
(* ===================================================================== *)

Module Js.

(** A string: its UTF-16 code units; [length] is the [.length] of the
    source. *)
Abbreviation jsstring := (list N).

(** The code units of a literal of the source (ASCII). *)
Definition units (s : string) : jsstring :=
  map N_of_ascii (list_ascii_of_string s).

(** A value read from a parsed JSON payload ([JUndefined]: the key is
    absent; [JObject]: an object or an array). *)
Inductive JsValue : Type :=
| JUndefined
| JNull
| JBool (b : bool)
| JNumber (n : Z)
| JString (s : jsstring)
| JObject.

(** [ToBoolean] *)
Definition truthy (v : JsValue) : bool :=
  match v with
  | JUndefined | JNull => false
  | JBool b => b
  | JNumber n => negb (n =? 0)
  | JString s => match s with [] => false | _ => true end
  | JObject => true
  end.

(** [typeof v === 'string'] *)
Definition is_string (v : JsValue) : bool :=
  match v with JString _ => true | _ => false end.

Local Open Scope N_scope.

(** WhiteSpace and LineTerminator of ECMAScript: what [trim] strips and
    what [\s] matches. *)
Definition isWhiteSpace (c : N) : bool :=
  ((9 <=? c) && (c <=? 13)) || (c =? 32) || (c =? 160) || (c =? 5760)
  || ((8192 <=? c) && (c <=? 8202)) || (c =? 8232) || (c =? 8233)
  || (c =? 8239) || (c =? 8287) || (c =? 12288) || (c =? 65279).

Definition isDigit (c : N) : bool := (48 <=? c) && (c <=? 57).
Definition isUpper (c : N) : bool := (65 <=? c) && (c <=? 90).
Definition isLower (c : N) : bool := (97 <=? c) && (c <=? 122).

(** [\w]: [A-Za-z0-9_] (also under the [i] flag, no [u] flag being used). *)
Definition isWordChar (c : N) : bool :=
  isUpper c || isLower c || isDigit c || (c =? 95).

Fixpoint trimStart (s : jsstring) : jsstring :=
  match s with
  | [] => []
  | c :: t => if isWhiteSpace c then trimStart t else s
  end.

Definition trimEnd (s : jsstring) : jsstring := reverse (trimStart (reverse s)).

(** [s.trim()] *)
Definition trim (s : jsstring) : jsstring := trimEnd (trimStart s).

(** [s.substring(0, n)] *)
Definition substring0 (n : nat) (s : jsstring) : jsstring := take n s.

End Js.

(* ===================================================================== *)
(** ** Regular expressions of the sanitizer *)
(* ===================================================================== *)

(** The backtracking matcher of ECMAScript for the constructs the source
    uses: literals and classes, concatenation, alternation (left first),
    greedy repetition, negative lookahead and the word boundary. *)
Module Regex.
Import Js.

Inductive regex : Type :=
| Eps
| Chr (f : N -> bool)          (* one code unit satisfying [f] *)
| Seq (r1 r2 : regex)
| Alt (r1 r2 : regex)          (* r1|r2 *)
| Star (r : regex)             (* r*, greedy *)
| NotAhead (r : regex)         (* (?!r) *)
| WordBoundary.                (* \b *)

(** r+ and r? (greedy) *)
Definition Plus (r : regex) : regex := Seq r (Star r).
Definition Opt (r : regex) : regex := Alt r Eps.

(** A position of the scan: the code unit before it, the number of code
    units matched so far, and the input from here on. *)
Record pos : Type := mkPos {
  before : option N;
  matched : nat;
  rest : jsstring
}.

Definition is_word (c : option N) : bool :=
  match c with Some c => isWordChar c | None => false end.

(** The loop of a greedy repetition whose body is [body]: one more
    iteration, which must consume something (an iteration that matches
    the empty string is rejected, as RepeatMatcher does), or else the
    continuation.  [fuel] bounds the number of iterations; the length of
    the input that is left is enough. *)
Fixpoint star_loop (body : pos -> (pos -> option nat) -> option nat)
    (k : pos -> option nat) (fuel : nat) (p : pos) {struct fuel} : option nat :=
  match fuel with
  | O => k p
  | S fuel' =>
      match body p (fun p' =>
              if (length (rest p') <? length (rest p))%nat
              then star_loop body k fuel' p' else None) with
      | Some n => Some n
      | None => k p
      end
  end.

(** [exec r p k]: match [r] at [p], then continue with [k]; the first
    success in backtracking order is the result. *)
Fixpoint exec (r : regex) : pos -> (pos -> option nat) -> option nat :=
  match r with
  | Eps => fun p k => k p
  | Chr f => fun p k =>
      match rest p with
      | c :: t => if f c then k (mkPos (Some c) (S (matched p)) t) else None
      | [] => None
      end
  | Seq r1 r2 => fun p k => exec r1 p (fun p' => exec r2 p' k)
  | Alt r1 r2 => fun p k =>
      match exec r1 p k with
      | Some n => Some n
      | None => exec r2 p k
      end
  | Star r1 => fun p k => star_loop (exec r1) k (length (rest p)) p
  | NotAhead r1 => fun p k =>
      match exec r1 p (fun _ => Some O) with
      | Some _ => None
      | None => k p
      end
  | WordBoundary => fun p k =>
      if xorb (is_word (before p)) (is_word (head (rest p))) then k p else None
  end.

(** The length of the match of [r] that starts right here, if there is
    one; [prev] is the code unit before. *)
Definition match_here (r : regex) (prev : option N) (s : jsstring) : option nat :=
  exec r (mkPos prev O s) (fun p => Some (matched p)).

(** [s.replace(/r/g, '')]: scanning from the left, the leftmost match is
    removed and the scan goes on after it; where none starts (or only an
    empty one) the code unit is kept.  [skip] counts the code units of the
    current match still to be removed. *)
Fixpoint remove_from (r : regex) (prev : option N) (skip : nat) (s : jsstring)
  : jsstring :=
  match s with
  | [] => []
  | c :: t =>
      match skip with
      | S k => remove_from r (Some c) k t
      | O =>
          match match_here r prev s with
          | Some (S k) => remove_from r (Some c) k t
          | _ => c :: remove_from r (Some c) O t
          end
      end
  end.

Definition remove_all (r : regex) (s : jsstring) : jsstring :=
  remove_from r None O s.

(** Building blocks. *)
Local Open Scope N_scope.

Definition only (c : string) : N -> bool :=
  fun x => match units c with [a] => x =? a | _ => false end.

Definition lower (a : N) : N := if isUpper a then a + 32 else a.

(** A literal letter under the [i] flag: either case (Canonicalize maps no
    other code unit to an ASCII letter). *)
Definition ci (c : string) : N -> bool :=
  fun x => match units c with [a] => lower x =? lower a | _ => false end.

Definition except (c : string) : N -> bool := fun x => negb (only c x).

(** The literal text [s], case-insensitive. *)
Definition lit_ci (s : string) : regex :=
  foldr (fun a r => Seq (Chr (fun x => lower x =? lower a)) r) Eps (units s).

End Regex.

(* ===================================================================== *)
(** ** The wire message of a client *)
(* ===================================================================== *)

(** A parsed client payload that is an object (or an array): the keys the
    server reads. *)
Record Message : Type := mkMessage {
  type : Js.JsValue;
  content : Js.JsValue;
  encrypted : Js.JsValue
}.

(** What [JSON.parse] can return: [null], a primitive (number, string,
    boolean), or an object. *)
Inductive Payload : Type :=
| PNull
| PPrimitive
| PObject (m : Message).

(* ===================================================================== *)
(** ** class ServerEncryption: sanitizer and validator *)
(* ===================================================================== *)

Module ServerEncryption.
Import Js Regex.

Local Open Scope N_scope.

Definition quote : N -> bool := fun x => (x =? 34) || (x =? 39).
Definition word : regex := Chr isWordChar.
Definition space : regex := Chr isWhiteSpace.

(** The script-block pattern, flags [gi]: [<script\b[^<]*], then any number
    of times the group made of [(?!<\/script>)] and [<[^<]*], then
    [<\/script>]. *)
Definition re_script : regex :=
  Seq (lit_ci "<script")
  (Seq WordBoundary
  (Seq (Star (Chr (except "<")))
  (Seq (Star (Seq (NotAhead (lit_ci "</script>"))
             (Seq (Chr (only "<")) (Star (Chr (except "<"))))))
       (lit_ci "</script>")))).

(** [/<[^>]*>?/gm] *)
Definition re_tag : regex :=
  Seq (Chr (only "<")) (Seq (Star (Chr (except ">"))) (Opt (Chr (only ">")))).

(** [/javascript:/gi] *)
Definition re_jsuri : regex :=
  Seq (lit_ci "javascript") (Chr (only ":")).

(** [/on\w+\s*=\s*[Q'][^Q']*[Q']|on\w+\s*=\s*\w+/gi], where Q stands for
    the double quote (code unit 34; the apostrophe is 39). *)
Definition re_handler : regex :=
  Alt (Seq (lit_ci "on") (Seq (Plus word) (Seq (Star space) (Seq (Chr (only "="))
        (Seq (Star space)
        (Seq (Chr quote) (Seq (Star (Chr (fun x => negb (quote x)))) (Chr quote))))))))
      (Seq (lit_ci "on") (Seq (Plus word) (Seq (Star space) (Seq (Chr (only "="))
        (Seq (Star space) (Plus word)))))).

(** Content without [<], [:] and [=]: no pattern of the sanitizer can
    match in it. *)
Definition markup_free (s : jsstring) : bool :=
  forallb (fun x => negb (x =? 60) && negb (x =? 58) && negb (x =? 61)) s.

(** [sanitizeInput(input)] *)
Definition sanitizeInput (input : JsValue) : jsstring :=
  match input with
  | JString input =>
      remove_all re_handler
        (remove_all re_jsuri
          (remove_all re_tag
            (remove_all re_script
              (substring0 1000 (trim input)))))
  | _ => []
  end.

(** The object returned by [validateMessage]. *)
Record Validation : Type := mkValidation {
  valid : bool;
  sanitized : option Message;
  error : option string
}.

Definition reject (e : string) : Validation :=
  {| valid := false; sanitized := None; error := Some e |}.

(** [validateMessage(message)]: [null] is falsy and the [typeof] of a
    primitive is not ['object']. *)
Definition validateMessage (message : Payload) : Validation :=
  match message with
  | PNull | PPrimitive => reject "Invalid message format"
  | PObject message =>
      if negb (truthy (content message)) || negb (is_string (content message)) then
        reject "Message content is required"
      else
        match content message with
        | JString c =>
            if (length c =? 0)%nat || (1000 <? length c)%nat then
              reject "Message content length invalid"
            else if negb (truthy (type message)) || negb (is_string (type message)) then
              reject "Message type is required"
            else
              let sanitizedContent := sanitizeInput (content message) in
              if (length sanitizedContent =? 0)%nat then
                reject "Message content is empty after sanitization"
              else
                {| valid := true;
                   sanitized := Some {| type := type message;
                                        content := JString sanitizedContent;
                                        encrypted := encrypted message |};
                   error := None |}
        | _ => reject "Message content is required"
        end
  end.

End ServerEncryption.

(* ===================================================================== *)
(** ** JSON text and the Redis list behind the message store *)
(* ===================================================================== *)

(** [JSON.stringify a]: the text, kept symbolic; [JSON.parse] gives the
    value back. *)
Inductive Json (A : Type) : Type := Stringified (a : A).
Arguments Stringified {A} a.

Definition JSON_stringify {A} (a : A) : Json A := Stringified a.
Definition JSON_parse {A} (j : Json A) : A := match j with Stringified a => a end.

(** The last [n] items of a list, in order. *)
Definition lastN {A} (n : nat) (l : list A) : list A := drop (length l - n) l.

(** The value of one Redis key holding a list (head first) and its time
    to live; the LPUSH, LTRIM, LRANGE and EXPIRE commands at time [now]. *)
Module Redis.

Record Key (A : Type) : Type := mkKey {
  items : list A;
  expireAt : option Z
}.
Arguments mkKey {A}.
Arguments items {A}.
Arguments expireAt {A}.

Definition empty {A} : Key A := mkKey [] None.

(** A key whose time to live has run out is gone. *)
Definition alive {A} (now : Z) (k : Key A) : Key A :=
  match expireAt k with
  | Some t => if t <=? now then empty else k
  | None => k
  end.

(** An index counted from the end when negative. *)
Definition index (len i : Z) : Z := if i <? 0 then len + i else i.

Definition range {A} (l : list A) (start stop : Z) : list A :=
  let len := Z.of_nat (length l) in
  let s := Z.max 0 (index len start) in
  let e := Z.min (len - 1) (index len stop) in
  if e <? s then [] else take (Z.to_nat (e - s + 1)) (drop (Z.to_nat s) l).

Definition lPush {A} (now : Z) (x : A) (k : Key A) : Z * Key A :=
  let k := alive now k in
  (Z.of_nat (S (length (items k))), mkKey (x :: items k) (expireAt k)).

Definition lTrim {A} (now : Z) (start stop : Z) (k : Key A) : unit * Key A :=
  let k := alive now k in
  match range (items k) start stop with
  | [] => (tt, empty)
  | l => (tt, mkKey l (expireAt k))
  end.

Definition lRange {A} (now : Z) (start stop : Z) (k : Key A) : list A * Key A :=
  let k := alive now k in
  (range (items k) start stop, k).

Definition expire {A} (now : Z) (seconds : Z) (k : Key A) : bool * Key A :=
  let k := alive now k in
  match items k with
  | [] => (false, k)
  | _ => (true, mkKey (items k) (Some (now + seconds * 1000)))
  end.

Inductive Error : Type := CommandFailed.

(** A command sent to the server: rejected without effect when [fails]. *)
Definition command {A B} (fails : bool) (c : Key A -> B * Key A) : M (Key A) Error B :=
  fun k => if fails then (Throw CommandFailed, k) else let '(b, k') := c k in (Ok b, k').

End Redis.

(* ===================================================================== *)
(** ** class RedisManager of lib/redis.js: the message operations *)
(* ===================================================================== *)

Module RedisManager.

Local Open Scope js_scope.

Section MessageOperations.
(** [A]: what is saved; the world is the key ['chat:messages'].
    [now] is the time of the call, [ready] the value of [this.isReady()],
    [fault n] whether the [n]-th command of the call is rejected. *)
Context {A : Type}.
Variables (now : Z) (ready : bool) (fault : nat -> bool).

Abbreviation World := (Redis.Key (Json A)).

(** [saveMessage(message, maxMessages = 100)] *)
Definition saveMessage (message : A) (maxMessages : Z)
  : M World Redis.Error bool :=
  if negb ready then ret false
  else
    try_catch
      (let messageStr := JSON_stringify message in
       Redis.command (fault 0%nat) (Redis.lPush now messageStr) ;;;
       Redis.command (fault 1%nat) (Redis.lTrim now 0 (maxMessages - 1)) ;;;
       Redis.command (fault 2%nat) (Redis.expire now 86400) ;;;
       ret true)
      (fun _error => ret false).

(** [getMessages(count = 50)] *)
Definition getMessages (count : Z) : M World Redis.Error (list A) :=
  if negb ready then ret []
  else
    try_catch
      (messages <~ Redis.command (fault 0%nat) (Redis.lRange now 0 (count - 1)) ;;
       ret (reverse (map JSON_parse messages)))
      (fun _error => ret []).

End MessageOperations.

(** Between two calls the key does not outlive its 24 hours: every call
    comes before the expiry set by the one before ([exp] is the expiry
    found by the first). *)
Fixpoint kept_alive (exp : option Z) (times : list Z) : bool :=
  match times with
  | [] => true
  | t :: later =>
      match exp with Some e => t <? e | None => true end
      && kept_alive (Some (t + 86400 * 1000)) later
  end.

(** [getMessages(100)] on a reachable server. *)
Definition recent {A} (now : Z) (w : Redis.Key (Json A)) : Result Redis.Error (list A) :=
  fst (getMessages now true (fun _ => false) 100 w).

(** Appending the messages of [log] in order, each with the time of its
    call, to a reachable server. *)
Fixpoint saveAll {A} (log : list (Z * A)) (w : Redis.Key (Json A)) : Redis.Key (Json A) :=
  match log with
  | [] => w
  | (now, message) :: log' =>
      saveAll log' (snd (saveMessage now true (fun _ => false) message 100 w))
  end.

End RedisManager.

(* ===================================================================== *)
(** ** class ChatServer: the relay *)
(* ===================================================================== *)

Module ChatServer.
Import Js.

Local Open Scope js_scope.

(** A transport handle [ws] and its [readyState]. *)
Abbreviation Ws := nat.

Inductive ReadyState : Type := CONNECTING | OPEN | CLOSING | CLOSED.

Global Instance ReadyState_eq_dec : EqDecision ReadyState.
Proof. solve_decision. Defined.

(** [clientInfo] *)
Record ClientInfo : Type := mkClientInfo {
  client_id : string;
  client_color : string;
  joinedAt : Z;
  lastActivity : Z
}.

(** [chatMessage]; [timestamp] is the instant that [toISOString] prints. *)
Record ChatMessage : Type := mkChatMessage {
  id : string;
  msg_content : jsstring;
  timestamp : Z;
  userId : string;
  color : string;
  msg_encrypted : JsValue
}.

(** The events the server sends, by their [type]. *)
Inductive Event : Type :=
| Init (userId color : string) (messages : list ChatMessage)
| UserCount (count : nat)
| NewMessage (message : ChatMessage)
| Pong.

Definition event_type (e : Event) : string :=
  match e with
  | Init _ _ _ => "init"
  | UserCount _ => "userCount"
  | NewMessage _ => "newMessage"
  | Pong => "pong"
  end.

Abbreviation Frame := (Json Event).

Inductive Exn : Type :=
| TypeError
| RedisError (e : Redis.Error).

(** The state of the process: [this.clients] in insertion order, the
    module-level array [messages], the key ['chat:messages'] of the Redis
    server, and the calls of [ws.send] made so far, oldest first. *)
Record Server : Type := mkServer {
  clients : list (Ws * ClientInfo);
  messages : list ChatMessage;
  redis : Redis.Key (Json ChatMessage);
  sent : list (Ws * Frame)
}.

(** What a handler reads from outside while it runs: the clock, the draws
    of [uuidv4()], [generateAnonId()] and [generateUserColor()], the
    [readyState] of every transport, whether [redisClient &&
    redisClient.isReady] holds, and whether the [n]-th Redis command it
    sends is rejected. *)
Record Env : Type := mkEnv {
  now : Z;
  uuid : string;
  anonId : string;
  userColor : string;
  readyState : Ws -> ReadyState;
  redisReady : bool;
  fault : nat -> bool
}.

(** The server of a process that has just started. *)
Definition initial : Server := mkServer [] [] Redis.empty [].

(** *** [Map] operations on [this.clients] *)

Definition map_get {V} (ws : Ws) (m : list (Ws * V)) : option V :=
  snd <$> List.find (fun e => Nat.eqb (fst e) ws) m.

Fixpoint map_set {V} (ws : Ws) (v : V) (m : list (Ws * V)) : list (Ws * V) :=
  match m with
  | [] => [(ws, v)]
  | (ws', v') :: m' =>
      if Nat.eqb ws' ws then (ws, v) :: m' else (ws', v') :: map_set ws v m'
  end.

Definition map_delete {V} (ws : Ws) (m : list (Ws * V)) : list (Ws * V) :=
  List.filter (fun e => negb (Nat.eqb (fst e) ws)) m.

Definition with_clients (f : list (Ws * ClientInfo) -> list (Ws * ClientInfo))
    (s : Server) : Server :=
  mkServer (f (clients s)) (messages s) (redis s) (sent s).

Definition with_messages (f : list ChatMessage -> list ChatMessage) (s : Server)
  : Server :=
  mkServer (clients s) (f (messages s)) (redis s) (sent s).

(** [ws.send(frame)]: the call is recorded; it returns normally (a
    transport failure is reported later, by the ['error'] event). *)
Definition ws_send (ws : Ws) (frame : Frame) (s : Server) : Server :=
  mkServer (clients s) (messages s) (redis s) (sent s ++ [(ws, frame)]).

(** A Redis command, run on the key of the server state. *)
Definition redis_command {B} (fails : bool)
    (c : Redis.Key (Json ChatMessage) -> B * Redis.Key (Json ChatMessage))
  : M Server Exn B :=
  fun s =>
    match Redis.command fails c (redis s) with
    | (Ok b, k) => (Ok b, mkServer (clients s) (messages s) k (sent s))
    | (Throw e, k) => (Throw (RedisError e), mkServer (clients s) (messages s) k (sent s))
    end.

(** [messages.push(message); if (messages.length > 100) messages.shift();] *)
Definition push_shift (message : ChatMessage) (messages : list ChatMessage)
  : list ChatMessage :=
  let messages := messages ++ [message] in
  if (100 <? length messages)%nat then tail messages else messages.

(** [saveMessage(message)] *)
Definition saveMessage (env : Env) (message : ChatMessage) : M Server Exn unit :=
  if redisReady env then
    try_catch
      (redis_command (fault env 0%nat) (Redis.lPush (now env) (JSON_stringify message)) ;;;
       redis_command (fault env 1%nat) (Redis.lTrim (now env) 0 99) ;;;
       ret tt)
      (fun _error => modify (with_messages (push_shift message)))
  else
    modify (with_messages (push_shift message)).

(** [getMessages()]; [first] is the number of Redis commands the handler
    has sent before. *)
Definition getMessages (env : Env) (first : nat) : M Server Exn (list ChatMessage) :=
  if redisReady env then
    try_catch
      (msgs <~ redis_command (fault env first) (Redis.lRange (now env) 0 (-1)) ;;
       ret (reverse (map JSON_parse msgs)))
      (fun _error => s <~ get ;; ret (messages s))
  else
    s <~ get ;; ret (messages s).

(** [broadcast(message, excludeClient = null)] *)
Definition broadcast (env : Env) (message : Event) (excludeClient : option Ws)
    (s : Server) : Server :=
  let messageStr := JSON_stringify message in
  foldl (fun s '(ws, _client) =>
           if negb (bool_decide (Some ws = excludeClient))
              && bool_decide (readyState env ws = OPEN)
           then ws_send ws messageStr s
           else s)
        s (clients s).

(** [handleMessage(ws, message)] *)
Definition handleMessage (env : Env) (ws : Ws) (message : Payload)
  : M Server Exn unit :=
  s <~ get ;;
  match map_get ws (clients s) with
  | None => ret tt
  | Some client =>
      modify (with_clients (map_set ws
        (mkClientInfo (client_id client) (client_color client) (joinedAt client) (now env)))) ;;;
      match message with
      | PNull => throw TypeError
      | PPrimitive => ret tt
      | PObject message =>
          match type message with
          | JString t =>
              if bool_decide (t = units "message") then
                if truthy (content message) then
                  match content message with
                  | JString c =>
                      if (0 <? length (trim c))%nat then
                        let chatMessage :=
                          {| id := uuid env;
                             msg_content := substring0 1000 (trim c);
                             timestamp := now env;
                             userId := client_id client;
                             color := client_color client;
                             msg_encrypted :=
                               if truthy (encrypted message) then encrypted message
                               else JBool false |} in
                        saveMessage env chatMessage ;;;
                        modify (broadcast env (NewMessage chatMessage) None)
                      else ret tt
                  | _ => throw TypeError
                  end
                else ret tt
              else if bool_decide (t = units "ping") then
                modify (ws_send ws (JSON_stringify Pong))
              else ret tt
          | _ => ret tt
          end
      end
  end.

(** The ['message'] listener: [data] is [None] when [JSON.parse] throws;
    whatever is thrown is logged. *)
Definition on_message (env : Env) (ws : Ws) (data : option Payload) (s : Server)
  : Server :=
  match data with
  | None => s
  | Some parsed => snd (handleMessage env ws parsed s)
  end.

(** The ['close'] listener. *)
Definition on_close (env : Env) (ws : Ws) (s : Server) : Server :=
  let s := with_clients (map_delete ws) s in
  broadcast env (UserCount (length (clients s))) None s.

(** The ['error'] listener. *)
Definition on_error (env : Env) (ws : Ws) (s : Server) : Server :=
  with_clients (map_delete ws) s.

(** [handleConnection(ws, request)], up to the registration of the
    listeners. *)
Definition handleConnection (env : Env) (ws : Ws) (s : Server) : Server :=
  let clientInfo := mkClientInfo (anonId env) (userColor env) (now env) (now env) in
  let s := with_clients (map_set ws clientInfo) s in
  match getMessages env 0 s with
  | (Ok recentMessages, s) =>
      let s := ws_send ws (JSON_stringify (Init (anonId env) (userColor env) recentMessages)) s in
      broadcast env (UserCount (length (clients s))) None s
  | (Throw _, s) => s
  end.

(** What happens to the process. *)
Inductive Input : Type :=
| Connection (ws : Ws)
| MessageEvent (ws : Ws) (data : option Payload)
| CloseEvent (ws : Ws)
| ErrorEvent (ws : Ws).

Definition step (s : Server) (i : Env * Input) : Server :=
  let '(env, input) := i in
  match input with
  | Connection ws => handleConnection env ws s
  | MessageEvent ws data => on_message env ws data s
  | CloseEvent ws => on_close env ws s
  | ErrorEvent ws => on_error env ws s
  end.

Definition run (inputs : list (Env * Input)) (s : Server) : Server :=
  foldl step s inputs.

(** The frames handed to [ws.send] of one transport, oldest first. *)
Definition outbox (ws : Ws) (s : Server) : list Frame :=
  snd <$> List.filter (fun e => Nat.eqb (fst e) ws) (sent s).

(** *** Vocabulary of the properties *)

(** Appending the messages of [log] in order, each under the conditions
    it comes with. *)
Definition saveAll (log : list (Env * ChatMessage)) (s : Server) : Server :=
  foldl (fun s '(env, message) => snd (saveMessage env message s)) s log.

(** The recent-messages query. *)
Definition recent (env : Env) (s : Server) : Result Exn (list ChatMessage) :=
  fst (getMessages env 0 s).

(** The conditions under which the in-process backend is used, and those
    under which the shared store answers every command. *)
Definition in_process (env : Env) : bool := negb (redisReady env).

Definition shared (env : Env) : bool :=
  redisReady env && negb (fault env 0%nat) && negb (fault env 1%nat).

(** The message numbered [k]. *)
Definition numbered (k : nat) : ChatMessage :=
  {| id := pretty k; msg_content := units (pretty k); timestamp := Z.of_nat k;
     userId := "Ghost0001"; color := "#FF6B6B"; msg_encrypted := JBool false |}.

(** Some conditions with the shared store down, and some with it up. *)
Definition offline (k : nat) : Env :=
  {| now := Z.of_nat k; uuid := pretty k; anonId := "Ghost0001"; userColor := "#FF6B6B";
     readyState := fun _ => OPEN; redisReady := false; fault := fun _ => false |}.

Definition online (k : nat) : Env :=
  {| now := Z.of_nat k; uuid := pretty k; anonId := "Ghost0001"; userColor := "#FF6B6B";
     readyState := fun _ => OPEN; redisReady := true; fault := fun _ => false |}.

(** Conditions with the shared store up, under which it answers the
    LPUSH of a save and rejects its LTRIM. *)
Definition trim_rejected (k : nat) : Env :=
  {| now := Z.of_nat k; uuid := pretty k; anonId := "Ghost0001"; userColor := "#FF6B6B";
     readyState := fun _ => OPEN; redisReady := true;
     fault := fun n => Nat.eqb n 1 |}.

(** What [handleMessage] makes of the content of a ['message'] payload:
    the text it stores and broadcasts, if it does. *)
Definition relayed_content (m : Message) : option jsstring :=
  match content m with
  | JString c =>
      if (0 <? length (trim c))%nat then Some (substring0 1000 (trim c)) else None
  | _ => None
  end.

(** The client record after [client.lastActivity = new Date()], and the
    [chatMessage] built for the text [text]. *)
Definition touch (env : Env) (client : ClientInfo) : ClientInfo :=
  mkClientInfo (client_id client) (client_color client) (joinedAt client) (now env).

Definition chat_message (env : Env) (client : ClientInfo) (m : Message) (text : jsstring)
  : ChatMessage :=
  {| id := uuid env; msg_content := text; timestamp := now env;
     userId := client_id client; color := client_color client;
     msg_encrypted := if truthy (encrypted m) then encrypted m else JBool false |}.

(** The test of the loop of [broadcast]. *)
Definition open_for (env : Env) (excludeClient : option Ws) (ws : Ws) : bool :=
  negb (bool_decide (Some ws = excludeClient)) && bool_decide (readyState env ws = OPEN).

(** The transports on which [broadcast] calls [send]. *)
Definition reached (env : Env) (excludeClient : option Ws) (s : Server) (ws : Ws) : bool :=
  bool_decide (ws ∈ map fst (clients s))
  && negb (bool_decide (Some ws = excludeClient))
  && bool_decide (readyState env ws = OPEN).

(** No two entries of [this.clients] have the same key. *)
Definition registry_ok (s : Server) : Prop := NoDup (map fst (clients s)).


(** The calls of [send] made since the state [s]. *)
Definition sent_since (s s' : Server) : list (Ws * Frame) :=
  drop (length (sent s)) (sent s').

(** Some conditions a handler may run under, every transport open. *)
Definition at_time (t : Z) (id : string) : Env :=
  {| now := t; uuid := id; anonId := "Ghost0001"; userColor := "#FF6B6B";
     readyState := fun _ => OPEN; redisReady := false; fault := fun _ => false |}.

(** A ['message'] payload with the given text. *)
Definition text_message (c : jsstring) : Payload :=
  PObject {| type := JString (units "message"); content := JString c;
             encrypted := JUndefined |}.

(** The server after one client, on the transport 1, has connected. *)
Definition joined : Server := run [(at_time 0 "u0", Connection 1%nat)] initial.

(** 21 messages of that client within 21 milliseconds. *)
Definition burst : list (Env * Input) :=
  map (fun k => (at_time (Z.of_nat k) (pretty k),
                 MessageEvent 1%nat (Some (text_message (units "hi")))))
      (seq 1 21).

Definition is_newMessage (f : Frame) : bool :=
  match JSON_parse f with NewMessage _ => true | _ => false end.

(** Three clients, the transport of the second no longer open. *)
Definition second_closed (t : Z) (id : string) : Env :=
  {| now := t; uuid := id; anonId := "Ghost0001"; userColor := "#FF6B6B";
     readyState := fun ws => if Nat.eqb ws 2 then CLOSED else OPEN;
     redisReady := false; fault := fun _ => false |}.

Definition three_clients : Server :=
  run [(at_time 0 "u1", Connection 1%nat); (at_time 1 "u2", Connection 2%nat);
       (at_time 2 "u3", Connection 3%nat)] initial.

End ChatServer.

(* ===================================================================== *)
(** ** backend/lib/rateLimit.js: presets, status, reset and middleware *)
(* ===================================================================== *)

Module RateLimitOps.
Import RateLimit.

(** [hay.startsWith(needle)] and [hay.includes(needle)] *)
Fixpoint startsWith (needle hay : string) : bool :=
  match needle, hay with
  | EmptyString, _ => true
  | String a needle', String b hay' => Ascii.eqb a b && startsWith needle' hay'
  | String _ _, EmptyString => false
  end.

Fixpoint includes (needle hay : string) : bool :=
  startsWith needle hay ||
  match hay with
  | EmptyString => false
  | String _ hay' => includes needle hay'
  end.

(** The commands of the client that [reset] uses. *)
Record RedisKeys (R E : Type) : Type := {
  keys : string -> M R E (list string);
  del : list string -> M R E Z
}.
Arguments keys {R E}.
Arguments del {R E}.

(** What [getStatus] returns: [resetTime] is [null] ([None]) or a [Date],
    which may be the invalid one. *)
Record Status : Type := {
  currentRequests : Z;
  statusResetTime : option (option Z)
}.

(** The presets of the limiter. *)
Inductive Preset : Type := Message | Connection | Burst | WebSocket.

(** What the middleware does with a request: [next()], after setting the
    rate-limit headers or, when something was thrown, without them; or the
    answer 429 with its [Retry-After]. *)
Record Headers : Type := {
  limit : Z;            (* X-RateLimit-Limit *)
  headerRemaining : Z;  (* X-RateLimit-Remaining *)
  headerReset : Z       (* X-RateLimit-Reset, the instant printed *)
}.

Inductive Outcome : Type :=
| Next (headers : option Headers)
| TooManyRequests (headers : Headers) (retryAfter : Z).

(** [Math.ceil(x / 1000)] for an integer [x]. *)
Definition ceil_div_1000 (x : Z) : Z := - ((- x) / 1000).

(** The in-process store with the records whose key includes
    [identifier] deleted. *)
Definition forget (identifier : string) (store : MemoryStore) : MemoryStore :=
  filter (λ kv, includes identifier (fst kv) = false) store.

Section Operations.
Context {R E : Type} (client : RedisClient R E) (admin : RedisKeys R E).

Local Open Scope js_scope.

(** [checkConnectionLimit], [checkBurstLimit], [checkWebSocketLimit] *)
Definition checkConnectionLimit (env : Env) (identifier : string) (options : Options)
  : M (World R) E LimitResult :=
  checkLimit client env ("conn:" +:+ identifier)%string
    {| maxRequests := Some (default 5 (maxRequests options));
       windowMs := Some (default 60000 (windowMs options)) |}.

Definition checkBurstLimit (env : Env) (identifier : string) (options : Options)
  : M (World R) E LimitResult :=
  checkLimit client env ("burst:" +:+ identifier)%string
    {| maxRequests := Some (default 5 (maxRequests options));
       windowMs := Some (default 10000 (windowMs options)) |}.

Definition checkWebSocketLimit (env : Env) (identifier : string) (options : Options)
  : M (World R) E LimitResult :=
  checkLimit client env ("ws:" +:+ identifier)%string
    {| maxRequests := Some (default 10 (maxRequests options));
       windowMs := Some (default 30000 (windowMs options)) |}.

(** [checkAPILimit(identifier, endpoint, options)] *)
Definition checkAPILimit (env : Env) (identifier endpoint : string) (options : Options)
  : M (World R) E LimitResult :=
  checkLimit client env ("api:" +:+ endpoint +:+ ":" +:+ identifier)%string
    {| maxRequests := Some (default 100 (maxRequests options));
       windowMs := Some (default 60000 (windowMs options)) |}.

(** One of the four presets that take an identifier and options. *)
Definition checkPreset (p : Preset) : Env -> string -> Options -> M (World R) E LimitResult :=
  match p with
  | Message => checkMessageLimit client
  | Connection => checkConnectionLimit
  | Burst => checkBurstLimit
  | WebSocket => checkWebSocketLimit
  end.

(** [reset(identifier)] *)
Definition reset (identifier : string) : M (World R) E unit :=
  w <~ get ;;
  (if isReady (redisManager w) then
     try_catch
       (found <~ redis (keys admin ("ratelimit:*" +:+ identifier +:+ "*")%string) ;;
        if (0 <? length found)%nat then redis (del admin found) ;;; ret tt else ret tt)
       (fun _error => ret tt)
   else ret tt) ;;;
  modify (fun w => {| redisManager := redisManager w;
                      inMemoryStore := forget identifier (inMemoryStore w) |}).

(** [getStatus(identifier)] *)
Definition getStatus (env : Env) (identifier : string) : M (World R) E Status :=
  w <~ get ;;
  fromRedis <~
    (if isReady (redisManager w) then
       try_catch
         (let key := ("ratelimit:" +:+ identifier)%string in
          count <~ redis (zCard client key) ;;
          ttl <~ redis (ttl client key) ;;
          ret (Some {| currentRequests := count;
                       statusResetTime :=
                         if 0 <? ttl then Some (new_Date (now env + ttl * 1000))
                         else None |}))
         (fun _error => ret None)
     else ret None) ;;
  match fromRedis with
  | Some status => ret status
  | None =>
      w <~ get ;;
      let requests := default [] (inMemoryStore w !! identifier) in
      ret {| currentRequests := Z.of_nat (length requests);
             statusResetTime := (fun t => new_Date (t + 60000)) <$> head requests |}
  end.

(** The middleware made by [createMiddleware(options)], on a request whose
    identifier (from [keyGenerator] or [getDefaultIdentifier]) is
    [identifier]; [clock] is what [Date.now()] returns when the
    [Retry-After] is computed.  [toISOString] throws on the invalid date,
    and whatever is thrown is caught and answered by [next()]. *)
Definition middleware (env : Env) (clock : Z) (identifier : string) (options : Options)
  : M (World R) E Outcome :=
  try_catch
    (result <~ checkLimit client env identifier options ;;
     match resetTime result with
     | None => ret (Next None)
     | Some reset =>
         let headers :=
           {| limit := match maxRequests options with
                       | Some m => if m =? 0 then 30 else m
                       | None => 30
                       end;
              headerRemaining := remaining result;
              headerReset := reset |} in
         if negb (allowed result) then
           ret (TooManyRequests headers (ceil_div_1000 (reset - clock)))
         else ret (Next (Some headers))
     end)
    (fun _error => ret (Next None)).

End Operations.

(** The world of a process without a Redis connection. *)
Definition offline (store : MemoryStore) : World unit :=
  {| redisManager := {| hasClient := false; isConnected := false; server := tt |};
     inMemoryStore := store |}.

(** A server that answers no command about keys. *)
Definition unreachable_keys : RedisKeys unit unit :=
  {| keys := fun _ => throw tt; del := fun _ => throw tt |}.

End RateLimitOps.

(* ===================================================================== *)
(** ** The HTTP endpoint of the recent messages *)
(* ===================================================================== *)

Module MessagesApi.

(** [rateLimitMap] *)
Abbreviation RateLimitMap := (gmap string (list Z)).

(** [rateLimit(ip, maxRequests = 30, windowMs = 60000)]; the filtered array
    is stored only when the request is let in. *)
Definition rateLimit (now : Z) (ip : string) (maxRequests windowMs : Z)
    (rateLimitMap : RateLimitMap) : bool * RateLimitMap :=
  let windowStart := now - windowMs in
  let map1 :=
    match rateLimitMap !! ip with
    | Some _ => rateLimitMap
    | None => <[ip := []]> rateLimitMap
    end in
  let requests := default [] (map1 !! ip) in
  let validRequests := filter (λ time, windowStart < time) requests in
  if bool_decide (maxRequests <= Z.of_nat (length validRequests)) then (false, map1)
  else (true, <[ip := validRequests ++ [now]]> map1).

(** A sequence of calls for one address and one policy. *)
Fixpoint rateLimits (ip : string) (maxRequests windowMs : Z) (times : list Z)
    (rateLimitMap : RateLimitMap) : list bool * RateLimitMap :=
  match times with
  | [] => ([], rateLimitMap)
  | now :: times' =>
      let '(ok, map') := rateLimit now ip maxRequests windowMs rateLimitMap in
      let '(oks, map'') := rateLimits ip maxRequests windowMs times' map' in
      (ok :: oks, map'')
  end.

(** The request: its method, the header [x-forwarded-for] and
    [req.connection.remoteAddress], [None] when undefined. *)
Record Request : Type := {
  method : string;
  forwardedFor : option string;
  remoteAddress : option string
}.

(** [a || b] on strings that may be undefined: the first that is neither
    undefined nor empty. *)
Definition or_else (a : option string) (b : string) : string :=
  match a with
  | Some (String c s) => String c s
  | _ => b
  end.

(** [req.headers['x-forwarded-for'] || req.connection.remoteAddress || 'unknown'] *)
Definition clientIP (req : Request) : string :=
  or_else (forwardedFor req) (or_else (remoteAddress req) "unknown").

Section Handler.
(** [A]: the messages of the list ['chat:messages']. *)
Context {A : Type}.

Inductive Body : Type :=
| Ended                                              (* [res.status(200).end()] *)
| Messages (messages : list A) (count : nat)         (* [{messages, count}] *)
| Failure (error : string).                          (* [{error}] *)

Record Response : Type := { status : Z; body : Body }.

(** The state the endpoint works on: its map and the key of the Redis
    server. *)
Record State : Type := {
  rateLimitMap : RateLimitMap;
  redis : Redis.Key (Json A)
}.

(** What a request meets: the clock, whether [redisClient &&
    redisClient.isReady] holds and whether the command is rejected. *)
Record Env : Type := { now : Z; redisReady : bool; fault : bool }.

(** The exported handler. *)
Definition handler (env : Env) (req : Request) (st : State) : Response * State :=
  if String.eqb (method req) "OPTIONS" then ({| status := 200; body := Ended |}, st)
  else
    let '(ok, map') := rateLimit (now env) (clientIP req) 30 60000 (rateLimitMap st) in
    let st := {| rateLimitMap := map'; redis := redis st |} in
    if negb ok then
      ({| status := 429; body := Failure "Rate limit exceeded" |}, st)
    else if String.eqb (method req) "GET" then
      if redisReady env then
        match Redis.command (fault env) (Redis.lRange (now env) 0 49) (redis st) with
        | (Ok msgs, k) =>
            let messages := reverse (map JSON_parse msgs) in
            ({| status := 200; body := Messages messages (length messages) |},
             {| rateLimitMap := map'; redis := k |})
        | (Throw _, k) =>
            ({| status := 500; body := Failure "Internal server error" |},
             {| rateLimitMap := map'; redis := k |})
        end
      else ({| status := 200; body := Messages [] 0 |}, st)
    else ({| status := 405; body := Failure "Method not allowed" |}, st).

(** The requests of [reqs] handled in order. *)
Fixpoint serve (reqs : list (Env * Request)) (st : State) : list Response * State :=
  match reqs with
  | [] => ([], st)
  | (env, req) :: reqs' =>
      let '(r, st') := handler env req st in
      let '(rs, st'') := serve reqs' st' in
      (r :: rs, st'')
  end.

End Handler.
Arguments Body : clear implicits.
Arguments Response : clear implicits.
Arguments State : clear implicits.

(** A request of the address [ip] that is no preflight: one the limiter
    counts. *)
Definition counted (ip : string) (er : Env * Request) : bool :=
  String.eqb (clientIP er.2) ip && negb (String.eqb (method er.2) "OPTIONS").

(** A [GET] of the address [ip] at the time [t], the shared store up. *)
Definition get_at (ip : string) (t : Z) : Env * Request :=
  ({| now := t; redisReady := true; fault := false |},
   {| method := "GET"; forwardedFor := Some ip; remoteAddress := None |}).

(** The endpoint before its first request, over the key [k]. *)
Definition fresh {A} (k : Redis.Key (Json A)) : State A :=
  {| rateLimitMap := ∅; redis := k |}.

End MessagesApi.

(* ===================================================================== *)
(** ** The relay: life cycle of the registry and the health endpoint *)
(* ===================================================================== *)

Module Relay.
Import Js ChatServer.

(** The transport an input is about. *)
Definition transport (i : Input) : Ws :=
  match i with
  | Connection ws | MessageEvent ws _ | CloseEvent ws | ErrorEvent ws => ws
  end.

(** What the connection events alone make of the keys of a [Map]:
    [set] appends a new key, [delete] removes it. *)
Definition lifecycle (keys : list Ws) (i : Input) : list Ws :=
  match i with
  | Connection ws => if bool_decide (ws ∈ keys) then keys else keys ++ [ws]
  | CloseEvent ws | ErrorEvent ws => List.filter (fun w => negb (Nat.eqb w ws)) keys
  | MessageEvent _ _ => keys
  end.

(** The answers of the exported handler of the relay; [uptime] is read
    from the process and left out. *)
Inductive Answer : Type :=
| Upgraded                                   (* handed to [handleUpgrade] *)
| Health (status : string) (activeConnections : nat)
| MethodNotAllowed.

(** The exported handler, for a request that is no upgrade when
    [upgrade] is not ['websocket']. *)
Definition endpoint (method : string) (upgrade : option string) (s : Server) : Answer :=
  if String.eqb method "GET" then
    match upgrade with
    | Some u => if String.eqb u "websocket" then Upgraded
                else Health "ok" (length (clients s))
    | None => Health "ok" (length (clients s))
    end
  else MethodNotAllowed.

(** The bounds [handleMessage] puts on the content it stores. *)
Definition content_ok (m : ChatMessage) : bool :=
  (1 <=? length (msg_content m))%nat && (length (msg_content m) <=? 1000)%nat.

(** The frame is an ['init'] or a ['pong']. *)
Definition is_private (f : Frame) : bool :=
  match JSON_parse f with
  | Init _ _ _ | Pong => true
  | _ => false
  end.

(** The bounds that hold of whatever the relay has stored, in the array
    and in the list of the shared store. *)
Definition stored_ok (s : Server) : Prop :=
  (length (messages s) <= 100)%nat ∧
  Forall (fun m => content_ok m = true) (messages s) ∧
  Forall (fun j => content_ok (JSON_parse j) = true) (Redis.items (redis s)).

End Relay.

(* ===================================================================== *)
(** ** The client: hooks/useWebSocket.js *)
(* ===================================================================== *)

Module Client.
Import Js ChatServer.

(** The state of the hook that the handlers below read and write. *)
Record Hook : Type := mkHook {
  messages : list ChatMessage;
  userCount : nat;
  userId : string;
  userColor : string;
  error : option string;
  reconnectAttempts : nat;
  delays : list Z                     (* the timeouts scheduled, oldest first *)
}.

(** The values of [useState] and [useRef] at the first render. *)
Definition useWebSocket : Hook :=
  {| messages := []; userCount := 0; userId := EmptyString; userColor := "#FF6B6B";
     error := None; reconnectAttempts := 0; delays := [] |}.

(** [handleWebSocketMessage(data)] on the frames of the relay: their
    [messages] is an array and their [message] an object. *)
Definition handleWebSocketMessage (data : Event) (h : Hook) : Hook :=
  match data with
  | Init uid col msgs =>
      mkHook msgs (userCount h) uid col (error h) (reconnectAttempts h) (delays h)
  | NewMessage m =>
      mkHook (messages h ++ [m]) (userCount h) (userId h) (userColor h) (error h)
             (reconnectAttempts h) (delays h)
  | UserCount count =>
      mkHook (messages h) (if Nat.eqb count 0 then 0 else count) (userId h) (userColor h)
             (error h) (reconnectAttempts h) (delays h)
  | Pong => h
  end.

(** [ws.onmessage] *)
Definition onmessage (frame : Frame) (h : Hook) : Hook :=
  handleWebSocketMessage (JSON_parse frame) h.

(** The frames of [frames] received in order. *)
Definition receive (frames : list Frame) (h : Hook) : Hook :=
  foldl (fun h frame => onmessage frame h) h frames.

(** [sendMessage(content, encrypted)]: what is handed to [send], if
    anything; [ready] is [wsRef.current && wsRef.current.readyState ===
    WebSocket.OPEN]. The result of the source is [true] exactly when
    something is sent. *)
Definition sendMessage (ready : bool) (content : jsstring) (encrypted : JsValue)
  : option Message :=
  if ready && truthy (JString (trim content)) then
    Some {| type := JString (units "message");
            content := JString (trim content);
            encrypted := encrypted |}
  else None.

Definition maxReconnectAttempts : nat := 5.

(** [scheduleReconnect()] *)
Definition scheduleReconnect (h : Hook) : Hook :=
  if (maxReconnectAttempts <=? reconnectAttempts h)%nat then
    mkHook (messages h) (userCount h) (userId h) (userColor h)
           (Some "Max reconnection attempts reached"%string) (reconnectAttempts h) (delays h)
  else
    let delay := Z.min (1000 * 2 ^ Z.of_nat (reconnectAttempts h)) 30000 in
    mkHook (messages h) (userCount h) (userId h) (userColor h) (error h)
           (S (reconnectAttempts h)) (delays h ++ [delay]).

(** What happens to the socket: [ws.onopen], [ws.onclose] with its code,
    and a [new WebSocket(url)] that throws in [connect]; as far as the
    reconnection goes. *)
Inductive SocketEvent : Type :=
| Open
| Close (code : Z)
| ConnectFailed.

Definition socket (h : Hook) (e : SocketEvent) : Hook :=
  match e with
  | Open =>
      mkHook (messages h) (userCount h) (userId h) (userColor h) None 0 (delays h)
  | Close code =>
      if negb (code =? 1000)%Z && (reconnectAttempts h <? maxReconnectAttempts)%nat
      then scheduleReconnect h else h
  | ConnectFailed =>
      scheduleReconnect
        (mkHook (messages h) (userCount h) (userId h) (userColor h)
                (Some "Failed to establish connection"%string) (reconnectAttempts h) (delays h))
  end.

(** The frames handed to [send] of the transport [ws] since the state
    [s0]. *)
Definition inbox (ws : Ws) (s0 s : Server) : list Frame :=
  drop (length (outbox ws s0)) (outbox ws s).

(** An input of the relay that leaves the client on [ws] connected. *)
Definition stays (ws : Ws) (i : Env * Input) : bool :=
  match snd i with
  | CloseEvent ws' | ErrorEvent ws' => negb (Nat.eqb ws' ws)
  | _ => true
  end.

(** The conditions of an input let the relay store in its array and find
    the transport [ws] open. *)
Definition plain (ws : Ws) (i : Env * Input) : bool :=
  in_process (fst i) && bool_decide (readyState (fst i) ws = OPEN).

Definition no_error (i : Env * Input) : bool :=
  match snd i with ErrorEvent _ => false | _ => true end.

(** The string is empty or begins with a code unit that [trim] keeps. *)
Definition starts_clean (s : jsstring) : bool :=
  match s with [] => true | c :: _ => negb (isWhiteSpace c) end.

(** What holds of the reconnection state: at most five attempts, and
    every delay one of the five below the cap. *)
Definition backoff_ok (h : Hook) : Prop :=
  (reconnectAttempts h <= 5)%nat ∧
  Forall (fun d => d ∈ [1000; 2000; 4000; 8000; 16000]%Z) (delays h).

End Client.

(* ===================================================================== *)
(** ** class RedisManager: sessions, connection count, fixed-window limiter *)
(* ===================================================================== *)

(** The string keys of the Redis server: each holds a value and may have
    a time to live; GET, SETEX, INCR, DECR and EXPIRE at time [now]. A key
    whose time has run out is absent for every command. *)
Module Kv.

Record Cell (V : Type) : Type := mkCell {
  value : V;
  expireAt : option Z
}.
Arguments mkCell {V}.
Arguments value {V}.
Arguments expireAt {V}.

Abbreviation Db V := (gmap string (Cell V)).

Definition live {V} (now : Z) (db : Db V) (key : string) : option (Cell V) :=
  match db !! key with
  | Some c =>
      match expireAt c with
      | Some t => if t <=? now then None else Some c
      | None => Some c
      end
  | None => None
  end.

Definition get {V} (now : Z) (key : string) : M (Db V) Redis.Error (option V) :=
  fun db => (Ok (value <$> live now db key), db).

(** SETEX rejects a time to live that is not positive. *)
Definition setEx {V} (now : Z) (key : string) (seconds : Z) (v : V)
  : M (Db V) Redis.Error unit :=
  fun db =>
    if seconds <=? 0 then (Throw Redis.CommandFailed, db)
    else (Ok tt, <[key := mkCell v (Some (now + seconds * 1000))]> db).

(** INCR and DECR: an absent key counts from 0 and gets no time to live;
    the time to live of a present key is kept. *)
Definition incrBy (now : Z) (key : string) (d : Z) : M (Db Z) Redis.Error Z :=
  fun db =>
    match live now db key with
    | Some c => (Ok (value c + d), <[key := mkCell (value c + d) (expireAt c)]> db)
    | None => (Ok d, <[key := mkCell d None]> db)
    end.

Definition incr (now : Z) (key : string) : M (Db Z) Redis.Error Z := incrBy now key 1.
Definition decr (now : Z) (key : string) : M (Db Z) Redis.Error Z := incrBy now key (-1).

(** EXPIRE: a time to live that is not positive deletes the key. *)
Definition expire {V} (now : Z) (key : string) (seconds : Z) : M (Db V) Redis.Error bool :=
  fun db =>
    match live now db key with
    | None => (Ok false, db)
    | Some c =>
        if seconds <=? 0 then (Ok true, delete key db)
        else (Ok true, <[key := mkCell (value c) (Some (now + seconds * 1000))]> db)
    end.

(** A command sent to the server: rejected without effect when [fails]. *)
Definition command {W B} (fails : bool) (c : M W Redis.Error B) : M W Redis.Error B :=
  fun w => if fails then (Throw Redis.CommandFailed, w) else c w.

End Kv.

Module ManagerOps.

Local Open Scope js_scope.

Section Operations.
(** [now] is the time of the call, [ready] the value of [this.isReady()],
    [fault n] whether the [n]-th command of the call is rejected. *)
Variables (now : Z) (ready : bool) (fault : nat -> bool).

Section Sessions.
Context {A : Type}.

(** [saveUserSession(userId, sessionData)] *)
Definition saveUserSession (userId : string) (sessionData : A)
  : M (Kv.Db (Json A)) Redis.Error bool :=
  if negb ready then ret false
  else
    try_catch
      (let key := "user:" +:+ userId in
       let sessionStr := JSON_stringify sessionData in
       Kv.command (fault 0%nat) (Kv.setEx now key 3600 sessionStr) ;;;
       ret true)
      (fun _error => ret false).

(** [getUserSession(userId)]; [None] is [null]. A stored session is a
    JSON text, never the empty string. *)
Definition getUserSession (userId : string)
  : M (Kv.Db (Json A)) Redis.Error (option A) :=
  if negb ready then ret None
  else
    try_catch
      (sessionStr <~ Kv.command (fault 0%nat) (Kv.get now ("user:" +:+ userId)) ;;
       ret (JSON_parse <$> sessionStr))
      (fun _error => ret None).

End Sessions.

(** [incrementConnectionCount()] *)
Definition incrementConnectionCount : M (Kv.Db Z) Redis.Error Z :=
  if negb ready then ret 1
  else
    try_catch
      (count <~ Kv.command (fault 0%nat) (Kv.incr now "connections:count") ;;
       Kv.command (fault 1%nat) (Kv.expire now "connections:count" 300) ;;;
       ret count)
      (fun _error => ret 1).

(** [decrementConnectionCount()] *)
Definition decrementConnectionCount : M (Kv.Db Z) Redis.Error Z :=
  if negb ready then ret 0
  else
    try_catch
      (count <~ Kv.command (fault 0%nat) (Kv.decr now "connections:count") ;;
       ret (Z.max 0 count))
      (fun _error => ret 0).

(** [getConnectionCount()]: [parseInt(count) || 0] is 0 for [null]. *)
Definition getConnectionCount : M (Kv.Db Z) Redis.Error Z :=
  if negb ready then ret 0
  else
    try_catch
      (count <~ Kv.command (fault 0%nat) (Kv.get now "connections:count") ;;
       ret (match count with
            | Some n => if n =? 0 then 0 else n
            | None => 0
            end))
      (fun _error => ret 0).

(** [checkRateLimit(identifier, maxRequests = 30, windowSeconds = 60)];
    the value read is the decimal text of an integer, so it is truthy. *)
Definition checkRateLimit (identifier : string) (maxRequests windowSeconds : Z)
  : M (Kv.Db Z) Redis.Error bool :=
  if negb ready then ret true
  else
    try_catch
      (let key := "ratelimit:" +:+ identifier in
       current <~ Kv.command (fault 0%nat) (Kv.get now key) ;;
       match current with
       | None =>
           Kv.command (fault 1%nat) (Kv.setEx now key windowSeconds 1) ;;;
           ret true
       | Some count =>
           if maxRequests <=? count then ret false
           else
             Kv.command (fault 1%nat) (Kv.incr now key) ;;;
             ret true
       end)
      (fun _error => ret true).

End Operations.

Definition no_fault : nat -> bool := fun _ => false.

(** The calls of [checkRateLimit] at the times of [times], in order, the
    server answering every command. *)
Fixpoint checkRateLimits (identifier : string) (maxRequests windowSeconds : Z)
    (times : list Z) (db : Kv.Db Z) : list bool * Kv.Db Z :=
  match times with
  | [] => ([], db)
  | now :: times' =>
      match checkRateLimit now true no_fault identifier maxRequests windowSeconds db with
      | (Ok ok, db') =>
          let '(oks, db'') := checkRateLimits identifier maxRequests windowSeconds times' db' in
          (ok :: oks, db'')
      | (Throw _, db') => ([], db')
      end
  end.

(** The call returned: it did not throw. *)
Definition returned {W E B} (r : Result E B * W) : bool :=
  match r with
  | (Ok _, _) => true
  | (Throw _, _) => false
  end.

End ManagerOps.

(* ===================================================================== *)
(** ** class ServerEncryption: message signatures *)
(* ===================================================================== *)

Module Signing.
Import Js.

(** An object: its own enumerable properties in the order of their
    enumeration. *)
Abbreviation Obj := (list (string * JsValue)).

(** [o[key]], [undefined] when there is no such property. *)
Fixpoint prop (key : string) (o : Obj) : JsValue :=
  match o with
  | [] => JUndefined
  | (k, v) :: o' => if String.eqb k key then v else prop key o'
  end.

Definition has (key : string) (o : Obj) : bool :=
  existsb (fun kv => String.eqb (fst kv) key) o.

(** [{...o, [key]: v}]: the property keeps its place if [o] has it, and
    comes last otherwise. *)
Fixpoint spread_with (key : string) (v : JsValue) (o : Obj) : Obj :=
  match o with
  | [] => [(key, v)]
  | (k, v') :: o' =>
      if String.eqb k key then (key, v) :: o' else (k, v') :: spread_with key v o'
  end.

(** [rest] of [const { [key]: _, ...rest } = o] *)
Definition rest_without (key : string) (o : Obj) : Obj :=
  List.filter (fun kv => negb (String.eqb (fst kv) key)) o.

(** [a === v] for a string [a]. *)
Definition strict_eq (a : jsstring) (v : JsValue) : bool :=
  match v with
  | JString b => bool_decide (a = b)
  | _ => false
  end.

Section Sign.
(** [JSON.stringify] on objects, and the hex digest of the HMAC under the
    server key. *)
Variables (stringify : Obj -> string) (hmac : string -> jsstring).

(** [signMessage(message)] *)
Definition signMessage (message : Obj) : Obj :=
  let messageStr := stringify message in
  let signature := hmac messageStr in
  spread_with "serverSignature" (JString signature) message.

(** [verifyMessageSignature(message)] *)
Definition verifyMessageSignature (message : Obj) : bool :=
  if negb (truthy (prop "serverSignature" message)) then true
  else
    let serverSignature := prop "serverSignature" message in
    let messageWithoutSig := rest_without "serverSignature" message in
    let messageStr := stringify messageWithoutSig in
    let expectedSignature := hmac messageStr in
    strict_eq expectedSignature serverSignature.

End Sign.

(** Stand-ins for the two functions in examples: the number of
    properties, and a digest that is never empty. *)
Definition count_props (o : Obj) : string := pretty (length o).
Definition tagged (s : string) : jsstring := units ("#" +:+ s).

(** The five errors of [validateMessage]. *)
Definition validation_errors : list string :=
  ["Invalid message format"; "Message content is required";
   "Message content length invalid"; "Message type is required";
   "Message content is empty after sanitization"]%string.

End Signing.

(* ===================================================================== *)
(** ** A Redis server of sorted sets, for the limiter *)
(* ===================================================================== *)

(** The sorted-set keys of the Redis server as the limiter uses them:
    ZREMRANGEBYSCORE, ZCARD, TTL, ZADD and EXPIRE at the time [now]. The
    members are kept in the order they were added, which no command of
    the limiter observes; a set that becomes empty is no longer a key,
    and a key whose time has run out is absent for every command. *)
Module ZServer.
Import RateLimit.

Record ZKey : Type := mkZKey {
  members : list (Z * string);         (* score, member *)
  expireAt : option Z
}.

Abbreviation ZDb := (gmap string ZKey).

Definition live (now : Z) (db : ZDb) (key : string) : option ZKey :=
  match db !! key with
  | Some k =>
      match expireAt k with
      | Some t => if t <=? now then None else Some k
      | None => Some k
      end
  | None => None
  end.

Definition put (key : string) (ms : list (Z * string)) (e : option Z) (db : ZDb) : ZDb :=
  match ms with
  | [] => delete key db
  | _ => <[key := mkZKey ms e]> db
  end.

Definition in_range (lo hi : Z) (m : Z * string) : bool :=
  (lo <=? fst m) && (fst m <=? hi).

Definition zserver (now : Z) : RedisClient ZDb Redis.Error :=
  {| zRemRangeByScore := fun key lo hi db =>
       match live now db key with
       | None => (Ok 0, db)
       | Some k =>
           let kept := List.filter (fun m => negb (in_range lo hi m)) (members k) in
           (Ok (Z.of_nat (length (members k) - length kept)), put key kept (expireAt k) db)
       end;
     zCard := fun key db =>
       (Ok (match live now db key with
            | None => 0
            | Some k => Z.of_nat (length (members k))
            end), db);
     ttl := fun key db =>
       (Ok (match live now db key with
            | None => -2
            | Some k =>
                match expireAt k with
                | None => -1
                | Some e => (e - now + 500) / 1000
                end
            end), db);
     zAdd := fun key score member db =>
       match live now db key with
       | None => (Ok 1, <[key := mkZKey [(score, member)] None]> db)
       | Some k =>
           if existsb (fun m => String.eqb (snd m) member) (members k) then
             (Ok 0, <[key := mkZKey
                         (map (fun m => if String.eqb (snd m) member
                                        then (score, member) else m) (members k))
                         (expireAt k)]> db)
           else
             (Ok 1, <[key := mkZKey (members k ++ [(score, member)]) (expireAt k)]> db)
       end;
     expire := fun key seconds db =>
       match live now db key with
       | None => (Ok false, db)
       | Some k =>
           if seconds <=? 0 then (Ok true, delete key db)
           else (Ok true, <[key := mkZKey (members k) (Some (now + seconds * 1000))]> db)
       end |}.

(** The member that [checkRedisLimit] adds under [env]. *)
Definition member (env : Env) : string := pretty (now env) +:+ "-" +:+ random env.

(** No two of the calls add the same member. *)
Fixpoint fresh_members (envs : list Env) : bool :=
  match envs with
  | [] => true
  | env :: envs' =>
      forallb (fun env' => negb (String.eqb (member env) (member env'))) envs'
      && fresh_members envs'
  end.

(** A world whose manager is ready, over the server [db]. *)
Definition ready (db : ZDb) (store : MemoryStore) : World ZDb :=
  {| redisManager := {| hasClient := true; isConnected := true; server := db |};
     inMemoryStore := store |}.

(** The calls of [checkLimit] under the conditions of [envs], in order,
    each answered by the server at the time of the call. *)
Fixpoint redisChecks (identifier : string) (options : Options) (envs : list Env)
    (w : World ZDb) : list LimitResult * World ZDb :=
  match envs with
  | [] => ([], w)
  | env :: envs' =>
      match checkLimit (zserver (now env)) env identifier options w with
      | (Ok r, w') =>
          let '(rs, w'') := redisChecks identifier options envs' w' in
          (r :: rs, w'')
      | (Throw _, w') => ([], w')
      end
  end.

(** What a caller acts on. *)
Definition decision (r : LimitResult) : bool * Z * Z :=
  (allowed r, remaining r, totalHits r).

(** At the time [t] the server holds for [key] the scores [rec] (the
    record of the in-process backend), under members taken from [used],
    with a time to live that lasts at least one window after each of
    them. *)
Definition mirrors (w : Z) (key : string) (used : list string) (db : ZDb) (rec : list Z)
    (t : Z) : Prop :=
  Forall (fun x => 0 <= x <= t) rec ∧
  match live t db key with
  | None => rec = []
  | Some k =>
      map fst (members k) = rec ∧ rec ≠ [] ∧
      Forall (fun n => n ∈ used) (map snd (members k)) ∧
      ∃ e, expireAt k = Some e ∧ Forall (fun x => x + w <= e) rec
  end.

End ZServer.

(* ===================================================================== *)
(** * Properties *)
(* ===================================================================== *)

(** ** The rate limiter *)

Module RateLimitProofs.
Import RateLimit.

Lemma checkMemoryLimit_lookup now id m w (st : gmap string (list Z)) :
  snd (checkMemoryLimit now id m w st) !! id =
  Some (let v := filter (λ t, now - w < t) (default [] (st !! id)) in
        if bool_decide (m <= Z.of_nat (length v)) then v else v ++ [now]).
Proof.
  unfold checkMemoryLimit.
  destruct (st !! id) as [l|] eqn:Hl; cbn [default from_option Datatypes.id].
  - rewrite Hl. cbn [default from_option Datatypes.id]. case_bool_decide; cbn [snd].
    + by rewrite lookup_insert_eq.
    + by rewrite lookup_insert_eq.
  - rewrite lookup_insert_eq. cbn [default from_option Datatypes.id]. rewrite filter_nil.
    case_bool_decide; cbn [snd]; by rewrite lookup_insert_eq.
Qed.

Lemma checkMemoryLimit_lookup_ne now id id' m w (st : gmap string (list Z)) :
  id' ≠ id →
  default [] (snd (checkMemoryLimit now id' m w st) !! id) = default [] (st !! id).
Proof.
  intros Hne. unfold checkMemoryLimit.
  destruct (st !! id') as [l|] eqn:Hl; case_bool_decide; cbn [snd];
    rewrite ?lookup_insert_ne by done; done.
Qed.

Lemma checkMemoryLimit_result now id m w (st : gmap string (list Z)) :
  let v := filter (λ t, now - w < t) (default [] (st !! id)) in
  let r := fst (checkMemoryLimit now id m w st) in
  allowed r = negb (bool_decide (m <= Z.of_nat (length v))) ∧
  (allowed r = false → remaining r = 0) ∧
  (allowed r = true → remaining r = m - Z.of_nat (length v) - 1).
Proof.
  unfold checkMemoryLimit.
  destruct (st !! id) as [l|] eqn:Hl; cbn [default from_option Datatypes.id].
  - rewrite Hl. cbn [default from_option Datatypes.id]. case_bool_decide; cbn; repeat split; try done.
    intros _. rewrite length_app. cbn. lia.
  - rewrite lookup_insert_eq. cbn [default from_option Datatypes.id]. rewrite filter_nil.
    case_bool_decide; cbn; repeat split; try done; intros; lia.
Qed.

Lemma filter_keeps_all (P : Z → Prop) `{∀ x, Decision (P x)} (l : list Z) :
  (∀ x, x ∈ l → P x) → filter P l = l.
Proof.
  induction l as [|a l IH]; intros Hall; [done|].
  rewrite filter_cons_True by (apply Hall; left).
  f_equal. apply IH. intros x Hx. apply Hall. by right.
Qed.

(** The k-th call of a run within one window is admitted exactly while
    fewer than [m] timestamps are stored. *)
Lemma checks_within_window ident m w : ∀ times (st : gmap string (list Z)) pre,
  default [] (st !! ident) = pre →
  (∀ p t, p ∈ pre → t ∈ times → t - p < w) →
  within_window w times = true →
  let results := fst (checks ident m w times st) in
  length results = length times ∧
  ∀ k r, results !! k = Some r →
    allowed r = bool_decide (Z.of_nat (length pre + k) < m) ∧
    (allowed r = false → remaining r = 0).
Proof.
  induction times as [|now times IH]; intros st pre Hpre Hold Hwin; [by split|].
  cbn [checks]. cbn [within_window] in Hwin.
  apply andb_prop in Hwin as [Hnow Hwin].
  rewrite forallb_forall in Hnow.
  pose proof (checkMemoryLimit_lookup now ident m w st) as Hst.
  pose proof (checkMemoryLimit_result now ident m w st) as Hr.
  destruct (checkMemoryLimit now ident m w st) as [r st'] eqn:Hc.
  cbn [fst snd] in Hst, Hr. rewrite Hpre in Hst, Hr.
  rewrite (filter_keeps_all _ pre) in Hst, Hr
    by (intros p Hp; specialize (Hold p now Hp ltac:(left)); lia).
  cbn zeta in Hst, Hr.
  set (pre' := if bool_decide (m ≤ Z.of_nat (length pre)) then pre else pre ++ [now]) in *.
  specialize (IH st' pre').
  destruct (checks ident m w times st') as [rs st''] eqn:Hcs. cbn [fst] in *.
  destruct IH as [IHlen IH].
  - by rewrite Hst.
  - intros p t Hp Ht. subst pre'. case_bool_decide.
    + apply Hold; [done | by right].
    + apply elem_of_app in Hp as [Hp | Hp].
      * apply Hold; [done | by right].
      * apply list_elem_of_singleton in Hp as ->.
        apply list_elem_of_In, Hnow in Ht. lia.
  - done.
  - split; [cbn; by rewrite IHlen|].
    intros [|k] r0 Hk.
    + cbn in Hk. injection Hk as <-. destruct Hr as (Ha & Hrej & _).
      split; [|done]. rewrite Ha. rewrite Nat.add_0_r.
      repeat case_bool_decide; try done; lia.
    + cbn in Hk. destruct (IH k r0 Hk) as [Ha Hrej]. split; [|done].
      rewrite Ha. subst pre'. repeat case_bool_decide; try done;
        rewrite ?length_app in *; cbn in *; lia.
Qed.


Lemma decision_depends_on_record now identifier m w (st1 st2 : gmap string (list Z)) :
  filter (λ t, now - w < t) (default [] (st1 !! identifier)) =
  filter (λ t, now - w < t) (default [] (st2 !! identifier)) →
  fst (checkMemoryLimit now identifier m w st1) = fst (checkMemoryLimit now identifier m w st2) ∧
  snd (checkMemoryLimit now identifier m w st1) !! identifier =
  snd (checkMemoryLimit now identifier m w st2) !! identifier.
Proof.
  intros Heq. split; [|by rewrite !checkMemoryLimit_lookup, Heq].
  unfold checkMemoryLimit.
  assert (∀ st : gmap string (list Z),
    default [] (match st !! identifier with Some _ => st | None => <[identifier:=[]]> st end
                !! identifier) = default [] (st !! identifier)) as Hd.
  { intros st. destruct (st !! identifier) eqn:H; [by rewrite H|].
    by rewrite lookup_insert_eq. }
  rewrite !Hd, Heq. by case_bool_decide.
Qed.

Lemma filter_filter_later (a b : Z) (l : list Z) :
  a <= b → filter (λ t, b < t) (filter (λ t, a < t) l) = filter (λ t, b < t) l.
Proof.
  intros Hab. induction l as [|x l IH]; [done|].
  destruct (decide (a < x)) as [Hx|Hx].
  - rewrite (filter_cons_True (λ t, a < t)) by done.
    destruct (decide (b < x)).
    + rewrite !(filter_cons_True (λ t, b < t)) by done. by rewrite IH.
    + rewrite !(filter_cons_False (λ t, b < t)) by done. done.
  - rewrite (filter_cons_False (λ t, a < t)) by done.
    rewrite (filter_cons_False (λ t, b < t)) by lia. done.
Qed.

Lemma cleanup_lookup identifier now (store : gmap string (list Z)) :
  default [] (cleanup now store !! identifier) =
  filter (λ t, now - 5 * 60 * 1000 < t) (default [] (store !! identifier)).
Proof.
  unfold cleanup. rewrite lookup_omap.
  destruct (store !! identifier) as [l|]; cbn; [|done].
  by destruct (filter _ l).
Qed.

Lemma checks_step id m w now times (st : gmap string (list Z)) :
  fst (checks id m w (now :: times) st) =
  fst (checkMemoryLimit now id m w st)
    :: fst (checks id m w times (snd (checkMemoryLimit now id m w st))).
Proof.
  cbn [checks]. destruct (checkMemoryLimit now id m w st) as [r st']. cbn [fst snd].
  by destruct (checks id m w times st').
Qed.

Lemma nondecreasing_tail t times : nondecreasing (t :: times) = true → nondecreasing times = true.
Proof. cbn [nondecreasing]. by intros [_ ?]%andb_prop. Qed.

Lemma nondecreasing_skip t t' times :
  nondecreasing (t :: t' :: times) = true → nondecreasing (t :: times) = true.
Proof.
  cbn [nondecreasing forallb]. intros [[_ H1]%andb_prop [_ H2]%andb_prop]%andb_prop.
  by rewrite H1, H2.
Qed.

Lemma nondecreasing_head t t' times : nondecreasing (t :: t' :: times) = true → t <= t'.
Proof. cbn [nondecreasing forallb]. intros [[H _]%andb_prop _]%andb_prop. lia. Qed.

(** Along a history without runs of the timer, the checks of an
    identifier are decided as if they were the only events. *)
Lemma decisions_without_timer id m w : ∀ ops (store store' : gmap string (list Z)),
  default [] (store !! id) = default [] (store' !! id) →
  forallb (same_policy id m w) ops = true →
  forallb (fun o => negb (is_cleanup o)) ops = true →
  decisions id ops store = fst (checks id m w (check_times id ops) store').
Proof.
  induction ops as [|[now [id' m' w'|]] ops IH]; intros store store' Heq Hpol Hnone;
    [done| |done].
  cbn [forallb] in Hpol, Hnone. apply andb_prop in Hpol as [Hp Hpol].
  apply andb_prop in Hnone as [_ Hnone].
  cbn [decisions]. unfold check_times. cbn [List.filter is_check_of snd].
  destruct (checkMemoryLimit now id' m' w' store) as [r store1] eqn:Hc.
  case_bool_decide as Hid.
  - subst id'. unfold same_policy in Hp. cbn [snd] in Hp.
    rewrite bool_decide_eq_true_2 in Hp by done. cbn [implb] in Hp.
    apply andb_prop in Hp as [->%Z.eqb_eq ->%Z.eqb_eq].
    cbn [map fst]. rewrite checks_step.
    destruct (decision_depends_on_record now id m w store store') as [Hr Hl];
      [by rewrite Heq|].
    rewrite Hc in Hr, Hl. cbn [fst snd] in Hr, Hl. rewrite <-Hr. f_equal.
    apply (IH store1); [by rewrite Hl|done|done].
  - apply (IH store1 store'); [|done|done].
    replace store1 with (snd (checkMemoryLimit now id' m' w' store)) by by rewrite Hc.
    by rewrite checkMemoryLimit_lookup_ne.
Qed.

(** The same with runs of the timer, for a window of at most five
    minutes on a clock that does not go back. *)
Lemma decisions_as_checks id m w : ∀ ops (store store' : gmap string (list Z)) T,
  w <= 5 * 60 * 1000 →
  (∀ now, T <= now →
     filter (λ t, now - w < t) (default [] (store !! id)) =
     filter (λ t, now - w < t) (default [] (store' !! id))) →
  nondecreasing (T :: map fst ops) = true →
  forallb (same_policy id m w) ops = true →
  decisions id ops store = fst (checks id m w (check_times id ops) store').
Proof.
  intros ops store store' T Hw. revert store store' T.
  induction ops as [|[now [id' m' w'|]] ops IH]; intros store store' T Heq Hmono Hpol;
    [done| |].
  - cbn [map fst] in Hmono. cbn [forallb] in Hpol. apply andb_prop in Hpol as [Hp Hpol].
    pose proof (nondecreasing_head _ _ _ Hmono) as HT.
    cbn [decisions]. unfold check_times. cbn [List.filter is_check_of snd].
    destruct (checkMemoryLimit now id' m' w' store) as [r store1] eqn:Hc.
    case_bool_decide as Hid.
    + subst id'. unfold same_policy in Hp. cbn [snd] in Hp.
      rewrite bool_decide_eq_true_2 in Hp by done. cbn [implb] in Hp.
      apply andb_prop in Hp as [->%Z.eqb_eq ->%Z.eqb_eq].
      cbn [map fst]. rewrite checks_step.
      destruct (decision_depends_on_record now id m w store store' (Heq now HT)) as [Hr Hl].
      rewrite Hc in Hr, Hl. cbn [fst snd] in Hr, Hl. rewrite <-Hr. f_equal.
      apply (IH store1 _ now); [|by eapply nondecreasing_tail|done].
      intros now' _. by rewrite Hl.
    + apply (IH store1 store' T); [|by eapply nondecreasing_skip|done].
      intros now' Hnow'.
      replace store1 with (snd (checkMemoryLimit now id' m' w' store)) by by rewrite Hc.
      rewrite checkMemoryLimit_lookup_ne by done. by apply Heq.
  - cbn [map fst] in Hmono. cbn [forallb] in Hpol. apply andb_prop in Hpol as [_ Hpol].
    pose proof (nondecreasing_head _ _ _ Hmono) as HT.
    cbn [decisions]. unfold check_times. cbn [List.filter is_check_of snd].
    apply (IH (cleanup now store) store' now); [|by eapply nondecreasing_tail|done].
    intros now' Hnow'. rewrite cleanup_lookup, filter_filter_later by lia.
    apply Heq. lia.
Qed.

(** Against C3 as stated: under 2 requests per 600000 ms, two checks at 0
    and 1000, a run of the cleanup timer at 301001, and a third check at
    302000, which is within one window of the first and is admitted. *)
Lemma cleanup_lets_a_third_call_in :
  let ops := [(0, Check "a" 2 600000); (1000, Check "a" 2 600000);
              (301001, Cleanup); (302000, Check "a" 2 600000)] in
  check_times "a" ops = [0; 1000; 302000] ∧
  within_window 600000 (check_times "a" ops) = true ∧
  allowed <$> decisions "a" ops ∅ = [true; true; true].
Proof. vm_compute. repeat split. Qed.

(** C3 (as amended).  For a fresh identifier and a policy [m], [w], along
    any history of checks and runs of the cleanup timer: if the timer
    does not run, or the window is at most the five minutes that the
    timer keeps and the clock does not go back, then of [m + 1] checks of
    the identifier made within one window the first [m] are admitted and
    the last one is rejected, [allowed = false] with [remaining = 0].
    (At [m = 20], [w = 60000] and the identifier ["a"] this is the
    scenario of the 21 calls, proved below from this statement.) *)
Theorem limiter_admits_first_m_within_window (identifier : string) (m : nat) (w : Z)
    (ops : list (Z * Op)) (store : gmap string (list Z)) :
  store !! identifier = None →
  forallb (same_policy identifier (Z.of_nat m) w) ops = true →
  timer_is_harmless w ops = true →
  length (check_times identifier ops) = S m →
  within_window w (check_times identifier ops) = true →
  let results := decisions identifier ops store in
  (∀ k, (k < m)%nat → ∃ r, results !! k = Some r ∧ allowed r = true) ∧
  (∃ r, results !! m = Some r ∧ allowed r = false ∧ remaining r = 0).
Proof.
  intros Hfresh Hpol Hharm Hlen Hwin results.
  assert (results = fst (checks identifier (Z.of_nat m) w (check_times identifier ops) store))
    as Hresults.
  { unfold timer_is_harmless in Hharm. apply orb_prop in Hharm as [Hnone|Htimer].
    - by apply decisions_without_timer.
    - apply andb_prop in Htimer as [Hw%Z.leb_le Hmono].
      destruct ops as [|[t0 o0] ops']; [done|].
      apply (decisions_as_checks identifier (Z.of_nat m) w _ store store t0); try done.
      cbn [map fst nondecreasing forallb] in Hmono |- *.
      apply andb_prop in Hmono as [H1 H2]. by rewrite Z.leb_refl, H1, H2. }
  destruct (checks_within_window identifier (Z.of_nat m) w (check_times identifier ops) store [])
    as [Hl Hres].
  - by rewrite Hfresh.
  - intros p t Hp. by apply elem_of_nil in Hp.
  - done.
  - rewrite <-Hresults in Hl, Hres. split.
    + intros k Hk. destruct (lookup_lt_is_Some_2 results k) as [r Hr]; [lia|].
      exists r. split; [done|]. destruct (Hres k r Hr) as [-> _].
      apply bool_decide_eq_true. cbn. lia.
    + destruct (lookup_lt_is_Some_2 results m) as [r Hr]; [lia|].
      exists r. split; [done|]. destruct (Hres m r Hr) as [Ha Hrem].
      assert (allowed r = false) as Hf.
      { rewrite Ha. apply bool_decide_eq_false. cbn. lia. }
      auto.
Qed.

(** The scenario of C3: 21 calls for ["a"], one second apart, under 20
    requests per 60000 ms. *)
Lemma limiter_scenario_20_per_minute :
  let results := decisions "a" calls21 ∅ in
  (∀ k, (k < 20)%nat → ∃ r, results !! k = Some r ∧ allowed r = true) ∧
  (∃ r, results !! 20%nat = Some r ∧ allowed r = false ∧ remaining r = 0).
Proof.
  apply (limiter_admits_first_m_within_window "a" 20 60000 calls21 ∅);
    by vm_compute.
Defined.

Section Record_invariant.
Variables (identifier : string) (m w : Z).

Lemma apply_record_ok bound store o :
  record_ok identifier m bound store → bound <= fst o → same_policy identifier m w o = true →
  record_ok identifier m (fst o) (apply store o).
Proof.
  intros [Hlen Hle] Hb Hpol. destruct o as [now [id' m' w'|]]; cbn [fst apply] in *.
  - destruct (decide (id' = identifier)) as [->|Hne].
    + unfold same_policy in Hpol. cbn [snd] in Hpol.
      rewrite bool_decide_eq_true_2 in Hpol by done. cbn [implb] in Hpol.
      apply andb_prop in Hpol as [->%Z.eqb_eq ->%Z.eqb_eq]. unfold record_ok.
      rewrite checkMemoryLimit_lookup. cbn [default from_option Datatypes.id].
      cbn zeta.
      pose proof (length_filter (λ t, now - w < t) (default [] (store !! identifier))).
      case_bool_decide; split.
      * lia.
      * intros t [_ Ht]%list_elem_of_filter. specialize (Hle t Ht). lia.
      * rewrite length_app. cbn. lia.
      * intros t [[_ Ht]%list_elem_of_filter | ->%list_elem_of_singleton]%elem_of_app;
          [specialize (Hle t Ht)|]; lia.
    + unfold record_ok. rewrite checkMemoryLimit_lookup_ne by done.
      split; [done|]. intros t Ht. specialize (Hle t Ht). lia.
  - unfold record_ok. rewrite cleanup_lookup.
    pose proof (length_filter (λ t, now - 5 * 60 * 1000 < t) (default [] (store !! identifier))).
    split; [lia|]. intros t [_ Ht]%list_elem_of_filter. specialize (Hle t Ht). lia.
Qed.

Lemma replay_record_ok : ∀ ops bound store final,
  record_ok identifier m bound store →
  nondecreasing (bound :: map fst ops ++ [final]) = true →
  forallb (same_policy identifier m w) ops = true →
  record_ok identifier m final (replay ops store).
Proof.
  induction ops as [|o ops IH]; intros bound store final Hok Hmono Hpol.
  - cbn in *. destruct Hok as [Hlen Hle]. split; [done|].
    intros t Ht. specialize (Hle t Ht). lia.
  - cbn [replay foldl]. cbn [forallb] in Hpol. apply andb_prop in Hpol as [Ho Hpol].
    cbn [map app nondecreasing forallb] in Hmono.
    apply andb_prop in Hmono as [Hb Hmono].
    apply andb_prop in Hb as [Hb _].
    apply (IH (fst o)); [|done|done].
    apply (apply_record_ok bound); [done | lia | done].
Qed.
End Record_invariant.

(** C10.  The in-process store starts empty and sees checks, for any
    identifiers, and runs of the cleanup timer, on a clock that does not go
    back.  If the checks of [identifier] all use the policy [m], [w]
    ([0 <= m], [0 < w]), then after each of them its record holds at most
    [m] timestamps, each within the [w] milliseconds before the check; and
    a check that answers [allowed = false] leaves as the record what was
    there, less the expired timestamps. *)
Theorem memory_record_invariant (identifier : string) (m w : Z)
    (ops : list (Z * Op)) (now : Z) :
  0 <= m → 0 < w →
  forallb (same_policy identifier m w) ops = true →
  nondecreasing (map fst ops ++ [now]) = true →
  let before := replay ops ∅ in
  let r := fst (checkMemoryLimit now identifier m w before) in
  let after := snd (checkMemoryLimit now identifier m w before) in
  ∃ l, after !! identifier = Some l ∧
       Z.of_nat (length l) <= m ∧
       (∀ t, t ∈ l → now - w < t <= now) ∧
       (allowed r = false →
        l = filter (λ t, now - w < t) (default [] (before !! identifier))).
Proof.
  intros Hm Hw Hpol Hmono before r after.
  assert (record_ok identifier m now before) as [Hlen Hle].
  { destruct ops as [|[t0 o0] ops'].
    - unfold before, record_ok. cbn [replay foldl]. rewrite lookup_empty.
      split; [cbn; lia|]. intros t Ht. by apply elem_of_nil in Ht.
    - apply (replay_record_ok identifier m w ((t0, o0) :: ops') t0 ∅ now); [| |done].
      + unfold record_ok. rewrite lookup_empty.
        split; [cbn; lia|]. intros t Ht. by apply elem_of_nil in Ht.
      + cbn [map fst app nondecreasing forallb] in Hmono |- *.
        apply andb_prop in Hmono as [H1 H2].
        by rewrite Z.leb_refl, H1, H2. }
  pose proof (checkMemoryLimit_lookup now identifier m w before) as Hl.
  pose proof (checkMemoryLimit_result now identifier m w before) as (Ha & _ & _).
  fold after in Hl. fold r in Ha. cbn zeta in Hl, Ha.
  pose proof (length_filter (λ t, now - w < t) (default [] (before !! identifier))).
  eexists. split; [exact Hl|].
  case_bool_decide as Hc; cbn in Ha; (split; [|split]).
  - lia.
  - intros t [Hin Ht]%list_elem_of_filter. specialize (Hle t Ht). lia.
  - done.
  - rewrite length_app. cbn. lia.
  - intros t [[Hin Ht]%list_elem_of_filter | ->%list_elem_of_singleton]%elem_of_app;
      [specialize (Hle t Ht)|]; lia.
  - rewrite Ha. done.
Qed.

(** C10 on a history with another identifier and a run of the cleanup
    timer in between. *)
Lemma record_after_mixed_history :
  let ops := [(0, Check "a" 2 1000); (10, Check "b" 5 50); (20, Check "a" 2 1000);
              (30, Cleanup); (40, Check "a" 2 1000)] in
  let before := replay ops ∅ in
  let r := fst (checkMemoryLimit 50 "a" 2 1000 before) in
  let after := snd (checkMemoryLimit 50 "a" 2 1000 before) in
  ∃ l, after !! "a" = Some l ∧
       Z.of_nat (length l) <= 2 ∧
       (∀ t, t ∈ l → 50 - 1000 < t <= 50) ∧
       (allowed r = false →
        l = filter (λ t, 50 - 1000 < t) (default [] (before !! "a"))).
Proof.
  intros ops. apply (memory_record_invariant "a" 2 1000 ops 50);
    [lia | lia | vm_compute; reflexivity | vm_compute; reflexivity].
Defined.

Lemma checkMemoryLimit_counts now identifier m w (store : gmap string (list Z)) :
  let r := fst (checkMemoryLimit now identifier m w store) in
  0 <= totalHits r ∧ (allowed r = false → remaining r = 0).
Proof.
  unfold checkMemoryLimit.
  set (store1 := match store !! identifier with Some _ => store | None => _ end).
  set (v := filter _ _).
  case_bool_decide as Hc; cbn [fst allowed remaining totalHits]; (split; [lia|done]).
Qed.

Lemma new_Date_valid t : 0 <= t <= maxDate → new_Date t = Some t.
Proof. intros Ht. unfold new_Date. rewrite Z.abs_eq by lia. by destruct (Z.leb_spec t maxDate); [|lia]. Qed.

(** Within the range of [Date], the reset date of a check under a limit
    of at least one is valid. *)
Lemma checkMemoryLimit_resetTime now identifier m w (store : gmap string (list Z)) :
  in_date_range now w (default [] (store !! identifier)) = true → 1 <= m →
  is_Some (resetTime (fst (checkMemoryLimit now identifier m w store))).
Proof.
  unfold in_date_range. intros [[[Hnow Hw]%andb_prop Hmax]%andb_prop Hrec]%andb_prop Hm.
  apply Z.leb_le in Hnow, Hw, Hmax. rewrite forallb_forall in Hrec.
  unfold checkMemoryLimit.
  assert (default [] (match store !! identifier with Some _ => store
                      | None => <[identifier:=[]]> store end !! identifier)
          = default [] (store !! identifier)) as ->.
  { destruct (store !! identifier) eqn:H; [by rewrite H|]. by rewrite lookup_insert_eq. }
  set (v := filter _ _).
  case_bool_decide as Hc; cbn [fst resetTime].
  - destruct v as [|t v'] eqn:Hv; [cbn in Hc; lia|]. cbn [head].
    assert (t ∈ v) as Hin by (rewrite Hv; left).
    apply list_elem_of_filter in Hin as [Hlate Hin].
    apply list_elem_of_In, Hrec, Z.leb_le in Hin.
    rewrite new_Date_valid by lia. by eexists.
  - rewrite new_Date_valid by lia. by eexists.
Qed.

Lemma checkMemoryLimit_well_formed now identifier m w (store : gmap string (list Z)) :
  in_date_range now w (default [] (store !! identifier)) = true →
  well_formed m (fst (checkMemoryLimit now identifier m w store)).
Proof.
  intros Hrange. destruct (checkMemoryLimit_counts now identifier m w store) as [Hhits Hrej].
  split; [done|]. split; [done|]. intros Hm.
  split; [|by apply checkMemoryLimit_resetTime].
  destruct (checkMemoryLimit_result now identifier m w store) as (Ha & _ & Hrem).
  cbn zeta in Ha, Hrem.
  destruct (allowed (fst (checkMemoryLimit now identifier m w store))) eqn:Hal.
  - rewrite Hrem by done. symmetry in Ha. apply negb_true_iff, bool_decide_eq_false in Ha. lia.
  - rewrite Hrej by done. done.
Qed.

Section Fallback.
Context {R E : Type} (client : RedisClient R E).

Lemma redis_store {A} (c : M R E A) (w : World R) :
  inMemoryStore (snd (redis c w)) = inMemoryStore w.
Proof. unfold redis. by destruct (c _). Qed.

Lemma memoryLimit_eq now identifier m wms (w : World R) :
  ∃ w', @memoryLimit R E now identifier m wms w =
          (Ok (fst (checkMemoryLimit now identifier m wms (inMemoryStore w))), w') ∧
        inMemoryStore w' = snd (checkMemoryLimit now identifier m wms (inMemoryStore w)).
Proof. unfold memoryLimit. destruct (checkMemoryLimit _ _ _ _ _). by eexists. Qed.

(** A block that throws has not touched the in-process store. *)
Lemma checkRedisLimit_try_throw env identifier m ws (w w1 : World R) e :
  checkRedisLimit_try client env identifier m ws w = (Throw e, w1) →
  inMemoryStore w1 = inMemoryStore w.
Proof.
  unfold checkRedisLimit_try, bind, get, ret.
  destruct (getClient (redisManager w)); cbn [negb].
  2:{ destruct (memoryLimit_eq (now env) identifier m (ws * 1000) w) as (w' & -> & _). done. }
  pose proof (redis_store (zRemRangeByScore client ("ratelimit:" +:+ identifier) 0
                (now env - ws * 1000)) w) as H1.
  destruct (redis (zRemRangeByScore _ _ _ _) w) as [[a1|e1] wa]; cbn [snd] in H1;
    [|intros [= _ <-]; done].
  pose proof (redis_store (zCard client ("ratelimit:" +:+ identifier)) wa) as H2.
  destruct (redis (zCard _ _) wa) as [[n|e2] wb]; cbn [snd] in H2;
    [|intros [= _ <-]; congruence].
  case_bool_decide.
  - pose proof (redis_store (ttl client ("ratelimit:" +:+ identifier)) wb) as H3.
    destruct (redis (ttl _ _) wb) as [[t|e3] wc]; cbn [snd] in H3;
      [done | intros [= _ <-]; congruence].
  - match goal with |- context [redis ?c wb] =>
      pose proof (redis_store c wb) as H3; destruct (redis c wb) as [[a3|e3] wc] end;
      cbn [snd] in H3; [|intros [= _ <-]; congruence].
    match goal with |- context [redis ?c wc] =>
      pose proof (redis_store c wc) as H4; destruct (redis c wc) as [[a4|e4] wd] end;
      cbn [snd] in H4; [done | intros [= _ <-]; congruence].
Qed.

(** C7 (as amended).  Whatever the Redis client does, [checkLimit] returns
  a decision and never throws.  When the manager is not ready the
  decision is that of the in-process backend; when a command of the
  shared-store path is rejected, the exception is caught and the decision
  is, again, that of the in-process backend (on the window rounded down
  to whole seconds).  In both cases the total of hits is not negative and
  [remaining = 0] on a rejection; and when clock, window and record are
  within the range of [Date], the decision is well formed: for a policy
  of at least one request, [remaining] is not negative and the reset date
  is valid. *)
Theorem checkLimit_falls_back env identifier options (w : World R) :
  let m := default 30 (maxRequests options) in
  let wms := default 60000 (windowMs options) in
  let record := default [] (inMemoryStore w !! identifier) in
  ∃ r w',
    checkLimit client env identifier options w = (Ok r, w') ∧
    (isReady (redisManager w) = false →
       (r, inMemoryStore w') =
         checkMemoryLimit (now env) identifier m wms (inMemoryStore w) ∧
       0 <= totalHits r ∧ (allowed r = false → remaining r = 0) ∧
       (in_date_range (now env) wms record = true → well_formed m r)) ∧
    (∀ e w1, isReady (redisManager w) = true →
       checkRedisLimit_try client env identifier m (wms / 1000) w = (Throw e, w1) →
       (r, inMemoryStore w') =
         checkMemoryLimit (later env) identifier m (wms / 1000 * 1000) (inMemoryStore w) ∧
       0 <= totalHits r ∧ (allowed r = false → remaining r = 0) ∧
       (in_date_range (later env) (wms / 1000 * 1000) record = true → well_formed m r)).
Proof.
  intros m wms record. unfold checkLimit. fold m wms. unfold bind at 1, get at 1.
  destruct (isReady (redisManager w)) eqn:Hready.
  - unfold checkRedisLimit, try_catch.
    destruct (checkRedisLimit_try client env identifier m (wms / 1000) w)
      as [[r|e] w1] eqn:Htry.
    + exists r, w1. split; [done|]. split; [done|]. intros e w2 _ [=].
    + destruct (memoryLimit_eq (later env) identifier m (wms / 1000 * 1000) w1) as (w' & Heq & Hst).
      eexists _, w'. split; [exact Heq|]. split; [done|].
      intros e' w2 _ [= <- <-].
      rewrite Hst, (checkRedisLimit_try_throw _ _ _ _ _ _ _ Htry).
      split; [symmetry; apply surjective_pairing|].
      destruct (checkMemoryLimit_counts (later env) identifier m (wms / 1000 * 1000)
                  (inMemoryStore w)) as [Hhits Hrej].
      split; [done|]. split; [done|]. apply checkMemoryLimit_well_formed.
  - destruct (memoryLimit_eq (now env) identifier m wms w) as (w' & Heq & Hst).
    eexists _, w'. split; [exact Heq|]. split; [|done].
    intros _. rewrite Hst. split; [symmetry; apply surjective_pairing|].
    destruct (checkMemoryLimit_counts (now env) identifier m wms (inMemoryStore w))
      as [Hhits Hrej].
    split; [done|]. split; [done|]. apply checkMemoryLimit_well_formed.
Qed.
End Fallback.

(** Against C7 as stated: with the shared store unreachable, a check under
    a limit of 0 is rejected with an invalid reset date, and an admitted
    check under a window of 8640000000000000 ms has an invalid reset date
    as well; neither decision is well formed in its reset time. *)
Lemma reset_date_can_be_invalid :
  let env := {| now := 5000; random := "0.25"; later := 5003 |} in
  let w := {| redisManager := {| hasClient := true; isConnected := true; server := tt |};
              inMemoryStore := ∅ |} in
  (∃ r w', checkLimit unreachable env "a"
             {| maxRequests := Some 0; windowMs := None |} w = (Ok r, w') ∧
           allowed r = false ∧ ¬ is_Some (resetTime r)) ∧
  (∃ r w', checkLimit unreachable env "a"
             {| maxRequests := Some 2; windowMs := Some 8640000000000000 |} w = (Ok r, w') ∧
           allowed r = true ∧ ¬ is_Some (resetTime r)).
Proof.
  split; eexists _, _; (split; [vm_compute; reflexivity|]); split; try reflexivity;
    by intros [? ?].
Qed.

(** C7 with a manager that reports ready and a server that rejects every
    command: the first check of ["a"] is answered by the in-process
    backend, on the window of 1500 ms rounded down to 1000. *)
Lemma unreachable_store_example :
  let env := {| now := 5000; random := "0.25"; later := 5003 |} in
  let w := {| redisManager := {| hasClient := true; isConnected := true; server := tt |};
              inMemoryStore := ∅ |} in
  let options := {| maxRequests := Some 2; windowMs := Some 1500 |} in
  ∃ r w', checkLimit unreachable env "a" options w = (Ok r, w') ∧
          (r, inMemoryStore w') = checkMemoryLimit 5003 "a" 2 1000 ∅ ∧
          well_formed 2 r.
Proof.
  intros env w options.
  destruct (checkLimit_falls_back unreachable env "a" options w)
    as (r & w' & Hok & _ & Hfall).
  exists r, w'. split; [exact Hok|].
  destruct (Hfall tt w eq_refl eq_refl) as (Heq & _ & _ & Hwf).
  split; [exact Heq|]. exact (Hwf eq_refl).
Defined.

End RateLimitProofs.

(** ** The sanitizer and the validator *)

Module SanitizerProofs.
Import Js Regex ServerEncryption.

(** Whatever [remove_from] returns is the input with code units left out. *)
Lemma remove_from_sublist r : ∀ s prev skip, remove_from r prev skip s `sublist_of` s.
Proof.
  induction s as [|c t IH]; intros prev skip; cbn [remove_from]; [done|].
  destruct skip as [|k]; [|by apply sublist_cons].
  destruct (match_here r prev (c :: t)) as [[|k]|];
    first [by apply sublist_skip | by apply sublist_cons].
Qed.

Lemma remove_all_sublist r s : remove_all r s `sublist_of` s.
Proof. apply remove_from_sublist. Qed.

(** The continuation of [exec] is only ever called on what is left of the
    input: if it fails on every suffix, so does the match. *)
Lemma exec_none : ∀ r p k,
  (∀ q, rest q `suffix_of` rest p → k q = None) → exec r p k = None.
Proof.
  induction r as [|f|r1 IH1 r2 IH2|r1 IH1 r2 IH2|r1 IH1|r1 IH1|];
    intros p k Hk; cbn [exec].
  - by apply Hk.
  - destruct (rest p) as [|c t] eqn:Hp; [done|].
    destruct (f c); [|done]. apply Hk. cbn. by apply suffix_cons_r.
  - apply IH1. intros q Hq. apply IH2. intros q' Hq'. apply Hk. by etrans.
  - rewrite IH1 by done. by apply IH2.
  - generalize (length (rest p)). intros fuel. revert p Hk.
    induction fuel as [|fuel IHf]; intros p Hk; cbn [star_loop]; [by apply Hk|].
    rewrite IH1; [by apply Hk|].
    intros q Hq. destruct (_ <? _)%nat; [|done].
    apply IHf. intros q' Hq'. apply Hk. by etrans.
  - destruct (exec r1 p _); [done|]. by apply Hk.
  - destruct (xorb _ _); [|done]. by apply Hk.
Qed.

Lemma exec_seq_none r1 r2 p k :
  (∀ q, rest q `suffix_of` rest p → exec r2 q k = None) → exec (Seq r1 r2) p k = None.
Proof. intros H. cbn [exec]. by apply exec_none. Qed.

Lemma exec_chr_none f p k :
  (∀ c, head (rest p) = Some c → f c = false) → exec (Chr f) p k = None.
Proof.
  intros H. cbn [exec]. destruct (rest p) as [|c t]; [done|].
  by rewrite (H c).
Qed.

(** A result of [exec] is a result of its continuation, further on. *)
Lemma exec_result : ∀ r p k n,
  exec r p k = Some n → ∃ q, (matched p <= matched q)%nat ∧ k q = Some n.
Proof.
  induction r as [|f|r1 IH1 r2 IH2|r1 IH1 r2 IH2|r1 IH1|r1 IH1|];
    intros p k n; cbn [exec].
  - intros H. by exists p.
  - destruct (rest p) as [|c t]; [done|]. destruct (f c); [|done].
    intros H. eexists. split; [|exact H]. cbn. lia.
  - intros H. apply IH1 in H as (q & Hq & H). apply IH2 in H as (q' & Hq' & H).
    exists q'. split; [lia | done].
  - destruct (exec r1 p k) eqn:H1.
    + intros [= ->]. by apply IH1.
    + by apply IH2.
  - generalize (length (rest p)). intros fuel. revert p.
    induction fuel as [|fuel IHf]; intros p H; cbn [star_loop] in H; [by exists p|].
    destruct (exec r1 p _) eqn:H1.
    + injection H as ->. apply IH1 in H1 as (q & Hq & H1).
      destruct (_ <? _)%nat; [|done].
      apply IHf in H1 as (q' & Hq' & H1). exists q'. split; [lia | done].
    + by exists p.
  - destruct (exec r1 p _); [done|]. intros H. by exists p.
  - destruct (xorb _ _); [|done]. intros H. by exists p.
Qed.

(** Continuations that agree on what is left of the input give the same
    match. *)
Lemma exec_ext : ∀ r p k1 k2,
  (∀ q, rest q `suffix_of` rest p → k1 q = k2 q) → exec r p k1 = exec r p k2.
Proof.
  induction r as [|f|r1 IH1 r2 IH2|r1 IH1 r2 IH2|r1 IH1|r1 IH1|];
    intros p k1 k2 Hk; cbn [exec].
  - by apply Hk.
  - destruct (rest p) as [|c t] eqn:Hp; [done|].
    destruct (f c); [|done]. apply Hk. cbn. by apply suffix_cons_r.
  - apply IH1. intros q Hq. apply IH2. intros q' Hq'. apply Hk. by etrans.
  - rewrite (IH1 p k1 k2) by done. by rewrite (IH2 p k1 k2).
  - generalize (length (rest p)). intros fuel. revert p Hk.
    induction fuel as [|fuel IHf]; intros p Hk; cbn [star_loop]; [by apply Hk|].
    rewrite (Hk p) by done.
    erewrite IH1; [reflexivity|].
    intros q Hq. cbn beta. destruct (_ <? _)%nat; [|done].
    apply IHf. intros q' Hq'. apply Hk. by etrans.
  - destruct (exec r1 p _); [done|]. by apply Hk.
  - destruct (xorb _ _); [|done]. by apply Hk.
Qed.

(** The loop of a repetition does not depend on its fuel, once there is
    as much of it as input left: the bound cuts no match short. *)
Lemma star_loop_fuel r k : ∀ fuel1 fuel2 p,
  (length (rest p) <= fuel1)%nat → (length (rest p) <= fuel2)%nat →
  star_loop (exec r) k fuel1 p = star_loop (exec r) k fuel2 p.
Proof.
  assert (∀ fuel p, length (rest p) = 0%nat → star_loop (exec r) k fuel p = k p) as Hend.
  { intros [|fuel] p Hp; cbn [star_loop]; [done|].
    rewrite exec_none; [done|]. intros q _. rewrite Hp. done. }
  induction fuel1 as [|fuel1 IH]; intros fuel2 p H1 H2.
  - rewrite !Hend by lia. done.
  - destruct fuel2 as [|fuel2]; [rewrite !Hend by lia; done|].
    cbn [star_loop].
    erewrite exec_ext; [reflexivity|].
    intros q Hq. cbn beta.
    destruct (Nat.ltb_spec (length (rest q)) (length (rest p))); [|done].
    apply IH; lia.
Qed.

(** Greedy repetition and the optional item never fail by themselves. *)
Lemma exec_star_some r p k : is_Some (k p) → is_Some (exec (Star r) p k).
Proof.
  intros Hk. cbn [exec]. destruct (length (rest p)) as [|fuel]; cbn [star_loop]; [done|].
  destruct (exec r p _); [by eexists | done].
Qed.

Lemma exec_opt_some r p k : is_Some (k p) → is_Some (exec (Opt r) p k).
Proof.
  intros Hk. unfold Opt. cbn [exec]. destruct (exec r p k); [by eexists | done].
Qed.

Local Open Scope N_scope.

Lemma only_spec (a : N) (c : string) (x : N) :
  units c = [a] → only c x = (x =? a).
Proof. unfold only. by intros ->. Qed.

Lemma exec_Seq r1 r2 p k :
  exec (Seq r1 r2) p k = exec r1 p (fun p' => exec r2 p' k).
Proof. reflexivity. Qed.

Lemma exec_Chr_cons f b n c t k :
  exec (Chr f) (mkPos b n (c :: t)) k =
  if f c then k (mkPos (Some c) (S n) t) else None.
Proof. reflexivity. Qed.

(** At a [<] the tag pattern always matches, at least that code unit. *)
Lemma re_tag_matches prev t : ∃ k, match_here re_tag prev (60 :: t) = Some (S k).
Proof.
  unfold match_here, re_tag. rewrite exec_Seq, exec_Chr_cons.
  rewrite (only_spec 60) by done. cbn [N.eqb Pos.eqb]. rewrite exec_Seq.
  set (p := mkPos _ _ _). set (k := fun p' => exec (Opt _) p' _).
  assert (is_Some (exec (Star (Chr (except ">"))) p k)) as [n Hn].
  { apply exec_star_some. unfold k. apply exec_opt_some. by eexists. }
  rewrite Hn.
  apply exec_result in Hn as (q & Hq & Hn). unfold k in Hn.
  apply exec_result in Hn as (q' & Hq' & [= <-]).
  cbn in Hq. exists (Nat.pred (matched q')).
  f_equal. lia.
Qed.

Lemma remove_tag_no_lt : ∀ s prev skip, 60 ∉ remove_from re_tag prev skip s.
Proof.
  induction s as [|c t IH]; intros prev skip; cbn [remove_from].
  - apply not_elem_of_nil.
  - destruct skip as [|k]; [|apply IH].
    destruct (decide (c = 60)) as [->|Hc].
    + destruct (re_tag_matches prev t) as [k ->]. apply IH.
    + destruct (match_here re_tag prev (c :: t)) as [[|k]|];
        rewrite ?not_elem_of_cons; try apply IH; (split; [done | apply IH]).
Qed.

Lemma sublist_not_elem_of {A} (x : A) (l1 l2 : list A) :
  l1 `sublist_of` l2 → x ∉ l2 → x ∉ l1.
Proof. intros Hs Hx Hin. apply Hx. by eapply elem_of_sublist. Qed.

Lemma exec_Alt r1 r2 p k :
  exec (Alt r1 r2) p k =
  match exec r1 p k with Some n => Some n | None => exec r2 p k end.
Proof. reflexivity. Qed.

(** A scan that finds no match anywhere returns its input. *)
Lemma remove_from_id r : ∀ s prev,
  (∀ prev' t, t `suffix_of` s → match_here r prev' t = None) →
  remove_from r prev 0 s = s.
Proof.
  induction s as [|c t IH]; intros prev Hno; cbn [remove_from]; [done|].
  rewrite Hno by done. f_equal. apply IH.
  intros prev' t' Ht'. apply Hno. by apply suffix_cons_r.
Qed.

Lemma head_suffix_elem_of (x : N) (t s : jsstring) :
  t `suffix_of` s → head t = Some x → x ∈ s.
Proof.
  intros [k ->] Hh. destruct t as [|y t]; [done|]. injection Hh as ->.
  apply elem_of_app. right. left.
Qed.

Lemma lower_nonletter (c a : N) :
  (a < 97 ∨ 122 < a) → lower c = a → c = a.
Proof.
  unfold lower, isUpper. intros Ha.
  destruct (65 <=? c) eqn:H1, (c <=? 90) eqn:H2; cbn; try done.
  apply N.leb_le in H1, H2. lia.
Qed.

Section No_match.
Variable s : jsstring.

(** Patterns that begin with the code unit [a], on input without [a]. *)
Lemma starts_with_none (a : N) f r prev t k :
  a ∉ s → t `suffix_of` s → (∀ c, f c = true → c = a) →
  exec (Seq (Chr f) r) (mkPos prev 0 t) k = None.
Proof.
  intros Ha Ht Hf. rewrite exec_Seq. apply exec_chr_none.
  intros c Hc. cbn in Hc. destruct (f c) eqn:Hfc; [|done].
  apply Hf in Hfc as ->. destruct Ha. by eapply head_suffix_elem_of.
Qed.

(** Patterns that need the code unit [a] later on. *)
Lemma needs_later_none (a : N) f r p k :
  a ∉ s → rest p `suffix_of` s → (∀ c, f c = true → c = a) →
  exec (Seq (Chr f) r) p k = None.
Proof.
  intros Ha Ht Hf. rewrite exec_Seq. apply exec_chr_none.
  intros c Hc. destruct (f c) eqn:Hfc; [|done].
  apply Hf in Hfc as ->. destruct Ha. by eapply head_suffix_elem_of.
Qed.

Lemma only_eq c a x : units c = [a] → only c x = true → x = a.
Proof. intros Hc. rewrite (only_spec a) by done. by intros ?%N.eqb_eq. Qed.

Lemma re_script_none prev t :
  60 ∉ s → t `suffix_of` s → match_here re_script prev t = None.
Proof.
  intros Hs Ht. unfold match_here, re_script.
  change (lit_ci "<script") with
    (Seq (Chr (fun x => lower x =? lower 60)) (lit_ci "script")).
  rewrite 2!exec_Seq. apply exec_chr_none.
  intros c Hc. cbn in Hc. destruct (lower c =? lower 60) eqn:Hl; [|done].
  apply N.eqb_eq in Hl. apply lower_nonletter in Hl as ->; [|cbn; lia].
  destruct Hs. by eapply head_suffix_elem_of.
Qed.

Lemma re_tag_none prev t :
  60 ∉ s → t `suffix_of` s → match_here re_tag prev t = None.
Proof.
  intros Hs Ht. unfold match_here, re_tag.
  apply (starts_with_none 60); [done | done |]. intros c. by apply only_eq.
Qed.

Lemma re_jsuri_none prev t :
  58 ∉ s → t `suffix_of` s → match_here re_jsuri prev t = None.
Proof.
  intros Hs Ht. unfold match_here, re_jsuri. rewrite exec_Seq.
  apply exec_none. intros q Hq. apply exec_chr_none.
  intros c Hc. destruct (only ":" c) eqn:Ho; [|done].
  apply (only_eq _ 58) in Ho as ->; [|done].
  destruct Hs. eapply head_suffix_elem_of; [|done]. by etrans.
Qed.

Lemma re_handler_none prev t :
  61 ∉ s → t `suffix_of` s → match_here re_handler prev t = None.
Proof.
  intros Hs Ht. unfold match_here, re_handler.
  assert (∀ r k, exec (Seq (lit_ci "on") (Seq (Plus word) (Seq (Star space)
            (Seq (Chr (only "=")) r)))) (mkPos prev 0 t) k = None) as Hno.
  { intros r k. apply exec_seq_none. intros q1 H1.
    apply exec_seq_none. intros q2 H2.
    apply exec_seq_none. intros q3 H3.
    apply (needs_later_none 61); [done | | intros c; by apply only_eq].
    cbn in H1. by repeat (etrans; [eassumption|]). }
  by rewrite exec_Alt, !Hno.
Qed.
End No_match.

Lemma markup_free_spec s :
  markup_free s = true → (60 ∉ s) ∧ (58 ∉ s) ∧ (61 ∉ s).
Proof.
  unfold markup_free. rewrite forallb_forall. intros H.
  repeat split; intros Hin%list_elem_of_In%H; by cbn in Hin.
Qed.

Lemma trimStart_suffix s : trimStart s `suffix_of` s.
Proof.
  induction s as [|c t IH]; cbn; [done|].
  destruct (isWhiteSpace c); [by apply suffix_cons_r | done].
Qed.

Lemma suffix_is_sublist {A} (l1 l2 : list A) : l1 `suffix_of` l2 → l1 `sublist_of` l2.
Proof. intros [k ->]. by apply sublist_inserts_l. Qed.

Lemma prefix_is_sublist {A} (l1 l2 : list A) : l1 `prefix_of` l2 → l1 `sublist_of` l2.
Proof. intros [k ->]. by apply sublist_inserts_r. Qed.

Lemma trim_sublist s : trim s `sublist_of` s.
Proof.
  unfold trim, trimEnd.
  trans (trimStart s); [|apply suffix_is_sublist, trimStart_suffix].
  apply prefix_is_sublist.
  pose proof (proj1 (suffix_prefix_reverse _ _) (trimStart_suffix (reverse (trimStart s)))) as H.
  by rewrite reverse_involutive in H.
Qed.

Lemma truncated_sublist s : substring0 1000 (trim s) `sublist_of` s.
Proof. unfold substring0. etrans; [apply sublist_take | apply trim_sublist]. Qed.

Lemma sanitize_sublist s :
  sanitizeInput (JString s) `sublist_of` substring0 1000 (trim s).
Proof.
  unfold sanitizeInput.
  repeat (etrans; [apply remove_all_sublist|]). done.
Qed.

(** What the sanitizer guarantees of its output. *)
Lemma sanitize_bounds v :
  (length (sanitizeInput v) <= 1000)%nat ∧ 60 ∉ sanitizeInput v.
Proof.
  destruct v as [| | | |s|]; try (cbn; split; [lia | apply not_elem_of_nil]).
  split.
  - etrans; [apply sublist_length, sanitize_sublist|].
    unfold substring0. rewrite length_take. lia.
  - unfold sanitizeInput.
    eapply sublist_not_elem_of; [apply remove_all_sublist|].
    eapply sublist_not_elem_of; [apply remove_all_sublist|].
    apply remove_tag_no_lt.
Qed.

(** Markup-free content goes through the four removals unchanged. *)
Lemma sanitize_markup_free s :
  markup_free s = true → sanitizeInput (JString s) = substring0 1000 (trim s).
Proof.
  intros (H60 & H58 & H61)%markup_free_spec. unfold sanitizeInput.
  pose proof (truncated_sublist s) as Hsub.
  set (s0 := substring0 1000 (trim s)) in *.
  assert ((60 ∉ s0) ∧ (58 ∉ s0) ∧ (61 ∉ s0)) as (G60 & G58 & G61)
    by (repeat split; by eapply sublist_not_elem_of).
  unfold remove_all.
  rewrite (remove_from_id re_script s0) by (intros; by apply (re_script_none s0)).
  rewrite (remove_from_id re_tag s0) by (intros; by apply (re_tag_none s0)).
  rewrite (remove_from_id re_jsuri s0) by (intros; by apply (re_jsuri_none s0)).
  by rewrite (remove_from_id re_handler s0) by (intros; by apply (re_handler_none s0)).
Qed.

Local Close Scope N_scope.
Local Open Scope nat_scope.

(** C5.  For a message whose content is the string [c] and whose type is a
    non-empty string: content of length 0 is rejected; content longer than
    1000 (1001, say) is rejected as a length violation; content of 1 to
    1000 code units without [<], [:] and [=] and not blank is accepted,
    trimmed; content of 1 to 1000 code units that sanitizes to the empty
    string is rejected with an error of its own, returned in the result
    and different from the one of the length violation. *)
Theorem validateMessage_length_and_sanitization (m : Message) (c : jsstring) :
  content m = JString c →
  truthy (type m) && is_string (type m) = true →
  (length c = 0 → validateMessage (PObject m) = reject "Message content is required") ∧
  (1000 < length c →
     validateMessage (PObject m) = reject "Message content length invalid") ∧
  (1 <= length c <= 1000 → markup_free c = true → trim c ≠ [] →
     validateMessage (PObject m) =
       {| valid := true;
          sanitized := Some {| type := type m; content := JString (trim c);
                               encrypted := encrypted m |};
          error := None |}) ∧
  (1 <= length c <= 1000 → sanitizeInput (JString c) = [] →
     validateMessage (PObject m) =
       reject "Message content is empty after sanitization") ∧
  reject "Message content is empty after sanitization" ≠
    reject "Message content length invalid".
Proof.
  intros Hc Hty. apply andb_prop in Hty as [Ht1 Ht2].
  unfold validateMessage. rewrite Hc. cbn [truthy is_string].
  repeat split.
  - intros Hlen. by destruct c.
  - intros Hlen. destruct c as [|x c]; [cbn in Hlen; lia|]. cbn [negb orb].
    destruct (Nat.ltb_spec 1000 (length (x :: c))) as [_|]; [|lia].
    by rewrite orb_true_r.
  - intros Hlen Hfree Htrim. destruct c as [|x c]; [cbn in Hlen; lia|]. cbn [negb orb].
    destruct (Nat.ltb_spec 1000 (length (x :: c))) as [|_]; [lia|].
    cbn [length Nat.eqb orb]. rewrite Ht1, Ht2. cbn [negb orb].
    rewrite sanitize_markup_free by done.
    assert (substring0 1000 (trim (x :: c)) = trim (x :: c)) as ->.
    { unfold substring0. apply take_ge.
      etrans; [apply sublist_length, trim_sublist | lia]. }
    destruct (trim (x :: c)); [done|]. done.
  - intros Hlen Hempty. destruct c as [|x c]; [cbn in Hlen; lia|]. cbn [negb orb].
    destruct (Nat.ltb_spec 1000 (length (x :: c))) as [|_]; [lia|].
    cbn [length Nat.eqb orb]. rewrite Ht1, Ht2. cbn [negb orb].
    by rewrite Hempty.
  - done.
Qed.

(** C5 at the two ends of the range: one [a], and a thousand. *)
Lemma accepts_lengths_1_and_1000 :
  valid (validateMessage (PObject
    (mkMessage (JString (units "message")) (JString (units "a")) JUndefined))) = true ∧
  valid (validateMessage (PObject
    (mkMessage (JString (units "message")) (JString (replicate 1000 97%N)) JUndefined)))
    = true.
Proof.
  split.
  - pose proof (validateMessage_length_and_sanitization
      (mkMessage (JString (units "message")) (JString (units "a")) JUndefined)
      (units "a") eq_refl eq_refl) as (_ & _ & H & _).
    rewrite H; [reflexivity | cbn; lia | reflexivity | discriminate].
  - pose proof (validateMessage_length_and_sanitization
      (mkMessage (JString (units "message")) (JString (replicate 1000 97%N)) JUndefined)
      (replicate 1000 97%N) eq_refl eq_refl) as (_ & _ & H & _).
    rewrite H; [reflexivity | rewrite length_replicate; lia | vm_compute; reflexivity |].
    vm_compute. discriminate.
Defined.

(** Content that is a script block and nothing else sanitizes to the empty
    string. *)
Example script_only_is_rejected :
  validateMessage (PObject (mkMessage (JString (units "message"))
                     (JString (units "<script>alert(1)</script>")) JUndefined))
  = reject "Message content is empty after sanitization".
Proof. vm_compute. reflexivity. Qed.

(** Against C6 as stated: trimming comes first, so the output may begin and
    end with white space; and each pattern is removed in one scan, so what
    a removal brings together stays: a [javascript:] URI, an event-handler
    attribute. *)
Lemma sanitizeInput_order_counterexample :
  let out := sanitizeInput (JString (units "<b> hi </b>")) in
  let uri := sanitizeInput (JString (units "javajavascript:script:alert(1)")) in
  let handler := sanitizeInput (JString (units "onclick ona=b ='x'")) in
  out = units " hi " ∧ trim out ≠ out ∧
  uri = units "javascript:alert(1)" ∧ match_here re_jsuri None uri = Some 11 ∧
  handler = units "onclick  ='x'" ∧ match_here re_handler None handler = Some 13.
Proof. vm_compute. repeat split; discriminate. Qed.

(** C6 (as amended).  [sanitizeInput] first trims the input and cuts it to
    1000 code units, and then removes, one pattern after the other, the
    script blocks, the tags, the texts [javascript:] and the event-handler
    attributes found in one scan from the left.  Its output is the trimmed
    and cut input with code units left out: it is never longer than 1000,
    contains no [<], hence no match of the tag pattern and none of the
    script-block pattern. *)
Theorem sanitizeInput_trims_then_strips (s : jsstring) :
  let out := sanitizeInput (JString s) in
  out = remove_all re_handler (remove_all re_jsuri (remove_all re_tag
          (remove_all re_script (substring0 1000 (trim s))))) ∧
  out `sublist_of` substring0 1000 (trim s) ∧
  length out <= 1000 ∧
  (60%N ∉ out) ∧
  (∀ prev t, t `suffix_of` out →
     match_here re_tag prev t = None ∧ match_here re_script prev t = None).
Proof.
  intros out. split; [done|]. split; [apply sanitize_sublist|].
  destruct (sanitize_bounds (JString s)) as [Hlen Hlt].
  repeat split; try done.
  - by apply (re_tag_none out).
  - by apply (re_script_none out).
Qed.

End SanitizerProofs.

(** ** The message store *)

Module StoreProofs.

Lemma range_all {A} (l : list A) : Redis.range l 0 (-1) = l.
Proof.
  unfold Redis.range, Redis.index. cbn [Z.ltb Z.compare].
  change (Z.max 0 0) with 0.
  destruct (Z.ltb_spec (Z.min (Z.of_nat (length l) - 1) (Z.of_nat (length l) + -1)) 0)
    as [H|H].
  - symmetry. apply nil_length_inv. lia.
  - rewrite drop_0. apply take_ge. lia.
Qed.

Lemma range_first {A} (l : list A) (n : nat) :
  Redis.range l 0 (Z.of_nat (S n) - 1) = take (S n) l.
Proof.
  unfold Redis.range, Redis.index.
  destruct (Z.ltb_spec (Z.of_nat (S n) - 1) 0) as [|_]; [lia|].
  change (0 <? 0) with false. cbn iota. change (Z.max 0 0) with 0.
  destruct (Z.ltb_spec (Z.min (Z.of_nat (length l) - 1) (Z.of_nat (S n) - 1)) 0)
    as [H|H].
  - assert (l = []) as -> by (apply nil_length_inv; lia). reflexivity.
  - rewrite drop_0.
    destruct (decide (length l <= S n)%nat) as [Hle|Hgt].
    + rewrite !take_ge; [done | lia | lia].
    + f_equal. lia.
Qed.

Lemma take_app_take {A} (n : nat) (l1 l2 : list A) :
  take n (l1 ++ take n l2) = take n (l1 ++ l2).
Proof.
  rewrite !take_app. f_equal. rewrite take_take. f_equal. lia.
Qed.

Lemma lastN_reverse_take {A} (n : nat) (l : list A) :
  reverse (take n (reverse l)) = lastN n l.
Proof.
  unfold lastN. rewrite take_reverse, reverse_involutive. done.
Qed.

Lemma tail_drop {A} (l : list A) : tail l = drop 1 l.
Proof. by destruct l. Qed.

Lemma push_shift_lastN (m : ChatServer.ChatMessage) l :
  ChatServer.push_shift m (lastN 100 l) = lastN 100 (l ++ [m]).
Proof.
  unfold ChatServer.push_shift, lastN.
  rewrite <-(drop_app_le l [m]) by lia.
  rewrite tail_drop, drop_drop, length_drop, !length_app. cbn [length].
  destruct (Nat.ltb_spec 100 (length l + 1 - (length l - 100))) as [H|H];
    f_equal; lia.
Qed.

Lemma map_reverse {A B} (f : A → B) (l : list A) : map f (reverse l) = reverse (map f l).
Proof. unfold reverse. rewrite <-!rev_alt. apply map_rev. Qed.

Lemma map_parse_stringify {A} (l : list A) :
  map JSON_parse (map (@Stringified A) l) = l.
Proof. induction l as [|x l IH]; cbn; [done | by rewrite IH]. Qed.

(** Reading back what was pushed and trimmed: the last 100, oldest first. *)
Lemma read_back {A} (l : list A) :
  reverse (map JSON_parse (take 100 (reverse (map (@Stringified A) l)))) = lastN 100 l.
Proof.
  rewrite <-firstn_map, map_reverse, map_parse_stringify.
  apply lastN_reverse_take.
Qed.

Lemma lastN_length {A} (n : nat) (l : list A) : (length (lastN n l) <= n)%nat.
Proof. unfold lastN. rewrite length_drop. lia. Qed.

Lemma lastN_short {A} (n : nat) (l : list A) : (length l <= n)%nat → lastN n l = l.
Proof. intros H. unfold lastN. replace (length l - n)%nat with 0%nat by lia. done. Qed.

(** *** The in-process backend of the relay *)
Module InProcess.
Import ChatServer.

Lemma saveMessage_in_process env m s :
  in_process env = true →
  snd (saveMessage env m s) = with_messages (push_shift m) s.
Proof.
  unfold in_process, saveMessage. by destruct (redisReady env).
Qed.

Lemma saveAll_snoc log env m s :
  saveAll (log ++ [(env, m)]) s = snd (saveMessage env m (saveAll log s)).
Proof. unfold saveAll. by rewrite foldl_app. Qed.

Lemma saveAll_in_process log : ∀ s,
  forallb in_process (map fst log) = true →
  (length (messages s) <= 100)%nat →
  saveAll log s =
    mkServer (clients s) (lastN 100 (messages s ++ map snd log)) (redis s) (sent s).
Proof.
  induction log as [|[env m] log IH] using rev_ind; intros s Hall Hlen.
  - cbn. rewrite app_nil_r, lastN_short by done. by destruct s.
  - rewrite map_app, forallb_app in Hall. apply andb_prop in Hall as [Hall Henv].
    cbn in Henv. rewrite andb_true_r in Henv.
    rewrite saveAll_snoc, saveMessage_in_process, IH by done.
    unfold with_messages. cbn [clients messages redis sent].
    rewrite push_shift_lastN, map_app, app_assoc. done.
Qed.

Lemma recent_in_process env s :
  in_process env = true → recent env s = Ok (messages s).
Proof. unfold in_process, recent, getMessages. by destruct (redisReady env). Qed.

End InProcess.

(** *** The Redis key under LPUSH, LTRIM and LRANGE *)

Lemma alive_None {A} now (k : Redis.Key A) :
  Redis.expireAt k = None → Redis.alive now k = k.
Proof. unfold Redis.alive. by intros ->. Qed.

Lemma alive_before {A} now e (k : Redis.Key A) :
  Redis.expireAt k = Some e → now < e → Redis.alive now k = k.
Proof.
  unfold Redis.alive. intros -> H. destruct (Z.leb_spec e now); [lia | done].
Qed.

(** A key that is alive, with one item pushed and the list trimmed to the
    first 100. *)
Lemma push_trim {A} now (x : A) (k : Redis.Key A) :
  Redis.alive now k = k →
  snd (Redis.lTrim now 0 99 (snd (Redis.lPush now x k))) =
    Redis.mkKey (take 100 (x :: Redis.items k)) (Redis.expireAt k).
Proof.
  intros Hk. unfold Redis.lPush. rewrite Hk. cbn [snd].
  unfold Redis.lTrim.
  assert (Redis.alive now (Redis.mkKey (x :: Redis.items k) (Redis.expireAt k)) =
          Redis.mkKey (x :: Redis.items k) (Redis.expireAt k)) as ->.
  { unfold Redis.alive in Hk |- *. cbn [Redis.expireAt].
    destruct (Redis.expireAt k) as [e|] eqn:He; [|done].
    destruct (e <=? now); [|done]. rewrite <-Hk in He. discriminate. }
  cbn [Redis.items Redis.expireAt].
  change 99 with (Z.of_nat 100 - 1). rewrite range_first. done.
Qed.

(** *** The shared backend of the relay *)
Module Shared.
Import ChatServer.
Import InProcess.

Lemma saveMessage_shared env m s :
  shared env = true → Redis.expireAt (redis s) = None →
  snd (saveMessage env m s) =
    mkServer (clients s) (messages s)
      (Redis.mkKey (take 100 (Stringified m :: Redis.items (redis s))) None) (sent s).
Proof.
  unfold shared. intros [[Hready H0%negb_true_iff]%andb_prop H1%negb_true_iff]%andb_prop Hexp.
  pose proof (push_trim (now env) (JSON_stringify m) (redis s) (alive_None _ _ Hexp)) as Hpt.
  unfold saveMessage, try_catch, bind, redis_command, Redis.command, ret.
  rewrite Hready, H0, H1. cbn [clients messages redis sent snd fst].
  destruct (Redis.lPush (now env) (JSON_stringify m) (redis s)) as [n k1] eqn:Hpush.
  cbn [clients messages redis sent snd fst] in *.
  destruct (Redis.lTrim (now env) 0 99 k1) as [u k2] eqn:Htrim.
  cbn [clients messages redis sent snd fst] in *.
  by rewrite Hpt, Hexp.
Qed.

Lemma saveAll_shared log : ∀ s,
  forallb shared (map fst log) = true →
  redis s = Redis.empty →
  saveAll log s =
    mkServer (clients s) (messages s)
      (Redis.mkKey (take 100 (reverse (map Stringified (map snd log)))) None) (sent s).
Proof.
  induction log as [|[env m] log IH] using rev_ind; intros s Hall Hempty.
  - destruct s as [c ms r st]. cbn in *. by subst r.
  - rewrite map_app, forallb_app in Hall. apply andb_prop in Hall as [Hall Henv].
    cbn in Henv. rewrite andb_true_r in Henv.
    rewrite saveAll_snoc, IH by done.
    rewrite saveMessage_shared by done. cbn [clients messages redis sent Redis.items].
    do 2 f_equal.
    rewrite !map_app. cbn [map snd]. rewrite reverse_app. cbn [reverse rev_append app].
    apply (take_app_take 100 [Stringified m]).
Qed.

Lemma recent_shared env s :
  shared env = true → Redis.expireAt (redis s) = None →
  recent env s = Ok (reverse (map JSON_parse (Redis.items (redis s)))).
Proof.
  unfold shared. intros [[Hready H0%negb_true_iff]%andb_prop _]%andb_prop Hexp.
  unfold recent, getMessages, try_catch, bind, redis_command, Redis.command, ret.
  rewrite Hready, H0. unfold Redis.lRange. rewrite alive_None by done.
  cbn [fst snd]. by rewrite range_all.
Qed.

Lemma shared_store log s env :
  forallb shared (map fst log) = true → shared env = true →
  redis s = Redis.empty →
  (length (Redis.items (redis (saveAll log s))) <= 100)%nat ∧
  recent env (saveAll log s) = Ok (lastN 100 (map snd log)).
Proof.
  intros Hall Henv Hempty. rewrite saveAll_shared by done. split.
  - cbn [redis Redis.items]. rewrite length_take. lia.
  - rewrite recent_shared by done. cbn [redis Redis.items]. by rewrite read_back.
Qed.
End Shared.

(** *** RedisManager *)
Module Manager.
Import RedisManager.

Lemma saveMessage_commands {A} now (m : A) (w : Redis.Key (Json A)) :
  snd (saveMessage now true (fun _ => false) m 100 w) =
    snd (Redis.expire now 86400
      (snd (Redis.lTrim now 0 99 (snd (Redis.lPush now (JSON_stringify m) w))))).
Proof.
  unfold saveMessage, try_catch, bind, Redis.command, ret. cbn [negb].
  change (100 - 1) with 99.
  destruct (Redis.lPush now (JSON_stringify m) w) as [n k1]. cbn [snd].
  destruct (Redis.lTrim now 0 99 k1) as [u k2]. cbn [snd].
  by destruct (Redis.expire now 86400 k2).
Qed.

Lemma saveMessage_alive {A} now (m : A) (w : Redis.Key (Json A)) :
  Redis.alive now w = w →
  snd (saveMessage now true (fun _ => false) m 100 w) =
    Redis.mkKey (take 100 (Stringified m :: Redis.items w)) (Some (now + 86400 * 1000)).
Proof.
  intros Hw. rewrite saveMessage_commands, push_trim by done.
  unfold Redis.expire.
  assert (Redis.alive now (Redis.mkKey (take 100 (JSON_stringify m :: Redis.items w))
                             (Redis.expireAt w)) =
          Redis.mkKey (take 100 (JSON_stringify m :: Redis.items w)) (Redis.expireAt w)) as ->.
  { unfold Redis.alive in Hw |- *. cbn [Redis.expireAt].
    destruct (Redis.expireAt w) as [e|] eqn:He; [|done].
    destruct (e <=? now); [|done]. rewrite <-Hw in He. discriminate. }
  cbn [Redis.items take]. done.
Qed.

Lemma kept_alive_app exp times later :
  kept_alive exp (times ++ later) = true →
  kept_alive exp times = true.
Proof.
  revert exp. induction times as [|t times IH]; intros exp; cbn [app kept_alive]; [done|].
  intros [-> H]%andb_prop. cbn. by apply (IH _ H).
Qed.

Lemma saveAll_spec {A} (log : list (Z * A)) : ∀ (w : Redis.Key (Json A)) later,
  (length (Redis.items w) <= 100)%nat →
  kept_alive (Redis.expireAt w) (map fst log ++ later) = true →
  Redis.items (saveAll log w) =
    take 100 (reverse (map Stringified (map snd log)) ++ Redis.items w) ∧
  kept_alive (Redis.expireAt (saveAll log w)) later = true.
Proof.
  induction log as [|[t m] log IH]; intros w later Hlen Hk.
  - cbn in *. split; [|done]. symmetry. by apply take_ge.
  - cbn [map fst snd app kept_alive] in Hk. apply andb_prop in Hk as [Ht Hk].
    cbn [saveAll]. rewrite saveMessage_alive.
    2:{ destruct (Redis.expireAt w) as [e|] eqn:He.
        - apply (alive_before _ e); [done | lia].
        - by apply alive_None. }
    destruct (IH (Redis.mkKey (take 100 (Stringified m :: Redis.items w))
                    (Some (t + 86400 * 1000))) later) as [Hitems Hlater].
    + cbn [Redis.items]. rewrite length_take. lia.
    + done.
    + split; [|done]. rewrite Hitems. cbn [Redis.items map snd].
      rewrite take_app_take, reverse_cons, <-app_assoc. done.
Qed.

Lemma manager_store {A} (log : list (Z * A)) (tq : Z) :
  kept_alive None (map fst log ++ [tq]) = true →
  (length (Redis.items (saveAll log Redis.empty)) <= 100)%nat ∧
  recent tq (saveAll log Redis.empty) = Ok (lastN 100 (map snd log)).
Proof.
  intros Hk.
  destruct (saveAll_spec log Redis.empty [tq]) as [Hitems Hlater]; [cbn; lia | done |].
  cbn [Redis.items Redis.empty] in Hitems. rewrite app_nil_r in Hitems.
  split; [rewrite Hitems, length_take; lia|].
  unfold recent, getMessages, try_catch, bind, Redis.command, ret. cbn [negb].
  unfold Redis.lRange.
  assert (Redis.alive tq (saveAll log Redis.empty) = saveAll log Redis.empty) as ->.
  { cbn [kept_alive] in Hlater. rewrite andb_true_r in Hlater.
    destruct (Redis.expireAt (saveAll log Redis.empty)) as [e|] eqn:He.
    - apply (alive_before _ e); [done | lia].
    - by apply alive_None. }
  cbn [fst]. change (100 - 1) with (Z.of_nat 100 - 1).
  rewrite range_first, Hitems, take_take. cbn [Nat.min].
  change (100 `min` 100)%nat with 100%nat. by rewrite read_back.
Qed.

End Manager.

(** *** With faults *)

Lemma push_shift_length cm l : (length l <= 100)%nat → (length (ChatServer.push_shift cm l) <= 100)%nat.
Proof.
  intros H. unfold ChatServer.push_shift. cbn zeta.
  destruct (Nat.ltb_spec 100 (length (l ++ [cm]))) as [Hlt|Hge]; [|done].
  rewrite length_app in Hlt. cbn in Hlt.
  destruct l; cbn [app tail length] in *; [lia|]. rewrite length_app. cbn. lia.
Qed.

(** The array stays within its bound whatever the shared store does. *)
Lemma saveMessage_array_bound env m s :
  (length (ChatServer.messages s) <= 100)%nat →
  (length (ChatServer.messages (snd (ChatServer.saveMessage env m s))) <= 100)%nat.
Proof.
  intros Hlen.
  assert (length (ChatServer.messages (ChatServer.with_messages (ChatServer.push_shift m) s))
          <= 100)%nat as Hpush by by apply push_shift_length.
  unfold ChatServer.saveMessage, try_catch, bind, ChatServer.redis_command, Redis.command,
    modify, ret.
  destruct (ChatServer.redisReady env); [|done].
  destruct (ChatServer.fault env 0); [done|].
  destruct (Redis.lPush _ _ _) as [n k1]. cbn [ChatServer.redis].
  destruct (ChatServer.fault env 1); [done|].
  by destruct (Redis.lTrim _ _ _ _) as [u k2].
Qed.

Lemma saveAll_array_bound log : ∀ s,
  (length (ChatServer.messages s) <= 100)%nat →
  (length (ChatServer.messages (ChatServer.saveAll log s)) <= 100)%nat.
Proof.
  induction log as [|[env m] log IH]; intros s Hlen; [done|].
  unfold ChatServer.saveAll in *. cbn [foldl]. by apply IH, saveMessage_array_bound.
Qed.

(** A save whose two commands are answered leaves at most 100 entries in
    the list, however many there were. *)
Lemma saveMessage_restores_bound env m s :
  ChatServer.shared env = true →
  (length (Redis.items (ChatServer.redis (snd (ChatServer.saveMessage env m s)))) <= 100)%nat.
Proof.
  unfold ChatServer.shared. intros [[Hready H0%negb_true_iff]%andb_prop H1%negb_true_iff]%andb_prop.
  unfold ChatServer.saveMessage, try_catch, bind, ChatServer.redis_command, Redis.command,
    modify, ret.
  rewrite Hready, H0. destruct (Redis.lPush _ _ _) as [n k1]. cbn [ChatServer.redis].
  rewrite H1. unfold Redis.lTrim.
  change 99 with (Z.of_nat 100 - 1). rewrite range_first.
  set (kept := take 100 (Redis.items (Redis.alive (ChatServer.now env) k1))).
  assert (length kept <= 100)%nat as Hkept by (unfold kept; rewrite length_take; lia).
  destruct kept as [|x l]; cbn [snd ChatServer.redis Redis.items Redis.empty length] in *; lia.
Qed.

(** Against C4 as stated: 101 saves whose LPUSH is answered and whose LTRIM
    is rejected leave 101 entries in the list of the shared store, and the
    recent-messages query returns all 101. *)
Lemma rejected_trim_leaves_101 :
  let s' := ChatServer.saveAll
              (map (fun k => (ChatServer.trim_rejected k, ChatServer.numbered k)) (seq 1 101))
              ChatServer.initial in
  length (Redis.items (ChatServer.redis s')) = 101%nat ∧
  ∃ l, ChatServer.recent (ChatServer.online 102) s' = Ok l ∧ length l = 101%nat.
Proof.
  split; [by vm_compute|]. eexists. split; [vm_compute; reflexivity|]. reflexivity.
Qed.

(** C4 (as amended).  For each backend of the message store (the array of
    the relay, the Redis list of the relay, the Redis list of
    [RedisManager]), as long as the store answers every command of a
    save: after any sequence of appends the store holds at most 100
    messages, and the recent-messages query returns the last 100 of the
    messages appended (all of them when fewer), oldest first.  Whatever
    the shared store does, the array of the relay holds at most 100
    messages; and a save whose LPUSH and LTRIM are both answered leaves at
    most 100 entries in the list, however many a rejected LTRIM had left
    there.  The scenario of the 150 messages is proved below from this
    statement. *)
Theorem message_store_keeps_last_100 :
  (∀ log s env,
     forallb ChatServer.in_process (map fst log) = true →
     ChatServer.in_process env = true →
     (length (ChatServer.messages s) <= 100)%nat →
     let s' := ChatServer.saveAll log s in
     (length (ChatServer.messages s') <= 100)%nat ∧
     ChatServer.messages s' = lastN 100 (ChatServer.messages s ++ map snd log) ∧
     ChatServer.recent env s' = Ok (lastN 100 (ChatServer.messages s ++ map snd log))) ∧
  (∀ log s env,
     forallb ChatServer.shared (map fst log) = true →
     ChatServer.shared env = true →
     ChatServer.redis s = Redis.empty →
     let s' := ChatServer.saveAll log s in
     (length (Redis.items (ChatServer.redis s')) <= 100)%nat ∧
     ChatServer.recent env s' = Ok (lastN 100 (map snd log))) ∧
  (∀ (A : Type) (log : list (Z * A)) (tq : Z),
     RedisManager.kept_alive None (map fst log ++ [tq]) = true →
     let w := RedisManager.saveAll log Redis.empty in
     (length (Redis.items w) <= 100)%nat ∧
     RedisManager.recent tq w = Ok (lastN 100 (map snd log))) ∧
  (∀ log s,
     (length (ChatServer.messages s) <= 100)%nat →
     (length (ChatServer.messages (ChatServer.saveAll log s)) <= 100)%nat) ∧
  (∀ env m s,
     ChatServer.shared env = true →
     (length (Redis.items (ChatServer.redis (snd (ChatServer.saveMessage env m s)))) <= 100)%nat).
Proof.
  split; [|split; [|split; [|split]]].
  - intros log s env Hall Henv Hlen s'. unfold s'.
    rewrite InProcess.recent_in_process by done.
    rewrite InProcess.saveAll_in_process by done. cbn [ChatServer.messages].
    split; [apply lastN_length | done].
  - intros log s env Hall Henv Hempty. by apply Shared.shared_store.
  - intros A log tq Hk. by apply Manager.manager_store.
  - intros log s. apply saveAll_array_bound.
  - intros env m s. apply saveMessage_restores_bound.
Qed.

(** The scenario of C4: 150 messages appended, the query returns the
    messages 51 to 150 in order, for the three backends. *)
Lemma scenario_150_messages :
  ChatServer.recent (ChatServer.offline 151)
    (ChatServer.saveAll
       (map (fun k => (ChatServer.offline k, ChatServer.numbered k)) (seq 1 150))
       ChatServer.initial)
  = Ok (map ChatServer.numbered (seq 51 100)) ∧
  ChatServer.recent (ChatServer.online 151)
    (ChatServer.saveAll
       (map (fun k => (ChatServer.online k, ChatServer.numbered k)) (seq 1 150))
       ChatServer.initial)
  = Ok (map ChatServer.numbered (seq 51 100)) ∧
  RedisManager.recent 151
    (RedisManager.saveAll (map (fun k => (Z.of_nat k, k)) (seq 1 150)) Redis.empty)
  = Ok (seq 51 100).
Proof.
  destruct message_store_keeps_last_100 as (Hmem & Hshared & Hmanager & _).
  split; [|split].
  - destruct (Hmem (map (fun k => (ChatServer.offline k, ChatServer.numbered k)) (seq 1 150))
                ChatServer.initial (ChatServer.offline 151)) as (_ & _ & ->);
      [vm_compute; reflexivity | reflexivity | cbn; lia |].
    vm_compute. reflexivity.
  - destruct (Hshared (map (fun k => (ChatServer.online k, ChatServer.numbered k)) (seq 1 150))
                ChatServer.initial (ChatServer.online 151)) as (_ & ->);
      [vm_compute; reflexivity | reflexivity | reflexivity |].
    vm_compute. reflexivity.
  - destruct (Hmanager nat (map (fun k => (Z.of_nat k, k)) (seq 1 150)) 151) as (_ & ->);
      [vm_compute; reflexivity |].
    vm_compute. reflexivity.
Defined.

End StoreProofs.

(** ** The relay *)

Module RelayProofs.
Import Js ChatServer.
Local Open Scope nat_scope.

(** *** Fields that the store operations leave alone *)

Lemma saveMessage_frame env cm s :
  fst (saveMessage env cm s) = Ok tt ∧
  clients (snd (saveMessage env cm s)) = clients s ∧
  sent (snd (saveMessage env cm s)) = sent s.
Proof.
  unfold saveMessage, try_catch, bind, redis_command, Redis.command, modify, ret.
  destruct (redisReady env); [|done].
  destruct (fault env 0); [done|].
  destruct (Redis.lPush _ _ _) as [n k1]. cbn [clients messages redis sent].
  destruct (fault env 1); [done|].
  by destruct (Redis.lTrim _ _ _ _) as [u k2].
Qed.

Lemma getMessages_frame env n s :
  ∃ l s', getMessages env n s = (Ok l, s') ∧ clients s' = clients s ∧
          messages s' = messages s ∧ sent s' = sent s.
Proof.
  unfold getMessages, try_catch, bind, redis_command, Redis.command, get, ret.
  destruct (redisReady env); [|by eexists _, _].
  destruct (fault env n); [by eexists _, _|].
  destruct (Redis.lRange _ _ _ _) as [l k]. by eexists _, _.
Qed.

(** *** [broadcast] *)

Lemma broadcast_fold env str exclude : ∀ (l : list (Ws * ClientInfo)) s,
  foldl (fun s '(ws, _client) =>
           if negb (bool_decide (Some ws = exclude))
              && bool_decide (readyState env ws = OPEN)
           then ws_send ws str s else s) s l =
  mkServer (clients s) (messages s) (redis s)
    (sent s ++ map (fun ws => (ws, str)) (List.filter (open_for env exclude) (map fst l))).
Proof.
  induction l as [|[ws c] l IH]; intros s.
  - cbn. rewrite app_nil_r. by destruct s.
  - cbn [foldl map fst List.filter]. rewrite IH. unfold open_for at 2.
    destruct (negb _ && _); cbn [clients messages redis sent ws_send map];
      [by rewrite <-app_assoc | done].
Qed.

Lemma broadcast_sent env message exclude s :
  broadcast env message exclude s =
  mkServer (clients s) (messages s) (redis s)
    (sent s ++ map (fun ws => (ws, JSON_stringify message))
                 (List.filter (open_for env exclude) (map fst (clients s)))).
Proof. unfold broadcast. apply broadcast_fold. Qed.

Lemma outbox_app ws s (extra : list (Ws * Frame)) :
  outbox ws (mkServer (clients s) (messages s) (redis s) (sent s ++ extra)) =
  outbox ws s ++ (snd <$> List.filter (fun e => Nat.eqb (fst e) ws) extra).
Proof. unfold outbox. cbn [sent]. by rewrite List.filter_app, fmap_app. Qed.

Lemma outbox_delivered ws (str : Frame) (P : Ws → bool) (l : list Ws) :
  NoDup l →
  snd <$> List.filter (fun e => Nat.eqb (fst e) ws)
            (map (fun w => (w, str)) (List.filter P l)) =
  if bool_decide (ws ∈ l) && P ws then [str] else [].
Proof.
  intros Hnd. induction Hnd as [|x l Hx Hnd IH]; [done|]. cbn [List.filter].
  destruct (Nat.eqb_spec x ws) as [->|Hne].
  - rewrite bool_decide_eq_true_2 by left. cbn [andb].
    rewrite bool_decide_eq_false_2, andb_false_l in IH by done.
    destruct (P ws); cbn [map List.filter fst]; rewrite ?Nat.eqb_refl; cbn; by rewrite IH.
  - assert (bool_decide (ws ∈ x :: l) = bool_decide (ws ∈ l)) as ->.
    { apply bool_decide_ext. rewrite elem_of_cons.
      split; [intros [?|?]; [congruence | done] | by right]. }
    destruct (P x); cbn [map List.filter fst]; [|done].
    destruct (Nat.eqb_spec x ws); [done|]. done.
Qed.

(** The frames each transport is handed by one [broadcast]. *)
Lemma broadcast_outbox env message exclude s ws :
  registry_ok s →
  outbox ws (broadcast env message exclude s) =
  outbox ws s ++ (if reached env exclude s ws then [JSON_stringify message] else []).
Proof.
  intros Hok. rewrite broadcast_sent, outbox_app, outbox_delivered by done.
  unfold reached, open_for. by rewrite andb_assoc.
Qed.

(** *** The registry *)

Lemma map_get_None {V} ws (m : list (Ws * V)) :
  map_get ws m = None ↔ ws ∉ map fst m.
Proof.
  unfold map_get. induction m as [|[w v] m IH]; cbn.
  - split; [intros _; apply not_elem_of_nil | done].
  - destruct (Nat.eqb_spec w ws) as [->|Hne]; cbn.
    + split; [done|]. intros H. destruct H. left.
    + rewrite IH, not_elem_of_cons.
      split; [intros ?; split; [congruence | done] | by intros [_ ?]].
Qed.

Lemma map_get_Some {V} ws (m : list (Ws * V)) v :
  map_get ws m = Some v → ws ∈ map fst m.
Proof.
  intros H. destruct (decide (ws ∈ map fst m)) as [|Hn]; [done|].
  apply map_get_None in Hn. congruence.
Qed.

Lemma map_set_keys {V} ws (v : V) (m : list (Ws * V)) :
  map fst (map_set ws v m) =
  if bool_decide (ws ∈ map fst m) then map fst m else map fst m ++ [ws].
Proof.
  induction m as [|[w v'] m IH]; cbn [map_set map fst app]; [done|].
  destruct (Nat.eqb_spec w ws) as [->|Hne]; cbn [map fst].
  - by rewrite bool_decide_eq_true_2 by left.
  - rewrite IH.
    assert (bool_decide (ws ∈ w :: map fst m) = bool_decide (ws ∈ map fst m)) as ->.
    { apply bool_decide_ext. rewrite elem_of_cons.
      split; [intros [?|?]; [congruence | done] | by right]. }
    by destruct (bool_decide _).
Qed.

Lemma map_delete_keys {V} ws (m : list (Ws * V)) :
  map fst (map_delete ws m) = List.filter (fun w => negb (Nat.eqb w ws)) (map fst m).
Proof.
  unfold map_delete. induction m as [|[w v] m IH]; cbn [List.filter map fst]; [done|].
  destruct (Nat.eqb w ws); cbn [negb map fst]; by rewrite IH.
Qed.

(** *** [handleMessage] *)

Lemma handleMessage_unregistered env ws p s :
  map_get ws (clients s) = None → handleMessage env ws p s = (Ok tt, s).
Proof. intros H. unfold handleMessage, bind, get, ret. by rewrite H. Qed.

Lemma handleMessage_accepts env ws m text client s :
  map_get ws (clients s) = Some client →
  type m = JString (units "message") →
  relayed_content m = Some text →
  handleMessage env ws (PObject m) s =
    (Ok tt, broadcast env (NewMessage (chat_message env client m text)) None
              (snd (saveMessage env (chat_message env client m text)
                      (with_clients (map_set ws (touch env client)) s)))).
Proof.
  intros Hget Hty Hc. unfold handleMessage, bind, get, modify, ret.
  rewrite Hget, Hty. rewrite bool_decide_eq_true_2 by done.
  unfold relayed_content in Hc. destruct (content m) as [| | | |c|]; try done.
  destruct (Nat.ltb_spec 0 (length (trim c))) as [Hlen|]; [|done].
  injection Hc as <-.
  destruct c as [|x c]; [cbn in Hlen; lia|]. cbn [truthy].
  fold (touch env client). fold (chat_message env client m (substring0 1000 (trim (x :: c)))).
  destruct (saveMessage_frame env (chat_message env client m (substring0 1000 (trim (x :: c))))
              (with_clients (map_set ws (touch env client)) s)) as (Hok & _ & _).
  destruct (saveMessage env _ _) as [r s2]. cbn [fst snd] in *. by subst r.
Qed.

(** Whatever else comes under the type ['message'] changes the activity
    time of the sender and nothing else. *)
Lemma handleMessage_discards env ws m client s :
  map_get ws (clients s) = Some client →
  type m = JString (units "message") →
  relayed_content m = None →
  snd (handleMessage env ws (PObject m) s) =
    with_clients (map_set ws (touch env client)) s.
Proof.
  intros Hget Hty Hc. unfold handleMessage, bind, get, modify, ret, throw.
  rewrite Hget, Hty. rewrite bool_decide_eq_true_2 by done.
  unfold relayed_content in Hc. fold (touch env client).
  destruct (content m) as [| |b|n|c|]; cbn [truthy snd]; try done.
  - by destruct b.
  - by destruct (negb _).
  - destruct c as [|x c]; [done|].
    by destruct (Nat.ltb_spec 0 (length (trim (x :: c)))).
Qed.

Lemma sent_since_app s s' extra :
  sent s' = sent s ++ extra → sent_since s s' = extra.
Proof. unfold sent_since. intros ->. by rewrite drop_app_length. Qed.

(** Every call of [handleMessage] either relays a message, or sends
    nothing, or answers a ping; the store moves in the first case only. *)
Lemma handleMessage_effect env ws p s :
  let s' := snd (handleMessage env ws p s) in
  map fst (clients s') = map fst (clients s) ∧
  ((∃ m client text, p = PObject m ∧ map_get ws (clients s) = Some client ∧
      type m = JString (units "message") ∧ relayed_content m = Some text) ∨
   (messages s' = messages s ∧ redis s' = redis s ∧
      (sent s' = sent s ∨ sent s' = sent s ++ [(ws, JSON_stringify Pong)]))).
Proof.
  destruct (map_get ws (clients s)) as [client|] eqn:Hget.
  2:{ rewrite handleMessage_unregistered by done. cbn. split; [done|]. right. auto. }
  assert (map fst (clients (with_clients (map_set ws (touch env client)) s)) =
          map fst (clients s)) as Hkeys.
  { cbn [with_clients clients]. rewrite map_set_keys.
    rewrite bool_decide_eq_true_2; [done|]. by eapply map_get_Some. }
  destruct p as [| |m].
  1,2: unfold handleMessage, bind, get, modify, ret, throw; rewrite Hget;
       cbn [snd]; fold (touch env client); split; [done|]; right; auto.
  destruct (type m) as [| | | |t|] eqn:Hty.
  1,2,3,4,6: unfold handleMessage, bind, get, modify, ret, throw; rewrite Hget, Hty;
       cbn [snd]; fold (touch env client); split; [done|]; right; auto.
  destruct (decide (t = units "message")) as [->|Hne].
  - destruct (relayed_content m) as [text|] eqn:Hc.
    + rewrite (handleMessage_accepts _ _ _ text client) by done. cbn [snd].
      rewrite broadcast_sent. cbn [clients].
      destruct (saveMessage_frame env (chat_message env client m text)
                  (with_clients (map_set ws (touch env client)) s)) as (_ & -> & _).
      split; [done|]. left. by exists m, client, text.
    + cbn zeta. rewrite (handleMessage_discards _ _ _ client) by done.
      split; [done|]. right. auto.
  - unfold handleMessage, bind, get, modify, ret, throw. rewrite Hget, Hty.
    rewrite bool_decide_eq_false_2 by done. fold (touch env client).
    case_bool_decide; cbn [snd]; (split; [done|]); right; auto.
Qed.

(** *** Delivery *)

(** C8.  In a state whose registry has one entry for each connection:
    [broadcast] hands one and the same serialized frame to every registered
    transport that is open and is not the excluded one, and to no other,
    whatever the state of the other transports; it changes nothing else.
    A ['message'] payload that is relayed is handed in this way to every
    registered open transport, the one of the sender included. *)
Theorem broadcast_reaches_every_open_connection env s :
  registry_ok s →
  (∀ message exclude,
     let s' := broadcast env message exclude s in
     clients s' = clients s ∧ messages s' = messages s ∧ redis s' = redis s ∧
     ∀ ws, outbox ws s' =
           outbox ws s ++
           (if reached env exclude s ws then [JSON_stringify message] else [])) ∧
  (∀ ws m client text,
     map_get ws (clients s) = Some client →
     type m = JString (units "message") →
     relayed_content m = Some text →
     ∃ s', handleMessage env ws (PObject m) s = (Ok tt, s') ∧
       reached env None s ws = bool_decide (readyState env ws = OPEN) ∧
       ∀ ws', outbox ws' s' =
              outbox ws' s ++
              (if reached env None s ws'
               then [JSON_stringify (NewMessage (chat_message env client m text))]
               else [])).
Proof.
  intros Hok. split.
  - intros message exclude s'. unfold s'. rewrite broadcast_sent at 1 2 3.
    cbn [clients messages redis]. repeat split.
    intros ws. by apply broadcast_outbox.
  - intros ws m client text Hget Hty Hc.
    eexists. split; [by apply handleMessage_accepts|].
    split.
    { unfold reached. rewrite bool_decide_eq_true_2 by (by eapply map_get_Some). done. }
    intros ws'.
    set (cm := chat_message env client m text).
    set (s1 := with_clients (map_set ws (touch env client)) s).
    destruct (saveMessage_frame env cm s1) as (_ & Hcl & Hsent).
    assert (map fst (clients (snd (saveMessage env cm s1))) = map fst (clients s)) as Hkeys.
    { rewrite Hcl. unfold s1. cbn [with_clients clients]. rewrite map_set_keys.
      rewrite bool_decide_eq_true_2; [done|]. by eapply map_get_Some. }
    rewrite broadcast_outbox by (unfold registry_ok; by rewrite Hkeys).
    unfold reached. rewrite Hkeys. f_equal.
    unfold outbox. by rewrite Hsent.
Qed.

Lemma three_clients_ok : registry_ok three_clients.
Proof.
  unfold registry_ok. apply NoDup_ListNoDup. vm_compute.
  repeat constructor; cbn; intuition discriminate.
Qed.

(** C8 with three clients, the transport of the second closed: a message
    of the first reaches the first and the third. *)
Lemma broadcast_with_a_closed_connection :
  let env := second_closed 3 "u4" in
  let frame := JSON_stringify (NewMessage
                 (chat_message env (mkClientInfo "Ghost0001" "#FF6B6B" 0 0)
                    (mkMessage (JString (units "message")) (JString (units "hi")) JUndefined)
                    (units "hi"))) in
  ∃ s', handleMessage env 1 (text_message (units "hi")) three_clients = (Ok tt, s') ∧
        outbox 1 s' = outbox 1 three_clients ++ [frame] ∧
        outbox 2 s' = outbox 2 three_clients ∧
        outbox 3 s' = outbox 3 three_clients ++ [frame].
Proof.
  intros env frame.
  destruct (broadcast_reaches_every_open_connection env three_clients three_clients_ok)
    as [_ H].
  destruct (H 1 (mkMessage (JString (units "message")) (JString (units "hi")) JUndefined)
              (mkClientInfo "Ghost0001" "#FF6B6B" 0 0) (units "hi")
              eq_refl eq_refl eq_refl) as (s' & Hs' & _ & Hout).
  exists s'. split; [exact Hs'|].
  rewrite (Hout 1), (Hout 2), (Hout 3).
  change (reached env None three_clients 1) with true.
  change (reached env None three_clients 2) with false.
  change (reached env None three_clients 3) with true.
  rewrite app_nil_r. repeat split.
Defined.

(** *** The registry along a run *)

Lemma handleConnection_effect env ws s :
  let s' := handleConnection env ws s in
  ∃ recentMessages,
    clients s' = map_set ws (mkClientInfo (anonId env) (userColor env) (now env) (now env))
                   (clients s) ∧
    messages s' = messages s ∧
    sent s' = sent s ++
      (ws, JSON_stringify (Init (anonId env) (userColor env) recentMessages)) ::
      map (fun w => (w, JSON_stringify (UserCount (length (clients s')))))
          (List.filter (open_for env None) (map fst (clients s'))).
Proof.
  unfold handleConnection.
  set (s1 := with_clients _ s).
  destruct (getMessages_frame env 0 s1) as (l & s2 & -> & Hc & Hm & Hs).
  exists l. rewrite broadcast_sent. cbn [clients messages redis sent ws_send].
  rewrite Hc, Hm, Hs. unfold s1. cbn [with_clients clients messages sent].
  by rewrite <-app_assoc.
Qed.




Lemma deleted_key ws (l : list Ws) :
  ws ∉ List.filter (fun w => negb (Nat.eqb w ws)) l.
Proof.
  intros Hin%list_elem_of_In%filter_In. destruct Hin as [_ H].
  by rewrite Nat.eqb_refl in H.
Qed.






(** *** What is broadcast, and what is discarded *)

(** C1 (as amended).  Whenever a step of the relay hands a [newMessage]
    frame to a transport, the step is the handling of a payload of type
    ['message'] from a registered connection, whose content is a string
    that is not empty once trimmed; the message broadcast carries that
    content, trimmed and cut to 1000 code units. *)
Theorem newMessage_only_for_relayed_content s env input ws' cm :
  (ws', JSON_stringify (NewMessage cm)) ∈ sent_since s (step s (env, input)) →
  ∃ ws m client text,
    input = MessageEvent ws (Some (PObject m)) ∧
    map_get ws (clients s) = Some client ∧
    type m = JString (units "message") ∧
    relayed_content m = Some text ∧
    cm = chat_message env client m text.
Proof.
  destruct input as [ws|ws [p|]|ws|ws]; cbn [step].
  - destruct (handleConnection_effect env ws s) as (l & _ & _ & Hs).
    rewrite (sent_since_app _ _ _ Hs).
    intros [[=] | (w & [=] & _)%list_elem_of_fmap]%elem_of_cons.
  - unfold on_message.
    destruct (handleMessage_effect env ws p s) as
      [_ [(m & client & text & -> & Hget & Hty & Hc) | (_ & _ & [Hs | Hs])]].
    + rewrite (handleMessage_accepts _ _ _ text client) by done. cbn [snd].
      rewrite broadcast_sent.
      destruct (saveMessage_frame env (chat_message env client m text)
                  (with_clients (map_set ws (touch env client)) s)) as (_ & _ & Hsent).
      unfold sent_since. cbn [sent]. rewrite Hsent. cbn [sent with_clients].
      rewrite drop_app_length.
      intros (w & [= _ ->] & _)%list_elem_of_fmap.
      by exists ws, m, client, text.
    + unfold sent_since. rewrite Hs, drop_all. by intros ?%elem_of_nil.
    + rewrite (sent_since_app _ _ _ Hs). by intros [=]%list_elem_of_singleton.
  - unfold sent_since. rewrite drop_all. by intros ?%elem_of_nil.
  - unfold on_close. rewrite broadcast_sent.
    unfold sent_since. cbn [sent with_clients]. rewrite drop_app_length.
    intros (w & [=] & _)%list_elem_of_fmap.
  - unfold on_error, sent_since. cbn [sent with_clients]. rewrite drop_all.
    by intros ?%elem_of_nil.
Qed.

(** C1 (as amended) on the message ["hi"] of the only client. *)
Lemma relayed_message_example :
  ∃ ws m client text,
    MessageEvent 1 (Some (text_message (units "hi"))) = MessageEvent ws (Some (PObject m)) ∧
    map_get ws (clients joined) = Some client ∧
    type m = JString (units "message") ∧
    relayed_content m = Some text ∧
    chat_message (at_time 1 "u1") (mkClientInfo "Ghost0001" "#FF6B6B" 0 0)
      (mkMessage (JString (units "message")) (JString (units "hi")) JUndefined) (units "hi")
    = chat_message (at_time 1 "u1") client m text.
Proof.
  apply (newMessage_only_for_relayed_content joined (at_time 1 "u1")
           (MessageEvent 1 (Some (text_message (units "hi")))) 1).
  apply list_elem_of_In. vm_compute. left. reflexivity.
Defined.

(** Against C1 as stated: a message that [validateMessage] rejects (it
    sanitizes to the empty string) is broadcast all the same; and of 21
    messages sent within 21 ms all are broadcast, where the limiter under
    the preset of 20 per 60000 ms rejects the 21st check. *)
Lemma broadcast_without_limiter_or_validator :
  let payload := text_message (units "<b></b>") in
  ServerEncryption.valid (ServerEncryption.validateMessage payload) = false ∧
  (∃ cm, sent_since joined (step joined (at_time 1 "u1", MessageEvent 1 (Some payload)))
         = [(1, JSON_stringify (NewMessage cm))]) ∧
  length (List.filter is_newMessage (outbox 1 (run burst joined))) = 21 ∧
  (∃ r, last (fst (RateLimit.checks "msg:1" 20 60000 (map (fun i => now (fst i)) burst) ∅))
        = Some r ∧ RateLimit.allowed r = false).
Proof.
  intros payload. split; [vm_compute; reflexivity|].
  split; [eexists; vm_compute; reflexivity|].
  split; [vm_compute; reflexivity|].
  eexists. split; [vm_compute; reflexivity | reflexivity].
Qed.

(** C2 (as amended).  A payload of type ['message'] whose content is
    absent, not a string, or empty once trimmed is discarded: the array of
    messages and the Redis key are unchanged and no frame is sent, to the
    sender or to anyone.  No event the relay sends has the type ['error']. *)
Theorem relay_discards_silently env ws m s :
  type m = JString (units "message") →
  relayed_content m = None →
  let s' := step s (env, MessageEvent ws (Some (PObject m))) in
  messages s' = messages s ∧ redis s' = redis s ∧ sent s' = sent s ∧
  ∀ e : Event, event_type e ≠ "error"%string.
Proof.
  intros Hty Hc s'. unfold s'. cbn [step on_message].
  split; [|split; [|split]]; [| | |by intros []].
  all: destruct (map_get ws (clients s)) as [client|] eqn:Hget;
    [rewrite (handleMessage_discards _ _ _ client) by done
    |rewrite handleMessage_unregistered by done]; done.
Qed.

(** C2 (as amended) on a message of three spaces. *)
Lemma blank_message_example :
  let s' := step joined (at_time 1 "u1", MessageEvent 1 (Some (text_message (units "   ")))) in
  messages s' = messages joined ∧ redis s' = redis joined ∧ sent s' = sent joined ∧
  ∀ e : Event, event_type e ≠ "error"%string.
Proof.
  apply (relay_discards_silently (at_time 1 "u1") 1
           (mkMessage (JString (units "message")) (JString (units "   ")) JUndefined) joined);
    reflexivity.
Defined.

(** Against C2 as stated: content of 1001 code units, which
    [validateMessage] rejects for its length, is cut to 1000, stored and
    broadcast; the only frame sent is the [newMessage], no ['error']. *)
Lemma no_error_event_for_invalid_length :
  let payload := text_message (replicate 1001 97%N) in
  let s' := step joined (at_time 1 "u1", MessageEvent 1 (Some payload)) in
  ServerEncryption.validateMessage payload
    = ServerEncryption.reject "Message content length invalid" ∧
  (∃ cm, messages s' = [cm] ∧ length (msg_content cm) = 1000 ∧
         sent_since joined s' = [(1, JSON_stringify (NewMessage cm))]).
Proof.
  intros payload s'. split; [vm_compute; reflexivity|].
  eexists. split; [vm_compute; reflexivity|]. split; vm_compute; reflexivity.
Qed.

(** *** Every reachable registry is well formed *)

Lemma step_registry_ok s i : registry_ok s → registry_ok (step s i).
Proof.
  unfold registry_ok. intros Hok.
  destruct i as [env [ws|ws [p|]|ws|ws]]; cbn [step].
  - destruct (handleConnection_effect env ws s) as (l & -> & _).
    rewrite map_set_keys. case_bool_decide as Hin; [done|].
    apply NoDup_app. split; [done|]. split; [|apply NoDup_singleton].
    intros w Hw ->%list_elem_of_singleton. done.
  - unfold on_message. by destruct (handleMessage_effect env ws p s) as [-> _].
  - done.
  - unfold on_close. rewrite broadcast_sent. cbn [clients with_clients].
    rewrite map_delete_keys. apply NoDup_ListNoDup, List.NoDup_filter.
    by apply NoDup_ListNoDup.
  - unfold on_error. cbn [clients with_clients].
    rewrite map_delete_keys. apply NoDup_ListNoDup, List.NoDup_filter.
    by apply NoDup_ListNoDup.
Qed.

Lemma run_registry_ok inputs : ∀ s, registry_ok s → registry_ok (run inputs s).
Proof.
  induction inputs as [|i inputs IH]; intros s Hok; [done|].
  cbn [run foldl]. apply IH. by apply step_registry_ok.
Qed.

Lemma reachable_registry_ok inputs : registry_ok (run inputs initial).
Proof. apply run_registry_ok. unfold registry_ok. cbn. apply NoDup_nil_2. Qed.

End RelayProofs.

(** ** The rate limiter: presets, status, reset and middleware *)

Module RateLimitOpsProofs.
Import RateLimit RateLimitOps RateLimitProofs.

Section Offline.
Context {R E : Type} (client : RedisClient R E) (admin : RedisKeys R E).

(** Without a ready manager a check is a check of the in-process backend. *)
Lemma checkLimit_not_ready env identifier options (w : World R) :
  isReady (redisManager w) = false →
  checkLimit client env identifier options w =
    (Ok (fst (checkMemoryLimit (now env) identifier (default 30 (maxRequests options))
                (default 60000 (windowMs options)) (inMemoryStore w))),
     {| redisManager := redisManager w;
        inMemoryStore :=
          snd (checkMemoryLimit (now env) identifier (default 30 (maxRequests options))
                 (default 60000 (windowMs options)) (inMemoryStore w)) |}).
Proof.
  intros Hready. unfold checkLimit, bind, get, memoryLimit. rewrite Hready.
  by destruct (checkMemoryLimit _ _ _ _ _).
Qed.

End Offline.

(** X1. The cleanup timer is invisible to a policy whose window is at
    most five minutes: a check made after a run of the timer gives the
    same decision and leaves the same record as without it. *)
Theorem cleanup_is_transparent (T now : Z) (identifier : string) (m w : Z)
    (store : gmap string (list Z)) :
  w <= 5 * 60 * 1000 → T <= now →
  fst (checkMemoryLimit now identifier m w (cleanup T store)) =
    fst (checkMemoryLimit now identifier m w store) ∧
  snd (checkMemoryLimit now identifier m w (cleanup T store)) !! identifier =
    snd (checkMemoryLimit now identifier m w store) !! identifier.
Proof.
  intros Hw HT. apply decision_depends_on_record.
  rewrite cleanup_lookup. apply filter_filter_later. lia.
Qed.

Lemma cleanup_is_transparent_example :
  fst (checkMemoryLimit 400000 "a" 2 60000 (cleanup 390000 {["a" := [10; 350000]]})) =
    fst (checkMemoryLimit 400000 "a" 2 60000 {["a" := [10; 350000]]}) ∧
  snd (checkMemoryLimit 400000 "a" 2 60000 (cleanup 390000 {["a" := [10; 350000]]})) !! "a" =
    snd (checkMemoryLimit 400000 "a" 2 60000 {["a" := [10; 350000]]}) !! "a".
Proof. apply cleanup_is_transparent; lia. Defined.

(** X2. The reset time of a rejection is honest: if the record held at
    most [m] entries, a check made at the reported [resetTime] or later is
    admitted. *)
Theorem admitted_again_at_reset_time (now now' : Z) (identifier : string) (m w : Z)
    (store : gmap string (list Z)) (t : Z) :
  Z.of_nat (length (default [] (store !! identifier))) <= m →
  let r := fst (checkMemoryLimit now identifier m w store) in
  let store' := snd (checkMemoryLimit now identifier m w store) in
  allowed r = false → resetTime r = Some t → t <= now' →
  allowed (fst (checkMemoryLimit now' identifier m w store')) = true.
Proof.
  intros Hlen r store' Hrej Hreset Hlater.
  pose proof (checkMemoryLimit_result now identifier m w store) as (Ha & _ & _).
  pose proof (checkMemoryLimit_lookup now identifier m w store) as Hst.
  fold r in Ha. fold store' in Hst. cbn zeta in Ha, Hst.
  set (valid := filter (λ t, now - w < t) (default [] (store !! identifier))) in *.
  rewrite Hrej in Ha. symmetry in Ha. apply negb_false_iff, bool_decide_eq_true in Ha.
  rewrite bool_decide_eq_true_2 in Hst by done.
  assert (resetTime r = match head valid with
                        | Some t => new_Date (t + w)
                        | None => None
                        end) as Hr.
  { unfold r, checkMemoryLimit.
    assert (default [] (match store !! identifier with Some _ => store
                         | None => <[identifier:=[]]> store end !! identifier)
            = default [] (store !! identifier)) as ->.
    { destruct (store !! identifier) eqn:H; [by rewrite H|]. by rewrite lookup_insert_eq. }
    fold valid. by rewrite bool_decide_eq_true_2 by done. }
  rewrite Hreset in Hr. destruct valid as [|h valid'] eqn:Hv; [done|].
  cbn [head] in Hr. unfold new_Date in Hr.
  destruct (Z.abs (h + w) <=? maxDate); [|done]. injection Hr as ->.
  pose proof (checkMemoryLimit_result now' identifier m w store') as (Ha' & _ & _).
  cbn zeta in Ha'. rewrite Ha', Hst. cbn [default from_option Datatypes.id].
  apply negb_true_iff, bool_decide_eq_false.
  pose proof (length_filter (λ t, now - w < t) (default [] (store !! identifier))) as H1.
  fold valid in H1. rewrite Hv in H1.
  assert (length (filter (λ t : Z, (now' - w < t)%Z) (h :: valid')) < length (h :: valid'))%nat.
  { apply (length_filter_lt _ _ h); [left | lia]. }
  lia.
Qed.

Lemma admitted_again_example :
  allowed (fst (checkMemoryLimit 1500 "a" 2 1000
                  (snd (checkMemoryLimit 900 "a" 2 1000 {["a" := [500; 600]]})))) = true.
Proof.
  apply (admitted_again_at_reset_time 900 1500 "a" 2 1000 {["a" := [500; 600]]} 1500);
    [vm_compute; discriminate | reflexivity | reflexivity | lia].
Defined.

(** *** [reset] *)

Lemma startsWith_app needle rest : startsWith needle (needle +:+ rest) = true.
Proof.
  induction needle as [|a needle IH]; [done|].
  change (String a needle +:+ rest) with (String a (needle +:+ rest)).
  cbn [startsWith]. by rewrite Ascii.eqb_refl, IH.
Qed.

Lemma includes_infix (before needle after : string) :
  includes needle (before +:+ needle +:+ after) = true.
Proof.
  induction before as [|a before IH].
  - change ("" +:+ needle +:+ after) with (needle +:+ after).
    destruct (needle +:+ after) eqn:H; cbn [includes];
      rewrite <-H, startsWith_app; done.
  - change (String a before +:+ needle +:+ after)
      with (String a (before +:+ needle +:+ after)).
    cbn [includes]. rewrite IH. apply orb_true_r.
Qed.

Section Reset.
Context {R E : Type} (client : RedisClient R E) (admin : RedisKeys R E).

Lemma forget_lookup identifier (store : gmap string (list Z)) key :
  forget identifier store !! key =
  if includes identifier key then None else store !! key.
Proof.
  unfold forget. destruct (includes identifier key) eqn:Hinc.
  - apply map_lookup_filter_None. right. intros l _. cbn. by rewrite Hinc.
  - destruct (store !! key) as [l|] eqn:Hl.
    + apply map_lookup_filter_Some. by split.
    + apply map_lookup_filter_None. by left.
Qed.

(** X3. [reset] never throws, whatever the Redis client does; it removes
    from the in-process store every key that contains the identifier and
    no other, so the next in-process check of any such key, under a limit
    of at least one, is admitted with [m - 1] remaining. *)
Theorem reset_unblocks (identifier : string) (w : World R) :
  ∃ w', reset admin identifier w = (Ok tt, w') ∧
    (∀ key, inMemoryStore w' !! key =
            if includes identifier key then None else inMemoryStore w !! key) ∧
    (∀ now before after m wms,
       1 <= m →
       let r := fst (checkMemoryLimit now (before +:+ identifier +:+ after) m wms
                       (inMemoryStore w')) in
       allowed r = true ∧ remaining r = m - 1).
Proof.
  unfold reset, bind at 1 2, get, modify.
  set (attempt := if isReady (redisManager w) then _ else _).
  assert (∃ w1, attempt w = (Ok tt, w1) ∧ inMemoryStore w1 = inMemoryStore w) as (w1 & -> & Hw1).
  { unfold attempt. destruct (isReady (redisManager w)); [|by eexists].
    unfold try_catch, bind, ret.
    pose proof (redis_store (keys admin ("ratelimit:*" +:+ identifier +:+ "*")) w) as H1.
    destruct (redis (keys admin _) w) as [[found|e] wa]; cbn [snd] in H1; [|by eexists].
    destruct (0 <? length found)%nat; [|by eexists].
    pose proof (redis_store (del admin found) wa) as H2.
    destruct (redis (del admin found) wa) as [[n|e] wb]; cbn [snd] in H2;
      eexists; (split; [reflexivity | congruence]). }
  eexists. split; [reflexivity|]. cbn [inMemoryStore]. rewrite Hw1. split.
  - apply forget_lookup.
  - intros now0 before after m wms Hm.
    pose proof (checkMemoryLimit_result now0 (before +:+ identifier +:+ after) m wms
                  (forget identifier (inMemoryStore w))) as (Ha & _ & Hrem).
    cbn zeta in Ha, Hrem.
    rewrite forget_lookup, includes_infix in Ha, Hrem. cbn in Ha, Hrem.
    rewrite bool_decide_eq_false_2 in Ha by lia. split; [done|].
    rewrite Hrem by done. lia.
Qed.
End Reset.

Lemma reset_unblocks_example :
  ∃ w', reset unreachable_keys "1.2.3.4"
          {| redisManager := {| hasClient := true; isConnected := true; server := tt |};
             inMemoryStore := {["msg:1.2.3.4" := [1; 2; 3]]} |} = (Ok tt, w') ∧
        allowed (fst (checkMemoryLimit 4 "msg:1.2.3.4" 3 60000 (inMemoryStore w'))) = true.
Proof.
  destruct (reset_unblocks unreachable_keys "1.2.3.4"
              {| redisManager := {| hasClient := true; isConnected := true; server := tt |};
                 inMemoryStore := {["msg:1.2.3.4" := [1; 2; 3]]} |}) as (w' & Hr & _ & Hu).
  exists w'. split; [exact Hr|].
  exact (proj1 (Hu 4 "msg:" "" 3 60000 ltac:(lia))).
Defined.

(** *** [getStatus] *)

Lemma string_length_app (a b : string) :
  String.length (a +:+ b) = (String.length a + String.length b)%nat.
Proof.
  induction a as [|c a IH]; [done|].
  change (String c a +:+ b) with (String c (a +:+ b)). cbn. by rewrite IH.
Qed.

Lemma prefixed_is_different (prefix identifier : string) :
  prefix ≠ ""%string → (prefix +:+ identifier)%string ≠ identifier.
Proof.
  intros Hp Heq. apply (f_equal String.length) in Heq.
  rewrite string_length_app in Heq. destruct prefix; [done|]. cbn in Heq. lia.
Qed.

Section Status.
Context {R E : Type} (client : RedisClient R E).

(** X4. With the manager not ready, [getStatus] right after a check of
    the same identifier reports as [currentRequests] the [totalHits] of
    that check, and changes nothing; a check made through a prefixed
    preset does not show in the status of the bare identifier. *)
Theorem getStatus_reports_the_hits (env env' : Env) (identifier : string)
    (options : Options) (w : World R) :
  isReady (redisManager w) = false →
  ∃ r w1 status,
    checkLimit client env identifier options w = (Ok r, w1) ∧
    getStatus client env' identifier w1 = (Ok status, w1) ∧
    currentRequests status = totalHits r ∧
    (∀ prefix, prefix ≠ ""%string →
       fst (getStatus client env' identifier w) =
       fst (getStatus client env' identifier
              (snd (checkLimit client env (prefix +:+ identifier) options w)))).
Proof.
  intros Hready.
  set (m := default 30 (maxRequests options)). set (wms := default 60000 (windowMs options)).
  assert (∀ st : gmap string (list Z),
    getStatus client env' identifier {| redisManager := redisManager w; inMemoryStore := st |}
    = (Ok {| currentRequests := Z.of_nat (length (default [] (st !! identifier)));
             statusResetTime :=
               (fun t => new_Date (t + 60000)) <$> head (default [] (st !! identifier)) |},
       {| redisManager := redisManager w; inMemoryStore := st |})) as Hstatus.
  { intros st. unfold getStatus, bind, get, ret. cbn [redisManager inMemoryStore].
    by rewrite Hready. }
  rewrite checkLimit_not_ready by done. fold m wms.
  eexists _, _, _. split; [reflexivity|]. split; [apply Hstatus|]. split.
  - cbn [currentRequests]. rewrite checkMemoryLimit_lookup. cbn [default from_option Datatypes.id].
    unfold checkMemoryLimit.
    assert (default [] (match inMemoryStore w !! identifier with Some _ => inMemoryStore w
                         | None => <[identifier:=[]]> (inMemoryStore w) end !! identifier)
            = default [] (inMemoryStore w !! identifier)) as ->.
    { destruct (inMemoryStore w !! identifier) eqn:H; [by rewrite H|]. by rewrite lookup_insert_eq. }
    by case_bool_decide.
  - intros prefix Hp. rewrite checkLimit_not_ready by done. cbn [snd].
    destruct w as [mgr st]. cbn [redisManager inMemoryStore] in *.
    rewrite !Hstatus. cbn [fst].
    rewrite checkMemoryLimit_lookup_ne; [done|]. by apply prefixed_is_different.
Qed.
End Status.

Lemma getStatus_example :
  ∃ r w1 status,
    checkLimit unreachable {| now := 7; random := "0.5"; later := 8 |} "a"
      {| maxRequests := Some 3; windowMs := None |} (offline {["a" := [5]]}) = (Ok r, w1) ∧
    getStatus unreachable {| now := 9; random := "0.5"; later := 9 |} "a" w1 = (Ok status, w1) ∧
    currentRequests status = totalHits r.
Proof.
  destruct (getStatus_reports_the_hits unreachable {| now := 7; random := "0.5"; later := 8 |}
              {| now := 9; random := "0.5"; later := 9 |} "a"
              {| maxRequests := Some 3; windowMs := None |} (offline {["a" := [5]]}) eq_refl)
    as (r & w1 & status & H1 & H2 & H3 & _).
  by exists r, w1, status.
Defined.

(** *** Independent records *)

Lemma checkMemoryLimit_lookup_other now id id' m w (st : gmap string (list Z)) :
  id' ≠ id → snd (checkMemoryLimit now id' m w st) !! id = st !! id.
Proof.
  intros Hne. unfold checkMemoryLimit.
  destruct (st !! id') as [l|] eqn:Hl; case_bool_decide; cbn [snd];
    rewrite ?lookup_insert_ne by done; done.
Qed.

(** X5. In-process checks of two different identifiers do not see each
    other: each decision is the same whichever comes first, and the two
    orders leave the same store. *)
Theorem checks_of_different_identifiers_commute
    (now1 now2 : Z) (a b : string) (m1 w1 m2 w2 : Z) (store : gmap string (list Z)) :
  a ≠ b →
  let after_a := checkMemoryLimit now1 a m1 w1 store in
  let after_b := checkMemoryLimit now2 b m2 w2 store in
  fst (checkMemoryLimit now2 b m2 w2 (snd after_a)) = fst after_b ∧
  fst (checkMemoryLimit now1 a m1 w1 (snd after_b)) = fst after_a ∧
  snd (checkMemoryLimit now2 b m2 w2 (snd after_a)) =
  snd (checkMemoryLimit now1 a m1 w1 (snd after_b)).
Proof.
  intros Hab after_a after_b. unfold after_a, after_b.
  split; [|split].
  - apply decision_depends_on_record. by rewrite checkMemoryLimit_lookup_other.
  - apply decision_depends_on_record. by rewrite checkMemoryLimit_lookup_other.
  - apply map_eq. intros k.
    destruct (decide (k = a)) as [->|Hka]; [|destruct (decide (k = b)) as [->|Hkb]].
    + rewrite checkMemoryLimit_lookup_other by done.
      rewrite !checkMemoryLimit_lookup. by rewrite checkMemoryLimit_lookup_other.
    + rewrite (checkMemoryLimit_lookup_other now1 b a) by done.
      rewrite !checkMemoryLimit_lookup. by rewrite checkMemoryLimit_lookup_other.
    + by rewrite !checkMemoryLimit_lookup_other.
Qed.

Lemma two_identifiers_example :
  let store : gmap string (list Z) := {["a" := [1]; "b" := [2; 3]]} in
  fst (checkMemoryLimit 5 "b" 2 100 (snd (checkMemoryLimit 4 "a" 2 100 store))) =
    fst (checkMemoryLimit 5 "b" 2 100 store) ∧
  fst (checkMemoryLimit 4 "a" 2 100 (snd (checkMemoryLimit 5 "b" 2 100 store))) =
    fst (checkMemoryLimit 4 "a" 2 100 store) ∧
  snd (checkMemoryLimit 5 "b" 2 100 (snd (checkMemoryLimit 4 "a" 2 100 store))) =
  snd (checkMemoryLimit 4 "a" 2 100 (snd (checkMemoryLimit 5 "b" 2 100 store))).
Proof.
  intros store. apply (checks_of_different_identifiers_commute 4 5 "a" "b" 2 100 2 100 store).
  discriminate.
Defined.

Section Presets.
Context {R E : Type} (client : RedisClient R E).

(** X6. The presets (message, connection, burst, WebSocket) keep
    separate records: with the manager not ready, a check through one
    preset never changes the decision of a later check through another,
    even for the same identifier. *)
Theorem presets_keep_separate_records (p q : Preset) (env1 env2 : Env) (a b : string)
    (o1 o2 : Options) (w : World R) :
  p ≠ q → isReady (redisManager w) = false →
  fst (checkPreset client q env2 b o2 (snd (checkPreset client p env1 a o1 w))) =
  fst (checkPreset client q env2 b o2 w).
Proof.
  intros Hpq Hready.
  destruct p, q; try done; cbn [checkPreset];
    unfold checkMessageLimit, checkConnectionLimit, checkBurstLimit, checkWebSocketLimit;
    rewrite !checkLimit_not_ready by (rewrite ?checkLimit_not_ready by done; done);
    cbn [fst snd inMemoryStore redisManager]; f_equal;
    apply decision_depends_on_record;
    rewrite checkMemoryLimit_lookup_other; done.
Qed.
End Presets.

Lemma presets_example :
  fst (checkPreset unreachable Connection {| now := 2; random := "0.5"; later := 2 |} "x"
         {| maxRequests := None; windowMs := None |}
         (snd (checkPreset unreachable Message {| now := 1; random := "0.5"; later := 1 |} "x"
                 {| maxRequests := None; windowMs := None |} (offline ∅)))) =
  fst (checkPreset unreachable Connection {| now := 2; random := "0.5"; later := 2 |} "x"
         {| maxRequests := None; windowMs := None |} (offline ∅)).
Proof.
  apply (presets_keep_separate_records unreachable Message Connection); [discriminate | reflexivity].
Defined.

(** *** The middleware *)

Lemma ceil_div_1000_mono x y : x <= y → ceil_div_1000 x <= ceil_div_1000 y.
Proof.
  intros H. unfold ceil_div_1000.
  assert ((- y) / 1000 <= (- x) / 1000) by (apply Z.div_le_mono; lia). lia.
Qed.

Lemma ceil_div_1000_pos x : 0 < x → 1 <= ceil_div_1000 x.
Proof.
  intros H. unfold ceil_div_1000.
  assert ((- x) / 1000 < 0) by (apply Z.div_lt_upper_bound; lia). lia.
Qed.

Section Middleware.
Context {R E : Type} (client : RedisClient R E).

Lemma middleware_not_ready env clock identifier options (w : World R) :
  isReady (redisManager w) = false →
  let m := default 30 (maxRequests options) in
  let wms := default 60000 (windowMs options) in
  let result := fst (checkMemoryLimit (now env) identifier m wms (inMemoryStore w)) in
  let w' := {| redisManager := redisManager w;
               inMemoryStore :=
                 snd (checkMemoryLimit (now env) identifier m wms (inMemoryStore w)) |} in
  middleware client env clock identifier options w =
  (Ok match resetTime result with
      | None => Next None
      | Some reset =>
          let headers :=
            {| limit := match maxRequests options with
                        | Some m => if m =? 0 then 30 else m
                        | None => 30
                        end;
               headerRemaining := remaining result;
               headerReset := reset |} in
          if negb (allowed result) then
            TooManyRequests headers (ceil_div_1000 (reset - clock))
          else Next (Some headers)
      end, w').
Proof.
  intros Hready m wms result w'. unfold middleware, try_catch, bind, ret.
  rewrite checkLimit_not_ready by done. fold m wms result w'.
  destruct (resetTime result); [|done]. by destruct (allowed result).
Qed.

(** X7. Under a limit of zero or less the middleware stops nothing: with
    the manager not ready and no record yet, the check rejects with an
    invalid reset date, writing the headers throws, and the request is
    passed on without headers. *)
Theorem middleware_passes_all_under_limit_zero (env : Env) (clock : Z)
    (identifier : string) (options : Options) (m : Z) (w : World R) :
  isReady (redisManager w) = false →
  maxRequests options = Some m → m <= 0 →
  default [] (inMemoryStore w !! identifier) = [] →
  ∃ w', middleware client env clock identifier options w = (Ok (Next None), w') ∧
        isReady (redisManager w') = false ∧
        default [] (inMemoryStore w' !! identifier) = [].
Proof.
  intros Hready Hm Hle Hempty. rewrite middleware_not_ready by done.
  rewrite Hm. cbn [default from_option Datatypes.id].
  set (wms := default 60000 (windowMs options)).
  assert (resetTime (fst (checkMemoryLimit (now env) identifier m wms (inMemoryStore w)))
          = None) as ->.
  { unfold checkMemoryLimit.
    assert (default [] (match inMemoryStore w !! identifier with Some _ => inMemoryStore w
                         | None => <[identifier:=[]]> (inMemoryStore w) end !! identifier)
            = []) as ->.
    { destruct (inMemoryStore w !! identifier) eqn:H; [by rewrite H|]. by rewrite lookup_insert_eq. }
    rewrite filter_nil. by rewrite bool_decide_eq_true_2 by (cbn; lia). }
  eexists. split; [reflexivity|]. split; [exact Hready|].
  cbn [inMemoryStore]. rewrite checkMemoryLimit_lookup, Hempty, filter_nil.
  cbn zeta. by rewrite bool_decide_eq_true_2 by (cbn; lia).
Qed.

(** X8. Under a limit of at least one, with the manager not ready and
    clock, window and record within the range of [Date], the middleware
    either passes the request on with headers ([remaining] between 0 and
    [m - 1], reset one window ahead) or answers 429 with [remaining] 0
    and a [Retry-After] of at most the window in seconds, at least 1 when
    no time has passed; it never passes without headers. *)
Theorem middleware_answers (env : Env) (clock : Z) (identifier : string)
    (options : Options) (w : World R) :
  let m := default 30 (maxRequests options) in
  let wms := default 60000 (windowMs options) in
  isReady (redisManager w) = false →
  1 <= m →
  in_date_range (now env) wms (default [] (inMemoryStore w !! identifier)) = true →
  now env <= clock →
  ∃ outcome w',
    middleware client env clock identifier options w = (Ok outcome, w') ∧
    match outcome with
    | Next (Some headers) =>
        0 <= headerRemaining headers < m ∧ headerReset headers = now env + wms
    | TooManyRequests headers retryAfter =>
        headerRemaining headers = 0 ∧
        retryAfter <= ceil_div_1000 wms ∧
        (clock = now env → 1 <= retryAfter)
    | Next None => False
    end.
Proof.
  intros m wms Hready Hm Hrange Hclock. rewrite middleware_not_ready by done.
  fold m wms. eexists _, _. split; [reflexivity|].
  unfold in_date_range in Hrange.
  apply andb_prop in Hrange as [[[Hnow Hw]%andb_prop Hmax]%andb_prop Hpast].
  apply Z.leb_le in Hnow, Hw, Hmax. rewrite forallb_forall in Hpast.
  unfold checkMemoryLimit.
  assert (default [] (match inMemoryStore w !! identifier with Some _ => inMemoryStore w
                       | None => <[identifier:=[]]> (inMemoryStore w) end !! identifier)
          = default [] (inMemoryStore w !! identifier)) as ->.
  { destruct (inMemoryStore w !! identifier) eqn:H; [by rewrite H|]. by rewrite lookup_insert_eq. }
  set (valid := filter _ _).
  case_bool_decide as Hfull; cbn [fst resetTime allowed remaining negb].
  - destruct valid as [|h valid'] eqn:Hv; [cbn in Hfull; lia|].
    assert (h ∈ valid) as Hh by (rewrite Hv; left).
    apply list_elem_of_filter in Hh as [Hnew Hold%list_elem_of_In%Hpast%Z.leb_le].
    cbn [head]. rewrite new_Date_valid by lia.
    cbn [negb headerRemaining]. split; [done|].
    split.
    + apply ceil_div_1000_mono. lia.
    + intros ->. apply ceil_div_1000_pos. lia.
  - rewrite new_Date_valid by lia.
    rewrite length_app. cbn [length headerRemaining headerReset]. split; [lia | done].
Qed.
End Middleware.

Lemma middleware_limit_zero_example :
  ∃ w', middleware unreachable {| now := 10; random := "0.5"; later := 10 |} 10 "1.2.3.4"
          {| maxRequests := Some 0; windowMs := None |} (offline ∅) = (Ok (Next None), w') ∧
        isReady (redisManager w') = false ∧
        default [] (inMemoryStore w' !! "1.2.3.4") = [].
Proof.
  apply (middleware_passes_all_under_limit_zero unreachable _ _ _ _ 0);
    [reflexivity | reflexivity | lia | reflexivity].
Defined.

Lemma middleware_answers_example :
  ∃ outcome w',
    middleware unreachable {| now := 10; random := "0.5"; later := 10 |} 12 "1.2.3.4"
      {| maxRequests := Some 2; windowMs := Some 5000 |}
      (offline {["1.2.3.4" := [8; 9]]}) = (Ok outcome, w') ∧
    match outcome with
    | Next (Some headers) =>
        0 <= headerRemaining headers < 2 ∧ headerReset headers = 10 + 5000
    | TooManyRequests headers retryAfter =>
        headerRemaining headers = 0 ∧
        retryAfter <= ceil_div_1000 5000 ∧
        (12 = 10 → 1 <= retryAfter)
    | Next None => False
    end.
Proof.
  apply (middleware_answers unreachable {| now := 10; random := "0.5"; later := 10 |} 12
           "1.2.3.4" {| maxRequests := Some 2; windowMs := Some 5000 |}
           (offline {["1.2.3.4" := [8; 9]]})); by vm_compute.
Defined.

End RateLimitOpsProofs.

(** ** The HTTP endpoint of the recent messages *)

Module MessagesApiProofs.
Import RateLimit MessagesApi RateLimitProofs.



Lemma default_after_has (mp : gmap string (list Z)) ip :
  default [] (match mp !! ip with Some _ => mp | None => <[ip:=[]]> mp end !! ip)
  = default [] (mp !! ip).
Proof. destruct (mp !! ip) eqn:H; [by rewrite H|]. by rewrite lookup_insert_eq. Qed.

Lemma rateLimit_decision now ip m w (mp : gmap string (list Z)) :
  fst (rateLimit now ip m w mp) =
  negb (bool_decide (m <= Z.of_nat (length (filter (λ t, now - w < t) (default [] (mp !! ip)))))).
Proof. unfold rateLimit. rewrite default_after_has. by case_bool_decide. Qed.

Lemma rateLimit_lookup now ip m w (mp : gmap string (list Z)) :
  default [] (snd (rateLimit now ip m w mp) !! ip) =
  let v := filter (λ t, now - w < t) (default [] (mp !! ip)) in
  if bool_decide (m <= Z.of_nat (length v)) then default [] (mp !! ip) else v ++ [now].
Proof.
  unfold rateLimit. rewrite default_after_has. cbn zeta.
  case_bool_decide; cbn [snd]; [apply default_after_has | by rewrite lookup_insert_eq].
Qed.

Lemma later_filter (a b : Z) (l : list Z) :
  a <= b → filter (λ t, b < t) (filter (λ t, a < t) l) = filter (λ t, b < t) l.
Proof.
  intros Hab. induction l as [|x l IH]; [done|].
  destruct (decide (a < x)) as [Hx|Hx].
  - rewrite (filter_cons_True (λ t, a < t)) by done.
    destruct (decide (b < x)).
    + rewrite !(filter_cons_True (λ t, b < t)) by done. by rewrite IH.
    + rewrite !(filter_cons_False (λ t, b < t)) by done. done.
  - rewrite (filter_cons_False (λ t, a < t)) by done.
    rewrite (filter_cons_False (λ t, b < t)) by lia. done.
Qed.

Lemma rateLimits_cons ip m w now times (mp : gmap string (list Z)) :
  fst (rateLimits ip m w (now :: times) mp) =
  fst (rateLimit now ip m w mp) :: fst (rateLimits ip m w times (snd (rateLimit now ip m w mp))).
Proof.
  cbn [rateLimits]. destruct (rateLimit now ip m w mp) as [ok mp']. cbn [fst snd].
  by destruct (rateLimits ip m w times mp').
Qed.

Lemma checks_cons ip m w now times (st : gmap string (list Z)) :
  fst (checks ip m w (now :: times) st) =
  fst (checkMemoryLimit now ip m w st)
    :: fst (checks ip m w times (snd (checkMemoryLimit now ip m w st))).
Proof.
  cbn [checks]. destruct (checkMemoryLimit now ip m w st) as [r st']. cbn [fst snd].
  by destruct (checks ip m w times st').
Qed.

Lemma rateLimits_agree ip m w : ∀ times (mp st : gmap string (list Z)),
  nondecreasing times = true →
  (∀ t, t ∈ times →
     filter (λ x, t - w < x) (default [] (mp !! ip)) =
     filter (λ x, t - w < x) (default [] (st !! ip))) →
  fst (rateLimits ip m w times mp) = allowed <$> fst (checks ip m w times st).
Proof.
  induction times as [|now times IH]; intros mp st Hmono Hrel; [done|].
  cbn [nondecreasing] in Hmono. apply andb_prop in Hmono as [Hnow Hmono].
  rewrite forallb_forall in Hnow.
  rewrite rateLimits_cons, checks_cons. cbn [fmap list_fmap].
  pose proof (checkMemoryLimit_result now ip m w st) as (Ha & _ & _). cbn zeta in Ha.
  rewrite rateLimit_decision, Ha, (Hrel now) by left. f_equal.
  apply IH; [done|].
  intros t Ht. rewrite rateLimit_lookup, checkMemoryLimit_lookup.
  cbn [default from_option Datatypes.id]. cbn zeta. rewrite (Hrel now) by left.
  assert (now <= t) by (apply list_elem_of_In, Hnow in Ht; lia).
  case_bool_decide; [|done].
  rewrite later_filter by lia. apply Hrel. by right.
Qed.

(** X9. Over calls in the order of the clock, [rateLimit] of the messages
    endpoint lets in exactly the calls that [checkMemoryLimit] of the
    rate-limit module admits under the same policy, although it stores the
    pruned record only when it lets the call in. *)
Theorem rateLimit_decides_like_checkMemoryLimit (ip : string) (m w : Z)
    (times : list Z) (store : gmap string (list Z)) :
  nondecreasing times = true →
  fst (rateLimits ip m w times store) = allowed <$> fst (checks ip m w times store).
Proof. intros Hmono. by apply rateLimits_agree. Qed.

Lemma two_limiters_example :
  fst (rateLimits "1.2.3.4" 2 100 [10; 20; 30; 115; 125] ∅) =
  allowed <$> fst (checks "1.2.3.4" 2 100 [10; 20; 30; 115; 125] ∅).
Proof. apply rateLimit_decides_like_checkMemoryLimit. reflexivity. Defined.

(** *** The handler *)

Lemma lastN_reverse {A} (n : nat) (l : list A) : lastN n (reverse l) = reverse (take n l).
Proof. unfold lastN. by rewrite reverse_take, length_reverse. Qed.

Lemma lastN_lastN {A} (n m : nat) (l : list A) :
  (n <= m)%nat → lastN n (lastN m l) = lastN n l.
Proof.
  intros Hnm. unfold lastN. rewrite length_drop, drop_drop. f_equal. lia.
Qed.

Lemma handler_get {A} (env : Env) (req : Request) (st : State A) :
  method req = "GET"%string →
  fst (rateLimit (now env) (clientIP req) 30 60000 (rateLimitMap st)) = true →
  redisReady env = true → fault env = false →
  Redis.alive (now env) (redis st) = redis st →
  let stored := reverse (map JSON_parse (Redis.items (redis st))) in
  fst (handler env req st) =
    {| status := 200;
       body := Messages (lastN 50 stored) (Nat.min 50 (length stored)) |}.
Proof.
  intros Hget Hok Hready Hfault Halive stored. unfold handler.
  rewrite Hget. cbn [String.eqb Ascii.eqb Bool.eqb andb].
  destruct (rateLimit _ _ _ _ _) as [ok map']. cbn [fst] in Hok. subst ok.
  cbn [negb redis]. rewrite Hready, Hfault. unfold Redis.command, Redis.lRange.
  rewrite Halive. cbn [fst].
  change 49 with (Z.of_nat 50 - 1). rewrite StoreProofs.range_first.
  assert (reverse (map JSON_parse (take 50 (Redis.items (redis st)))) = lastN 50 stored) as ->.
  { unfold stored. by rewrite lastN_reverse, firstn_map. }
  do 2 f_equal. unfold lastN. rewrite length_drop. lia.
Qed.

(** The status of a request that is no preflight tells what the limiter
    said. *)
Lemma handler_limited {A} (env : Env) (req : Request) (st : State A) :
  String.eqb (method req) "OPTIONS" = false →
  negb (status (fst (handler env req st)) =? 429) =
    fst (rateLimit (now env) (clientIP req) 30 60000 (rateLimitMap st)) ∧
  rateLimitMap (snd (handler env req st)) =
    snd (rateLimit (now env) (clientIP req) 30 60000 (rateLimitMap st)).
Proof.
  intros Hopt. unfold handler. rewrite Hopt.
  destruct (rateLimit _ _ _ _ _) as [[] map']; cbn [negb fst snd]; [|done].
  destruct (String.eqb (method req) "GET"); [|done].
  destruct (redisReady env); [|done].
  by destruct (Redis.command _ _ _) as [[] ?].
Qed.

Lemma serve_limited {A} (ip : string) (reqs : list (Env * Request)) : ∀ st : State A,
  forallb (counted ip) reqs = true →
  map (λ r, negb (status r =? 429)) (fst (serve reqs st)) =
    fst (rateLimits ip 30 60000 (map (λ er, now er.1) reqs) (rateLimitMap st)).
Proof.
  induction reqs as [|[env req] reqs IH]; intros st Hall; [done|].
  cbn [forallb] in Hall. apply andb_prop in Hall as [Hc Hall].
  unfold counted in Hc. cbn [fst snd] in Hc.
  apply andb_prop in Hc as [Hip Hopt]. apply String.eqb_eq in Hip.
  apply negb_true_iff in Hopt.
  destruct (handler_limited env req st Hopt) as [Hs Hm].
  cbn [serve map fst].
  rewrite rateLimits_cons. cbn [fst].
  destruct (handler env req st) as [r st'] eqn:Hh. cbn [fst snd] in Hs, Hm.
  specialize (IH st' Hall).
  destruct (serve reqs st') as [rs st''] eqn:Hserve. cbn [fst map] in *.
  rewrite Hip in Hs, Hm. by rewrite Hs, IH, Hm.
Qed.

Section Get.
Context {A : Type}.

(** X10. A [GET] that the limiter lets in, with the shared store up,
    answers 200 with the newest 50 of the stored messages, oldest first,
    and [count] is their number. *)
Theorem get_returns_the_newest_fifty (env : Env) (req : Request) (st : State A) :
  method req = "GET"%string →
  fst (rateLimit (now env) (clientIP req) 30 60000 (rateLimitMap st)) = true →
  redisReady env = true → fault env = false →
  Redis.alive (now env) (redis st) = redis st →
  let stored := reverse (map JSON_parse (Redis.items (redis st))) in
  fst (handler env req st) =
    {| status := 200;
       body := Messages (lastN 50 stored) (Nat.min 50 (length stored)) |}.
Proof. apply handler_get. Qed.

End Get.

Lemma get_of_three_example :
  fst (handler (get_at "1.2.3.4" 5).1 (get_at "1.2.3.4" 5).2
         (fresh (Redis.mkKey [Stringified 3%nat; Stringified 2%nat; Stringified 1%nat] None))) =
    {| status := 200; body := Messages [1%nat; 2%nat; 3%nat] 3 |}.
Proof.
  apply (get_returns_the_newest_fifty (get_at "1.2.3.4" 5).1 (get_at "1.2.3.4" 5).2
           (fresh (Redis.mkKey [Stringified 3%nat; Stringified 2%nat; Stringified 1%nat] None)));
    by vm_compute.
Defined.

(** X11. What the relay has saved in the shared store, the endpoint
    serves: after [saveAll log], a [GET] answers the last 50 messages of
    the log in the order they were sent. *)
Theorem endpoint_serves_what_the_relay_saved
    (log : list (ChatServer.Env * ChatServer.ChatMessage)) (s : ChatServer.Server)
    (env : Env) (req : Request) (limits : RateLimitMap) :
  forallb ChatServer.shared (map fst log) = true →
  ChatServer.redis s = Redis.empty →
  method req = "GET"%string →
  fst (rateLimit (now env) (clientIP req) 30 60000 limits) = true →
  redisReady env = true → fault env = false →
  fst (handler env req
         {| rateLimitMap := limits;
            redis := ChatServer.redis (ChatServer.saveAll log s) |}) =
    {| status := 200;
       body := Messages (lastN 50 (map snd log)) (Nat.min 50 (length log)) |}.
Proof.
  intros Hall Hempty Hget Hok Hready Hfault.
  rewrite handler_get; try done.
  - rewrite StoreProofs.Shared.saveAll_shared by done.
    cbn [redis ChatServer.redis Redis.items].
    rewrite StoreProofs.read_back, lastN_lastN by lia.
    do 2 f_equal. unfold lastN. rewrite length_drop, length_map. lia.
  - rewrite StoreProofs.Shared.saveAll_shared by done.
    cbn [redis ChatServer.redis]. apply StoreProofs.alive_None. done.
Qed.

Lemma sixty_messages_example :
  fst (handler (get_at "1.2.3.4" 61).1 (get_at "1.2.3.4" 61).2
         {| rateLimitMap := ∅;
            redis := ChatServer.redis
              (ChatServer.saveAll
                 (map (λ k, (ChatServer.online k, ChatServer.numbered k)) (seq 1 60))
                 ChatServer.initial) |}) =
    {| status := 200;
       body := Messages
         (lastN 50 (map snd (map (λ k, (ChatServer.online k, ChatServer.numbered k)) (seq 1 60))))
         (Nat.min 50
            (length (map (λ k, (ChatServer.online k, ChatServer.numbered k)) (seq 1 60)))) |}.
Proof.
  apply (endpoint_serves_what_the_relay_saved
           (map (λ k, (ChatServer.online k, ChatServer.numbered k)) (seq 1 60))
           ChatServer.initial (get_at "1.2.3.4" 61).1 (get_at "1.2.3.4" 61).2 ∅);
    by vm_compute.
Defined.

(** X12. Of the requests of one address that are no preflight, made
    within one minute from an empty record, the first 30 are not answered
    429 and every later one is, whatever their methods. *)
Theorem endpoint_admits_thirty_a_minute {A} (ip : string)
    (reqs : list (Env * Request)) (st : State A) :
  forallb (counted ip) reqs = true →
  rateLimitMap st !! ip = None →
  nondecreasing (map (λ er, now er.1) reqs) = true →
  within_window 60000 (map (λ er, now er.1) reqs) = true →
  length (fst (serve reqs st)) = length reqs ∧
  ∀ k r, fst (serve reqs st) !! k = Some r → status r = 429 ↔ (30 <= k)%nat.
Proof.
  intros Hall Hnone Hmono Hwin.
  pose proof (serve_limited ip reqs st Hall) as Hs.
  rewrite (rateLimits_agree ip 30 60000 _ _ (rateLimitMap st)) in Hs by done.
  destruct (checks_within_window ip 30 60000 (map (λ er, now er.1) reqs)
              (rateLimitMap st) [] ) as [Hlen Hres].
  { by rewrite Hnone. } { intros p t Hp. by apply elem_of_nil in Hp. } { done. }
  apply (f_equal length) in Hs as Hl.
  change (allowed <$> ?l) with (map allowed l) in Hl. rewrite !length_map in Hl.
  split. { by rewrite Hl, Hlen, length_map. }
  intros k r Hk.
  apply (f_equal (λ l, l !! k)) in Hs.
  rewrite list_lookup_fmap in Hs.
  change (map ?f ?l) with (f <$> l) in Hs. rewrite list_lookup_fmap, Hk in Hs.
  cbn [fmap option_fmap option_map] in Hs.
  destruct (fst (checks ip 30 60000 _ _) !! k) as [res|] eqn:Hres'; [|done].
  cbn in Hs. injection Hs as Hs.
  apply Hres in Hres' as [Hal _]. rewrite Hal in Hs. cbn [length Nat.add] in Hs.
  destruct (Z.eqb_spec (status r) 429) as [->|Hne]; cbn [negb] in Hs.
  - symmetry in Hs. apply bool_decide_eq_false in Hs. split; [lia|done].
  - symmetry in Hs. apply bool_decide_eq_true in Hs. split; [done|lia].
Qed.

Lemma thirty_one_requests_example :
  let reqs := map (λ k, get_at "1.2.3.4" (1000 * Z.of_nat k)) (seq 0 31) in
  length (fst (serve reqs (fresh (A := nat) Redis.empty))) = length reqs ∧
  ∀ k r, fst (serve reqs (fresh (A := nat) Redis.empty)) !! k = Some r →
         status r = 429 ↔ (30 <= k)%nat.
Proof.
  apply (endpoint_admits_thirty_a_minute "1.2.3.4"
           (map (λ k, get_at "1.2.3.4" (1000 * Z.of_nat k)) (seq 0 31))
           (fresh (A := nat) Redis.empty)); by vm_compute.
Defined.

End MessagesApiProofs.


(** ** The relay: connections, counts and what is stored *)

Module RelayOpsProofs.
Import Js ChatServer Relay RelayProofs.
Local Open Scope nat_scope.

Lemma filter_out_length ws (l : list Ws) :
  NoDup l → ws ∈ l →
  S (length (List.filter (fun w => negb (Nat.eqb w ws)) l)) = length l.
Proof.
  induction l as [|a l IH]; intros Hnd Hin; [by apply elem_of_nil in Hin|].
  apply NoDup_cons in Hnd as [Ha Hnd]. cbn [List.filter length].
  destruct (Nat.eqb_spec a ws) as [->|Hne]; cbn [negb].
  - f_equal. clear IH Hin Hnd. induction l as [|b l IH]; [done|].
    apply not_elem_of_cons in Ha as [Hb Ha]. cbn [List.filter length].
    destruct (Nat.eqb_spec b ws) as [->|_]; [done|]. cbn [negb length]. by rewrite IH.
  - cbn [length]. f_equal. apply IH; [done|].
    apply elem_of_cons in Hin as [->|Hin]; done.
Qed.

Lemma elem_of_filter_out ws w (l : list Ws) :
  w ∈ List.filter (fun w => negb (Nat.eqb w ws)) l ↔ w ∈ l ∧ w ≠ ws.
Proof.
  rewrite !list_elem_of_In, filter_In, negb_true_iff, Nat.eqb_neq. done.
Qed.

Lemma delete_registry_ok ws s : registry_ok s → registry_ok (with_clients (map_delete ws) s).
Proof.
  unfold registry_ok. intros Hok. cbn [clients with_clients].
  rewrite map_delete_keys. apply NoDup_ListNoDup, List.NoDup_filter.
  by apply NoDup_ListNoDup.
Qed.

(** What a close makes of the registry and of every outbox. *)
Lemma on_close_outbox (env : Env) (ws : Ws) (s : Server) :
  registry_ok s → ws ∈ map fst (clients s) →
  let s' := step s (env, CloseEvent ws) in
  S (length (clients s')) = length (clients s) ∧
  (ws ∉ map fst (clients s')) ∧
  (∀ w, outbox w s' = outbox w s ++
      (if bool_decide (w ∈ map fst (clients s)) && negb (Nat.eqb w ws)
          && bool_decide (readyState env w = OPEN)
       then [JSON_stringify (UserCount (length (clients s')))] else [])) ∧
  messages s' = messages s ∧ redis s' = redis s ∧
  clients (step s (env, ErrorEvent ws)) = clients s' ∧
  sent (step s (env, ErrorEvent ws)) = sent s.
Proof.
  intros Hok Hin. cbn [step]. unfold on_close, on_error.
  pose proof (delete_registry_ok ws s Hok) as Hok'.
  assert (clients (broadcast env
            (UserCount (length (clients (with_clients (map_delete ws) s)))) None
            (with_clients (map_delete ws) s)) = map_delete ws (clients s)) as Hc.
  { by rewrite broadcast_sent. }
  cbn zeta. rewrite Hc. split; [|split; [|split; [|split; [|split]]]].
  - rewrite <-(length_map fst (map_delete ws (clients s))), <-(length_map fst (clients s)).
    rewrite map_delete_keys. by apply filter_out_length.
  - rewrite map_delete_keys. apply deleted_key.
  - intros w. rewrite broadcast_outbox by done.
    cbn [clients with_clients]. f_equal.
    unfold reached. cbn [clients with_clients]. rewrite map_delete_keys.
    assert (bool_decide (w ∈ List.filter (λ w0, negb (w0 =? ws)) (map fst (clients s))) =
            bool_decide (w ∈ map fst (clients s)) && negb (w =? ws)) as ->.
    { apply eq_true_iff_eq. rewrite andb_true_iff, !bool_decide_eq_true, negb_true_iff,
        Nat.eqb_neq. apply elem_of_filter_out. }
    rewrite (bool_decide_eq_false_2 (Some w = None)) by done.
    cbn [negb]. by rewrite andb_true_r.
  - by rewrite broadcast_sent.
  - by rewrite broadcast_sent.
  - done.
Qed.

(** X13. When a registered connection closes, the registry loses exactly
    that entry, every remaining client whose transport is open is sent one
    ['userCount'] with the new size and nobody else is sent anything; the
    stores are untouched. An ['error'] event removes the entry in the same
    way but sends nothing. *)
Theorem close_announces_the_new_count (env : Env) (ws : Ws) (s : Server) :
  registry_ok s → ws ∈ map fst (clients s) →
  let s' := step s (env, CloseEvent ws) in
  S (length (clients s')) = length (clients s) ∧
  (ws ∉ map fst (clients s')) ∧
  (∀ w, outbox w s' = outbox w s ++
      (if bool_decide (w ∈ map fst (clients s)) && negb (Nat.eqb w ws)
          && bool_decide (readyState env w = OPEN)
       then [JSON_stringify (UserCount (length (clients s')))] else [])) ∧
  messages s' = messages s ∧ redis s' = redis s ∧
  clients (step s (env, ErrorEvent ws)) = clients s' ∧
  sent (step s (env, ErrorEvent ws)) = sent s.
Proof. apply on_close_outbox. Qed.


Lemma close_of_the_third_example :
  let env := second_closed 3 "u4" in
  let s' := step three_clients (env, CloseEvent 3) in
  S (length (clients s')) = length (clients three_clients) ∧
  (3 ∉ map fst (clients s')) ∧
  (∀ w, outbox w s' = outbox w three_clients ++
      (if bool_decide (w ∈ map fst (clients three_clients)) && negb (Nat.eqb w 3)
          && bool_decide (readyState env w = OPEN)
       then [JSON_stringify (UserCount (length (clients s')))] else [])) ∧
  messages s' = messages three_clients ∧ redis s' = redis three_clients ∧
  clients (step three_clients (env, ErrorEvent 3)) = clients s' ∧
  sent (step three_clients (env, ErrorEvent 3)) = sent three_clients.
Proof.
  apply (close_announces_the_new_count (second_closed 3 "u4") 3 three_clients
           three_clients_ok).
  apply list_elem_of_In. vm_compute. tauto.
Defined.

(** What a connection makes of the registry and of every outbox. *)
Lemma handleConnection_outbox (env : Env) (ws : Ws) (s : Server) :
  registry_ok s →
  let s' := step s (env, Connection ws) in
  let n := length (clients s) + (if bool_decide (ws ∈ map fst (clients s)) then 0 else 1) in
  ∃ recentMessages,
    recent env s = Ok recentMessages ∧
    length (clients s') = n ∧
    messages s' = messages s ∧
    ∀ w, outbox w s' = outbox w s ++
      (if Nat.eqb w ws
       then [JSON_stringify (Init (anonId env) (userColor env) recentMessages)] else []) ++
      (if bool_decide (w ∈ map fst (clients s')) && bool_decide (readyState env w = OPEN)
       then [JSON_stringify (UserCount n)] else []).
Proof.
  intros Hok. cbn [step]. unfold handleConnection, recent.
  set (info := mkClientInfo _ _ _ _).
  destruct (getMessages_frame env 0 s) as (l & s1 & Hget & Hc1 & Hm1 & Hs1).
  destruct (getMessages_frame env 0 (with_clients (map_set ws info) s))
    as (l' & s2 & Hget' & Hc2 & Hm2 & Hs2).
  assert (l' = l ∧ redis s2 = redis s1) as [-> Hr].
  { revert Hget Hget'. unfold getMessages, try_catch, bind, redis_command, Redis.command, get, ret.
    cbn [redis with_clients messages].
    destruct (redisReady env); [|by intros [= <- <-] [= <- <-]].
    destruct (fault env 0); [by intros [= <- <-] [= <- <-]|].
    destruct (Redis.lRange _ _ _ _) as [r k]. by intros [= <- <-] [= <- <-]. }
  cbn zeta. rewrite Hget, Hget'. cbn [fst].
  exists l. split; [done|].
  assert (length (map_set ws info (clients s)) =
          length (clients s) + (if bool_decide (ws ∈ map fst (clients s)) then 0 else 1)) as Hlen.
  { rewrite <-(length_map fst (map_set ws info (clients s))), map_set_keys.
    case_bool_decide; rewrite ?length_app, !length_map; cbn [length]; lia. }
  assert (registry_ok (ws_send ws (JSON_stringify (Init (anonId env) (userColor env) l)) s2)) as Hok2.
  { unfold registry_ok. cbn [clients ws_send]. rewrite Hc2. cbn [clients with_clients].
    rewrite map_set_keys. case_bool_decide as Hin; [done|].
    apply NoDup_app. split; [done|]. split; [|apply NoDup_singleton].
    intros w Hw ->%list_elem_of_singleton. done. }
  split; [|split].
  - rewrite broadcast_sent. cbn [clients ws_send]. by rewrite Hc2.
  - rewrite broadcast_sent. cbn [messages ws_send]. by rewrite Hm2.
  - intros w. rewrite broadcast_outbox by done.
    rewrite broadcast_sent. cbn [clients ws_send]. rewrite Hc2. cbn [clients with_clients].
    rewrite Hlen.
    assert (outbox w (ws_send ws (JSON_stringify (Init (anonId env) (userColor env) l)) s2) =
            outbox w s ++ (if Nat.eqb w ws
              then [JSON_stringify (Init (anonId env) (userColor env) l)] else [])) as ->.
    { unfold outbox. cbn [sent ws_send]. rewrite Hs2. cbn [sent with_clients].
      rewrite List.filter_app, fmap_app. cbn [List.filter fst].
      rewrite (Nat.eqb_sym ws w). by destruct (w =? ws). }
    rewrite <-app_assoc. do 2 f_equal.
    unfold reached. cbn [clients ws_send]. rewrite Hc2. cbn [clients with_clients].
    rewrite (bool_decide_eq_false_2 (Some w = None)) by done.
    cbn [negb]. by rewrite andb_true_r.
Qed.

(** X14. A new connection is sent ['init'] with what the recent-messages
    query returns at that moment, whatever the state of its transport, and
    then every registered client whose transport is open, the newcomer
    included, is sent ['userCount'] with the size of the registry. *)
Theorem connection_gets_init_then_count (env : Env) (ws : Ws) (s : Server) :
  registry_ok s →
  let s' := step s (env, Connection ws) in
  let n := length (clients s) + (if bool_decide (ws ∈ map fst (clients s)) then 0 else 1) in
  ∃ recentMessages,
    recent env s = Ok recentMessages ∧
    length (clients s') = n ∧
    messages s' = messages s ∧
    ∀ w, outbox w s' = outbox w s ++
      (if Nat.eqb w ws
       then [JSON_stringify (Init (anonId env) (userColor env) recentMessages)] else []) ++
      (if bool_decide (w ∈ map fst (clients s')) && bool_decide (readyState env w = OPEN)
       then [JSON_stringify (UserCount n)] else []).
Proof. apply handleConnection_outbox. Qed.

Lemma fourth_connection_example :
  let env := second_closed 3 "u4" in
  let s' := step three_clients (env, Connection 4) in
  let n := length (clients three_clients) +
           (if bool_decide (4 ∈ map fst (clients three_clients)) then 0 else 1) in
  ∃ recentMessages,
    recent env three_clients = Ok recentMessages ∧
    length (clients s') = n ∧
    messages s' = messages three_clients ∧
    ∀ w, outbox w s' = outbox w three_clients ++
      (if Nat.eqb w 4
       then [JSON_stringify (Init (anonId env) (userColor env) recentMessages)] else []) ++
      (if bool_decide (w ∈ map fst (clients s')) && bool_decide (readyState env w = OPEN)
       then [JSON_stringify (UserCount n)] else []).
Proof.
  exact (connection_gets_init_then_count (second_closed 3 "u4") 4 three_clients
           three_clients_ok).
Defined.

(** X15. An ['init'] or a ['pong'] frame is only ever sent to the
    transport the event came from: no handler sends one to another
    client. *)
Theorem init_and_pong_go_to_the_sender_only (s : Server) (env : Env) (input : Input)
    (w : Ws) (f : Frame) :
  (w, f) ∈ sent_since s (step s (env, input)) →
  is_private f = true → w = transport input.
Proof.
  intros Hin Hpriv.
  assert (∀ (e : Event) (l : list Ws),
            (w, f) ∈ map (fun w => (w, JSON_stringify e)) l → is_private f = is_private (Stringified e))
    as Hmap.
  { intros e l H. apply list_elem_of_In, in_map_iff in H as (x & [= _ <-] & _). done. }
  destruct input as [ws|ws [p|]|ws|ws]; cbn [step transport] in *.
  - destruct (handleConnection_effect env ws s) as (l & _ & _ & Hs).
    rewrite (sent_since_app _ _ _ Hs) in Hin.
    apply elem_of_cons in Hin as [[= -> _]|Hin]; [done|].
    apply Hmap in Hin. by rewrite Hin in Hpriv.
  - unfold on_message in Hin.
    destruct (handleMessage_effect env ws p s) as [_ [(m & client & text & -> & Hc & Ht & Hr)|(_ & _ & [Hs|Hs])]].
    + rewrite (handleMessage_accepts _ _ _ _ _ _ Hc Ht Hr) in Hin. cbn [snd] in Hin.
      rewrite broadcast_sent in Hin.
      destruct (saveMessage_frame env (chat_message env client m text)
                  (with_clients (map_set ws (touch env client)) s)) as (_ & _ & Hs).
      unfold sent_since in Hin. cbn [sent] in Hin. rewrite Hs in Hin.
      cbn [sent with_clients] in Hin. rewrite drop_app_length in Hin.
      apply Hmap in Hin. by rewrite Hin in Hpriv.
    + unfold sent_since in Hin. rewrite Hs, drop_all in Hin. by apply elem_of_nil in Hin.
    + rewrite (sent_since_app _ _ _ Hs) in Hin.
      by apply list_elem_of_singleton in Hin as [= -> _].
  - unfold on_message, sent_since in Hin. rewrite drop_all in Hin. by apply elem_of_nil in Hin.
  - unfold on_close in Hin. rewrite broadcast_sent in Hin.
    unfold sent_since in Hin. cbn [sent with_clients] in Hin. rewrite drop_app_length in Hin.
    apply Hmap in Hin. by rewrite Hin in Hpriv.
  - unfold on_error, sent_since in Hin. cbn [sent with_clients] in Hin.
    rewrite drop_all in Hin. by apply elem_of_nil in Hin.
Qed.

Lemma init_of_the_fourth_example : 4 = transport (Connection 4).
Proof.
  apply (init_and_pong_go_to_the_sender_only three_clients (at_time 3 "u4") (Connection 4) 4
           (JSON_stringify (Init "Ghost0001" "#FF6B6B" []))).
  - vm_compute. constructor.
  - reflexivity.
Defined.

Lemma step_keys (s : Server) (env : Env) (input : Input) :
  map fst (clients (step s (env, input))) = lifecycle (map fst (clients s)) input.
Proof.
  destruct input as [ws|ws [p|]|ws|ws]; cbn [step lifecycle].
  - destruct (handleConnection_effect env ws s) as (l & -> & _). apply map_set_keys.
  - unfold on_message. by destruct (handleMessage_effect env ws p s) as [-> _].
  - done.
  - unfold on_close. rewrite broadcast_sent. cbn [clients with_clients].
    apply map_delete_keys.
  - unfold on_error. cbn [clients with_clients]. apply map_delete_keys.
Qed.

(** X16. The keys of the registry depend on the connection events
    alone: a connection adds its transport, a close or an error removes it,
    and messages, the stores, the clock and Redis faults change nothing.
    The health answer reports their number. *)
Theorem registry_follows_the_life_cycle (inputs : list (Env * Input)) (s : Server) :
  map fst (clients (run inputs s)) = foldl lifecycle (map fst (clients s)) (map snd inputs) ∧
  endpoint "GET" None (run inputs s) =
    Health "ok" (length (foldl lifecycle (map fst (clients s)) (map snd inputs))).
Proof.
  assert (map fst (clients (run inputs s)) =
          foldl lifecycle (map fst (clients s)) (map snd inputs)) as H.
  { revert s. induction inputs as [|[env input] inputs IH]; intros s; [done|].
    unfold run in *. cbn [foldl map snd]. by rewrite IH, step_keys. }
  split; [done|]. cbn. by rewrite <-H, length_map.
Qed.

(** *** What is stored *)

Lemma range_Forall {A} (P : A → Prop) (l : list A) a b :
  Forall P l → Forall P (Redis.range l a b).
Proof.
  intros H. unfold Redis.range. cbn zeta. destruct (_ <? _)%Z; [done|].
  by apply Forall_take, Forall_drop.
Qed.

Lemma alive_Forall {A} (P : A → Prop) now (k : Redis.Key A) :
  Forall P (Redis.items k) → Forall P (Redis.items (Redis.alive now k)).
Proof.
  unfold Redis.alive. destruct (Redis.expireAt k); [|done].
  by destruct (_ <=? _)%Z.
Qed.

Lemma push_shift_Forall (P : ChatMessage → Prop) cm l :
  P cm → Forall P l → Forall P (push_shift cm l).
Proof.
  intros Hcm H. unfold push_shift. cbn zeta.
  assert (Forall P (l ++ [cm])) as Hall by (apply Forall_app; split; [done|by constructor]).
  destruct (_ <? _); [|done].
  destruct (l ++ [cm]); [done|]. by apply Forall_cons in Hall as [_ ?].
Qed.

Lemma saveMessage_stored_ok env cm s :
  content_ok cm = true → stored_ok s → stored_ok (snd (saveMessage env cm s)).
Proof.
  intros Hcm (Hlen & Hm & Hr).
  assert (stored_ok (with_messages (push_shift cm) s)) as Hfallback.
  { split; [|split]; cbn [messages redis with_messages];
      [by apply StoreProofs.push_shift_length | by apply push_shift_Forall | done]. }
  unfold saveMessage, try_catch, bind, redis_command, Redis.command, modify, ret.
  destruct (redisReady env); [|done].
  destruct (fault env 0); [done|].
  unfold Redis.lPush. cbn [redis].
  set (k1 := Redis.mkKey _ _).
  assert (Forall (fun j => content_ok (JSON_parse j) = true) (Redis.items k1)) as Hk1.
  { cbn. constructor; [done|]. by apply alive_Forall. }
  destruct (fault env 1).
  - cbn [snd]. split; [|split]; cbn [messages redis with_messages];
      [by apply StoreProofs.push_shift_length | by apply push_shift_Forall | done].
  - unfold Redis.lTrim.
    pose proof (range_Forall _ _ 0%Z 99%Z (alive_Forall _ (now env) k1 Hk1)) as Hrange.
    destruct (Redis.range _ _ _); cbn [snd]; split; try split; cbn [messages redis]; try done.
Qed.

Lemma relayed_content_ok (m : Message) (text : jsstring) :
  relayed_content m = Some text → 1 <= length text <= 1000.
Proof.
  unfold relayed_content. destruct (content m) as [| | | |c|]; try done.
  destruct (Nat.ltb_spec 0 (length (trim c))) as [H|H]; [|done].
  intros Heq. apply (inj Some) in Heq. subst text. unfold substring0. rewrite length_take. lia.
Qed.

Lemma handleConnection_redis env ws s :
  redis (handleConnection env ws s) = redis s ∨
  redis (handleConnection env ws s) = Redis.alive (now env) (redis s).
Proof.
  unfold handleConnection, getMessages, try_catch, bind, redis_command, Redis.command, get, ret.
  cbn zeta. destruct (redisReady env).
  - cbn [redis with_clients]. destruct (fault env 0).
    + rewrite broadcast_sent. by left.
    + unfold Redis.lRange. rewrite broadcast_sent. by right.
  - rewrite broadcast_sent. by left.
Qed.

Lemma step_stored_ok s i : stored_ok s → stored_ok (step s i).
Proof.
  intros Hok. destruct i as [env [ws|ws [p|]|ws|ws]]; cbn [step].
  - destruct Hok as (Hlen & Hm & Hr).
    destruct (handleConnection_effect env ws s) as (l & _ & Hmsg & _).
    unfold stored_ok. rewrite Hmsg. split; [done|]. split; [done|].
    destruct (handleConnection_redis env ws s) as [-> | ->]; [done|by apply alive_Forall].
  - unfold on_message.
    destruct (handleMessage_effect env ws p s)
      as [_ [(m & client & text & -> & Hc & Ht & Hr)|(Hm & Hr & _)]].
    + rewrite (handleMessage_accepts _ _ _ _ _ _ Hc Ht Hr). cbn [snd].
      assert (stored_ok (snd (saveMessage env (chat_message env client m text)
                (with_clients (map_set ws (touch env client)) s)))) as Hsaved.
      { apply saveMessage_stored_ok; [|done].
        apply relayed_content_ok in Hr. unfold content_ok, chat_message. cbn [msg_content].
        apply andb_true_intro. split; apply Nat.leb_le; lia. }
      unfold stored_ok. by rewrite broadcast_sent.
    + unfold stored_ok. by rewrite Hm, Hr.
  - done.
  - unfold on_close, stored_ok. by rewrite broadcast_sent.
  - done.
Qed.

(** X17. Whatever happens to the process from its start, the array of
    messages holds at most 100 entries, and every message in the array or
    in the shared list has a content of 1 to 1000 code units. *)
Theorem stored_messages_are_bounded (inputs : list (Env * Input)) :
  let s := run inputs initial in
  length (messages s) <= 100 ∧
  Forall (fun m => content_ok m = true) (messages s) ∧
  Forall (fun j => content_ok (JSON_parse j) = true) (Redis.items (redis s)).
Proof.
  cbn zeta. change (stored_ok (run inputs initial)).
  assert (stored_ok initial) as H0 by (split; [cbn; lia|split; constructor]).
  revert H0. generalize initial.
  induction inputs as [|i inputs IH]; intros s Hs; [done|].
  unfold run in *. cbn [foldl]. by apply IH, step_stored_ok.
Qed.

End RelayOpsProofs.


(** ** The client and the relay *)

Module ClientProofs.
Import Js ChatServer Relay Client RelayProofs RelayOpsProofs.
Local Open Scope nat_scope.

(** *** [trim] *)

Lemma trimStart_clean s : starts_clean (trimStart s) = true.
Proof.
  induction s as [|c s IH]; [done|]. cbn [trimStart].
  destruct (isWhiteSpace c) eqn:Hc; [done|]. cbn. by rewrite Hc.
Qed.

Lemma clean_trimStart s : starts_clean s = true → trimStart s = s.
Proof. destruct s as [|c s]; [done|]. cbn. by destruct (isWhiteSpace c). Qed.

Lemma prefix_clean (p s : jsstring) : p `prefix_of` s → starts_clean s = true → starts_clean p = true.
Proof. intros [k ->]. by destruct p. Qed.

Lemma trim_idempotent s : trim (trim s) = trim s.
Proof.
  unfold trim, trimEnd.
  set (a := trimStart s). set (b := trimStart (reverse a)).
  assert (starts_clean (reverse b) = true) as Hclean.
  { apply (prefix_clean _ a); [|apply trimStart_clean].
    pose proof (proj1 (suffix_prefix_reverse b (reverse a))
                  (SanitizerProofs.trimStart_suffix (reverse a))) as H.
    by rewrite reverse_involutive in H. }
  rewrite (clean_trimStart _ Hclean), reverse_involutive.
  by rewrite (clean_trimStart b (trimStart_clean _)).
Qed.

(** X18. What the hook sends, the relay relays: a payload produced by
    [sendMessage] on an open socket, coming from a registered client, is
    always stored and broadcast, with the trimmed text cut to 1000 code
    units as content; for a text of at most 1000 code units the content
    is the trimmed text itself. *)
Theorem what_the_client_sends_is_relayed (typed : jsstring) (enc : JsValue) (m : Message)
    (env : Env) (ws : Ws) (client : ClientInfo) (s : Server) :
  sendMessage true typed enc = Some m →
  map_get ws (clients s) = Some client →
  let text := substring0 1000 (trim typed) in
  let cm := chat_message env client m text in
  handleMessage env ws (PObject m) s =
    (Ok tt, broadcast env (NewMessage cm) None
              (snd (saveMessage env cm (with_clients (map_set ws (touch env client)) s)))) ∧
  msg_content cm = text ∧
  (length typed <= 1000 → msg_content cm = trim typed).
Proof.
  intros Hsend Hc.
  assert (trim typed ≠ [] ∧
          m = {| type := JString (units "message"); content := JString (trim typed);
                 encrypted := enc |}) as [Hne ->].
  { unfold sendMessage in Hsend. cbn [andb truthy] in Hsend.
    destruct (trim typed); [done|]. by injection Hsend as <-. }
  set (text := substring0 1000 (trim typed)).
  assert (relayed_content
            {| type := JString (units "message"); content := JString (trim typed);
               encrypted := enc |} = Some text) as Hr.
  { unfold relayed_content. cbn [content]. rewrite trim_idempotent.
    destruct (trim typed); [done|]. done. }
  cbn zeta. split; [|split].
  - by apply handleMessage_accepts.
  - done.
  - intros Hlen. cbn [msg_content chat_message]. unfold text, substring0.
    apply take_ge.
    etrans; [apply sublist_length, SanitizerProofs.trim_sublist | done].
Qed.

(** *** What the client has received *)

Lemma receive_app frames1 frames2 h :
  receive (frames1 ++ frames2) h = receive frames2 (receive frames1 h).
Proof. unfold receive. apply foldl_app. Qed.

Lemma inbox_app ws s0 s extra :
  outbox ws s = outbox ws s0 ++ extra → inbox ws s0 s = extra.
Proof. unfold inbox. intros ->. by rewrite drop_app_length. Qed.

Lemma recent_of_the_array env s : in_process env = true → recent env s = Ok (ChatServer.messages s).
Proof. unfold in_process, recent, getMessages. by destruct (redisReady env). Qed.

Lemma count_or_zero n : (if Nat.eqb n 0 then 0 else n) = n.
Proof. by destruct n. Qed.

(** One event of the relay, seen from a client that stays connected. *)
Lemma step_seen ws s env input :
  registry_ok s → ws ∈ map fst (clients s) →
  stays ws (env, input) = true → plain ws (env, input) = true →
  ∃ new,
    outbox ws (step s (env, input)) = outbox ws s ++ new ∧
    ws ∈ map fst (clients (step s (env, input))) ∧
    (∀ h, lastN 100 (messages h) = ChatServer.messages s →
          lastN 100 (messages (receive new h)) = ChatServer.messages (step s (env, input))) ∧
    (no_error (env, input) = true →
     ∀ h, userCount h = length (clients s) →
          userCount (receive new h) = length (clients (step s (env, input)))).
Proof.
  intros Hok Hin Hstays Hplain.
  unfold plain in Hplain. cbn [fst] in Hplain.
  apply andb_prop in Hplain as [Hproc Hopen]. apply bool_decide_eq_true in Hopen.
  assert (ws ∈ map fst (clients (step s (env, input)))) as Hin'.
  { rewrite step_keys. destruct input as [w|w p|w|w]; cbn [lifecycle]; cbn in Hstays.
    - case_bool_decide; [done|]. apply elem_of_app. by left.
    - done.
    - apply elem_of_filter_out. split; [done|].
      apply negb_true_iff, Nat.eqb_neq in Hstays. congruence.
    - apply elem_of_filter_out. split; [done|].
      apply negb_true_iff, Nat.eqb_neq in Hstays. congruence. }
  destruct input as [w|w [p|]|w|w]; cbn [step] in *.
  - destruct (handleConnection_outbox env w s Hok) as (l & Hrecent & Hlen & Hmsg & Hout).
    cbn [step] in Hlen, Hmsg, Hout.
    rewrite recent_of_the_array in Hrecent by done. injection Hrecent as <-.
    eexists. split; [apply Hout|]. split; [done|].
    rewrite (bool_decide_eq_true_2 _ Hin'), (bool_decide_eq_true_2 _ Hopen). cbn [andb].
    split.
    + intros h Hh. rewrite Hmsg, receive_app.
      destruct (ws =? w); cbn; [|done].
      apply StoreProofs.lastN_short. rewrite <-Hh. apply StoreProofs.lastN_length.
    + intros _ h Hh. rewrite receive_app. cbn [receive foldl onmessage JSON_parse JSON_stringify
        handleWebSocketMessage userCount]. by rewrite count_or_zero, Hlen.
  - unfold on_message in *.
    destruct (handleMessage_effect env w p s)
      as [Hkeys [(m & client & text & -> & Hc & Ht & Hr)|(Hm & _ & Hs)]].
    + rewrite (handleMessage_accepts _ _ _ _ _ _ Hc Ht Hr) in *. cbn [snd] in *.
      set (cm := chat_message env client m text) in *.
      set (s1 := snd (saveMessage env cm (with_clients (map_set w (touch env client)) s))) in *.
      destruct (saveMessage_frame env cm (with_clients (map_set w (touch env client)) s))
        as (_ & Hc1 & Hs1). fold s1 in Hc1, Hs1.
      assert (map fst (clients s1) = map fst (clients s)) as Hk1.
      { rewrite Hc1. cbn [clients with_clients]. rewrite map_set_keys.
        rewrite bool_decide_eq_true_2; [done|]. by eapply map_get_Some. }
      assert (registry_ok s1) as Hok1 by (unfold registry_ok; by rewrite Hk1).
      exists [JSON_stringify (NewMessage cm)]. split; [|split; [done|split]].
      * rewrite broadcast_outbox by done.
        assert (outbox ws s1 = outbox ws s) as -> by (unfold outbox; by rewrite Hs1).
        f_equal. unfold reached. rewrite Hk1.
        rewrite (bool_decide_eq_true_2 _ Hin), (bool_decide_eq_true_2 _ Hopen).
        by rewrite (bool_decide_eq_false_2 (Some ws = None)).
      * intros h Hh. rewrite broadcast_sent. cbn [ChatServer.messages].
        unfold s1. rewrite StoreProofs.InProcess.saveMessage_in_process by done.
        cbn [ChatServer.messages with_messages with_clients].
        cbn [receive foldl onmessage JSON_parse JSON_stringify handleWebSocketMessage messages].
        by rewrite <-StoreProofs.push_shift_lastN, Hh.
      * intros _ h Hh. rewrite broadcast_sent. cbn [clients]. rewrite Hc1.
        cbn [clients with_clients receive foldl onmessage JSON_parse JSON_stringify
               handleWebSocketMessage userCount].
        rewrite Hh, <-(length_map fst (map_set _ _ _)), map_set_keys.
        rewrite bool_decide_eq_true_2 by (by eapply map_get_Some). by rewrite length_map.
    + assert (length (clients (snd (handleMessage env w p s))) = length (clients s)) as Hlen.
      { by rewrite <-(length_map fst), Hkeys, length_map. }
      destruct Hs as [Hs|Hs].
      * exists []. split; [|split; [done|split]].
        -- unfold outbox. by rewrite Hs, app_nil_r.
        -- intros h Hh. by rewrite Hm.
        -- intros _ h Hh. by rewrite Hlen.
      * exists (if Nat.eqb w ws then [JSON_stringify Pong] else []).
        split; [|split; [done|split]].
        -- unfold outbox. rewrite Hs, List.filter_app, fmap_app. cbn [List.filter fst].
           by destruct (w =? ws).
        -- intros h Hh. rewrite Hm. by destruct (w =? ws).
        -- intros _ h Hh. rewrite Hlen. by destruct (w =? ws).
  - exists []. split; [by rewrite app_nil_r|]. done.
  - cbn in Hstays. apply negb_true_iff, Nat.eqb_neq in Hstays.
    unfold on_close in *.
    pose proof (delete_registry_ok w s Hok) as Hok1.
    set (s1 := with_clients (map_delete w) s) in *.
    exists [JSON_stringify (UserCount (length (clients s1)))].
    split; [|split; [done|split]].
    + rewrite broadcast_outbox by done. f_equal. unfold reached.
      rewrite broadcast_sent in Hin'. cbn [clients] in Hin'.
      rewrite (bool_decide_eq_true_2 _ Hin'), (bool_decide_eq_true_2 _ Hopen).
      by rewrite (bool_decide_eq_false_2 (Some ws = None)).
    + intros h Hh. by rewrite broadcast_sent.
    + intros _ h Hh. rewrite broadcast_sent. cbn [clients].
      cbn [receive foldl onmessage JSON_parse JSON_stringify handleWebSocketMessage userCount].
      apply count_or_zero.
  - exists []. split; [by rewrite app_nil_r|]. split; [done|]. split; [done|].
    intros Hne. done.
Qed.

Lemma run_seen ws later : ∀ s,
  registry_ok s → ws ∈ map fst (clients s) →
  forallb (stays ws) later = true → forallb (plain ws) later = true →
  ∃ new,
    outbox ws (run later s) = outbox ws s ++ new ∧
    (∀ h, lastN 100 (messages h) = ChatServer.messages s →
          lastN 100 (messages (receive new h)) = ChatServer.messages (run later s)) ∧
    (forallb no_error later = true →
     ∀ h, userCount h = length (clients s) →
          userCount (receive new h) = length (clients (run later s))).
Proof.
  induction later as [|[env input] later IH]; intros s Hok Hin Hstays Hplain.
  - exists []. by rewrite app_nil_r.
  - cbn [forallb] in Hstays, Hplain.
    apply andb_prop in Hstays as [Hs1 Hstays]. apply andb_prop in Hplain as [Hp1 Hplain].
    destruct (step_seen ws s env input Hok Hin Hs1 Hp1) as (new1 & Hout1 & Hin1 & Hm1 & Hc1).
    destruct (IH (step s (env, input)) (step_registry_ok _ _ Hok) Hin1 Hstays Hplain)
      as (new2 & Hout2 & Hm2 & Hc2).
    exists (new1 ++ new2). unfold run in *. cbn [foldl].
    split; [by rewrite Hout2, Hout1, app_assoc|]. split.
    + intros h Hh. rewrite receive_app. by apply Hm2, Hm1.
    + cbn [forallb]. intros [Hn1 Hn]%andb_prop h Hh. rewrite receive_app.
      by apply Hc2, Hc1.
Qed.

Lemma connected_seen ws env0 s0 later h0 :
  registry_ok s0 → length (ChatServer.messages s0) <= 100 →
  plain ws (env0, Connection ws) = true →
  forallb (stays ws) later = true → forallb (plain ws) later = true →
  let s := run ((env0, Connection ws) :: later) s0 in
  let h := receive (inbox ws s0 s) h0 in
  lastN 100 (messages h) = ChatServer.messages s ∧
  (forallb no_error later = true → userCount h = length (clients s)).
Proof.
  intros Hok Hlen Hp0 Hstays Hplain.
  pose proof Hp0 as Hp0'. unfold plain in Hp0'. cbn [fst] in Hp0'.
  apply andb_prop in Hp0' as [Hproc Hopen]. apply bool_decide_eq_true in Hopen.
  destruct (handleConnection_outbox env0 ws s0 Hok) as (l & Hrecent & Hn & Hmsg & Hout).
  rewrite recent_of_the_array in Hrecent by done. injection Hrecent as <-.
  set (s1 := step s0 (env0, Connection ws)) in *.
  assert (ws ∈ map fst (clients s1)) as Hin1.
  { unfold s1. rewrite step_keys. cbn [lifecycle]. case_bool_decide; [done|].
    apply elem_of_app. right. by apply list_elem_of_singleton. }
  specialize (Hout ws). rewrite Nat.eqb_refl in Hout.
  rewrite (bool_decide_eq_true_2 _ Hin1), (bool_decide_eq_true_2 _ Hopen) in Hout.
  cbn [andb app] in Hout.
  destruct (run_seen ws later s1 (step_registry_ok _ _ Hok) Hin1 Hstays Hplain)
    as (new & Hout' & Hm & Hc).
  cbn zeta. change (run ((env0, Connection ws) :: later) s0) with (run later s1).
  rewrite Hout, <-app_assoc in Hout'.
  rewrite (inbox_app ws s0 (run later s1) _ Hout').
  rewrite receive_app. split.
  - apply Hm. rewrite Hmsg.
    cbn [receive foldl onmessage JSON_parse JSON_stringify handleWebSocketMessage messages].
    by apply StoreProofs.lastN_short.
  - intros Hne. apply Hc; [done|]. rewrite Hn.
    cbn [receive foldl onmessage JSON_parse JSON_stringify handleWebSocketMessage userCount].
    by rewrite count_or_zero.
Qed.

(** X19. A client that stays connected sees the store: with the relay
    storing in its array, from the connection of a client on until now,
    its transport open and not closed, the last 100 messages the hook
    holds after the frames sent to it are the array of the relay. *)
Theorem client_view_matches_the_store (ws : Ws) (env0 : Env) (s0 : Server)
    (later : list (Env * Input)) (h0 : Hook) :
  registry_ok s0 → length (ChatServer.messages s0) <= 100 →
  plain ws (env0, Connection ws) = true →
  forallb (stays ws) later = true → forallb (plain ws) later = true →
  let s := run ((env0, Connection ws) :: later) s0 in
  lastN 100 (messages (receive (inbox ws s0 s) h0)) = ChatServer.messages s.
Proof. intros. by apply connected_seen. Qed.

(** X20. Under the same conditions, and if no ['error'] event has
    removed a connection since, the user count the hook shows is the size
    of the registry. *)
Theorem client_count_matches_the_registry (ws : Ws) (env0 : Env) (s0 : Server)
    (later : list (Env * Input)) (h0 : Hook) :
  registry_ok s0 → length (ChatServer.messages s0) <= 100 →
  plain ws (env0, Connection ws) = true →
  forallb (stays ws) later = true → forallb (plain ws) later = true →
  forallb no_error later = true →
  let s := run ((env0, Connection ws) :: later) s0 in
  userCount (receive (inbox ws s0 s) h0) = length (clients s).
Proof. intros. by apply connected_seen. Qed.

Lemma twenty_one_messages_seen :
  let s := run ((at_time 3 "u4", Connection 4) :: burst) three_clients in
  lastN 100 (messages (receive (inbox 4 three_clients s) useWebSocket)) = ChatServer.messages s.
Proof.
  apply (client_view_matches_the_store 4 (at_time 3 "u4") three_clients burst useWebSocket
           three_clients_ok); [vm_compute; lia | reflexivity | reflexivity | reflexivity].
Defined.

Lemma four_clients_counted :
  let s := run ((at_time 3 "u4", Connection 4) :: burst) three_clients in
  userCount (receive (inbox 4 three_clients s) useWebSocket) = length (clients s).
Proof.
  apply (client_count_matches_the_registry 4 (at_time 3 "u4") three_clients burst useWebSocket
           three_clients_ok); [vm_compute; lia | reflexivity | reflexivity | reflexivity | reflexivity].
Defined.

Lemma padded_hi_is_relayed :
  let m := {| type := JString (units "message"); content := JString (units "hi");
              encrypted := JBool false |} in
  let env := at_time 1 "m1" in
  let client := mkClientInfo "Ghost0001" "#FF6B6B" 0 0 in
  let text := substring0 1000 (trim (units "  hi ")) in
  let cm := chat_message env client m text in
  handleMessage env 1 (PObject m) joined =
    (Ok tt, broadcast env (NewMessage cm) None
              (snd (saveMessage env cm (with_clients (map_set 1 (touch env client)) joined)))) ∧
  msg_content cm = text ∧
  (length (units "  hi ") <= 1000 → msg_content cm = trim (units "  hi ")).
Proof.
  apply (what_the_client_sends_is_relayed (units "  hi ") (JBool false)); reflexivity.
Defined.

(** *** Reconnection *)

Lemma scheduleReconnect_ok h : backoff_ok h → backoff_ok (scheduleReconnect h).
Proof.
  intros [Ha Hd]. unfold scheduleReconnect, maxReconnectAttempts.
  destruct (Nat.leb_spec 5 (reconnectAttempts h)) as [Hge|Hlt]; [done|].
  split; cbn [reconnectAttempts delays]; [lia|].
  apply Forall_app. split; [done|]. constructor; [|constructor].
  destruct (reconnectAttempts h) as [|[|[|[|[|n]]]]]; [| | | | |lia];
    vm_compute; repeat first [apply list_elem_of_here | apply list_elem_of_further].
Qed.

(** X21. Whatever happens to the socket, the hook never counts more than
    five reconnection attempts and every delay it schedules is one of
    1000, 2000, 4000, 8000 and 16000 ms: the cap of 30000 never applies. *)
Theorem reconnect_delays_stay_below_the_cap (events : list SocketEvent) :
  let h := foldl socket useWebSocket events in
  reconnectAttempts h <= 5 ∧
  Forall (fun d => d ∈ [1000; 2000; 4000; 8000; 16000]%Z) (delays h).
Proof.
  cbn zeta. change (backoff_ok (foldl socket useWebSocket events)).
  assert (backoff_ok useWebSocket) as H0 by (split; [cbn; lia|constructor]).
  revert H0. generalize useWebSocket.
  induction events as [|e events IH]; intros h Hh; [done|].
  cbn [foldl]. apply IH. destruct e as [|code|]; cbn [socket].
  - destruct Hh as [_ Hd]. split; [cbn; lia|done].
  - destruct (_ && _); [by apply scheduleReconnect_ok|done].
  - by apply scheduleReconnect_ok.
Qed.

End ClientProofs.


(** ** The Redis manager *)

Module ManagerOpsProofs.
Import ManagerOps.
Local Open Scope Z_scope.

Lemma live_insert {V} now (db : Kv.Db V) key c :
  Kv.live now (<[key := c]> db) key =
  match Kv.expireAt c with
  | Some t => if t <=? now then None else Some c
  | None => Some c
  end.
Proof. unfold Kv.live. by rewrite lookup_insert_eq. Qed.

Lemma live_insert_ne {V} now (db : Kv.Db V) key key' c :
  key ≠ key' → Kv.live now (<[key := c]> db) key' = Kv.live now db key'.
Proof. intros Hne. unfold Kv.live. by rewrite lookup_insert_ne. Qed.

Lemma user_key_inj (a b : string) : "user:" +:+ a = "user:" +:+ b → a = b.
Proof. intros H. by injection H. Qed.

Section Sessions.
Context {A : Type}.

(** X22. A session saved is read back for an hour: after
    [saveUserSession], which returns [true], [getUserSession] of the same
    user returns the saved data at any time before one hour has passed and
    [null] from then on, and the sessions of other users read as before. *)
Theorem session_is_read_back_for_an_hour (t0 t : Z) (userId : string) (data : A)
    (db : Kv.Db (Json A)) :
  ∃ db',
    saveUserSession t0 true no_fault userId data db = (Ok true, db') ∧
    fst (getUserSession t true no_fault userId db') =
      Ok (if t <? t0 + 3600 * 1000 then Some data else None) ∧
    ∀ other, other ≠ userId →
      fst (getUserSession t true no_fault other db') =
      fst (getUserSession t true no_fault other db).
Proof.
  eexists. split; [reflexivity|]. split.
  - unfold getUserSession, try_catch, bind, Kv.command, Kv.get, ret, no_fault. cbn [negb fst].
    rewrite live_insert. cbn [Kv.expireAt].
    destruct (Z.leb_spec (t0 + 3600 * 1000) t), (Z.ltb_spec t (t0 + 3600 * 1000)); try lia; done.
  - intros other Hne.
    unfold getUserSession, try_catch, bind, Kv.command, Kv.get, ret, no_fault. cbn [negb fst].
    rewrite live_insert_ne; [done|]. intros H%user_key_inj. done.
Qed.

End Sessions.


(** *** The fixed-window limiter *)

Lemma checkRateLimit_fresh now identifier m ws (db : Kv.Db Z) :
  1 <= ws → Kv.live now db ("ratelimit:" +:+ identifier) = None →
  checkRateLimit now true no_fault identifier m ws db =
    (Ok true, <["ratelimit:" +:+ identifier := Kv.mkCell 1 (Some (now + ws * 1000))]> db).
Proof.
  intros Hws Hlive.
  unfold checkRateLimit, try_catch, bind, Kv.command, Kv.get, Kv.setEx, ret, no_fault.
  cbn [negb]. rewrite Hlive. cbn [fmap option_fmap option_map].
  destruct (Z.leb_spec ws 0); [lia|done].
Qed.

Lemma checkRateLimit_counting now identifier m ws (db : Kv.Db Z) v e :
  db !! ("ratelimit:" +:+ identifier) = Some (Kv.mkCell v (Some e)) → now < e →
  checkRateLimit now true no_fault identifier m ws db =
    (Ok (bool_decide (v < m)),
     if bool_decide (v < m)
     then <["ratelimit:" +:+ identifier := Kv.mkCell (v + 1) (Some e)]> db else db).
Proof.
  intros Hdb Hnow.
  assert (Kv.live now db ("ratelimit:" +:+ identifier) = Some (Kv.mkCell v (Some e))) as Hlive.
  { unfold Kv.live. rewrite Hdb. cbn. destruct (Z.leb_spec e now); [lia|done]. }
  unfold checkRateLimit, try_catch, bind, Kv.command, Kv.get, Kv.incr, Kv.incrBy, ret, no_fault.
  cbn [negb]. rewrite Hlive. cbn [fmap option_fmap option_map Kv.value Kv.expireAt].
  destruct (Z.leb_spec m v); case_bool_decide; try lia; [done|].
  by rewrite Hlive.
Qed.

(** The calls made while the window of the first one lasts. *)
Lemma checkRateLimits_counting identifier m ws e : ∀ times (db : Kv.Db Z) (j : nat),
  db !! ("ratelimit:" +:+ identifier) =
    Some (Kv.mkCell (Z.max 1 (Z.min (Z.of_nat j) m)) (Some e)) →
  (1 <= j)%nat →
  forallb (fun t => t <? e) times = true →
  ∃ db',
    checkRateLimits identifier m ws times db =
      ((fun k => bool_decide (Z.of_nat k < m)) <$> seq j (length times), db') ∧
    db' !! ("ratelimit:" +:+ identifier) =
      Some (Kv.mkCell (Z.max 1 (Z.min (Z.of_nat (j + length times)) m)) (Some e)).
Proof.
  induction times as [|t times IH]; intros db j Hdb Hj Hall.
  - exists db. split; [done|]. by rewrite Nat.add_0_r.
  - cbn [forallb] in Hall. apply andb_prop in Hall as [Ht Hall]. apply Z.ltb_lt in Ht.
    cbn [checkRateLimits]. rewrite (checkRateLimit_counting _ _ _ _ _ _ _ Hdb Ht).
    set (v := Z.max 1 (Z.min (Z.of_nat j) m)) in *.
    assert (bool_decide (v < m) = bool_decide (Z.of_nat j < m)) as Hdec.
    { apply bool_decide_ext. unfold v. lia. }
    set (db1 := if bool_decide (v < m) then _ else db).
    assert (db1 !! ("ratelimit:" +:+ identifier) =
            Some (Kv.mkCell (Z.max 1 (Z.min (Z.of_nat (S j)) m)) (Some e))) as Hdb1.
    { unfold db1. case_bool_decide as Hv.
      - rewrite lookup_insert_eq. do 2 f_equal. unfold v in *. lia.
      - rewrite Hdb. do 2 f_equal. unfold v in *. lia. }
    destruct (IH db1 (S j) Hdb1 ltac:(lia) Hall) as (db' & -> & Hdb').
    exists db'. split.
    + cbn [length seq fmap list_fmap]. by rewrite Hdec.
    + rewrite Hdb'. cbn [length]. do 3 f_equal. lia.
Qed.

(** X23. [checkRateLimit] is a fixed window: from an absent key, the
    first call is always allowed, whatever [maxRequests]; while the window
    of the first call lasts, the call number [k] (from 1, after the first)
    is allowed exactly when [k < maxRequests]; and a call made once the
    window has run out is allowed again. *)
Theorem checkRateLimit_is_a_fixed_window (identifier : string) (m ws : Z)
    (t0 : Z) (times : list Z) (next : Z) (db : Kv.Db Z) :
  1 <= ws →
  Kv.live t0 db ("ratelimit:" +:+ identifier) = None →
  forallb (fun t => t <? t0 + ws * 1000) times = true →
  t0 + ws * 1000 <= next →
  ∃ db',
    checkRateLimits identifier m ws (t0 :: times) db =
      (true :: ((fun k => bool_decide (Z.of_nat k < m)) <$> seq 1 (length times)), db') ∧
    fst (checkRateLimit next true no_fault identifier m ws db') = Ok true.
Proof.
  intros Hws Hfresh Hall Hnext.
  cbn [checkRateLimits]. rewrite checkRateLimit_fresh by done.
  set (db1 := <[_ := _]> db).
  destruct (checkRateLimits_counting identifier m ws (t0 + ws * 1000) times db1 1)
    as (db' & -> & Hdb'); [|lia|done|].
  { unfold db1. rewrite lookup_insert_eq. do 2 f_equal. lia. }
  exists db'. split; [done|].
  rewrite checkRateLimit_fresh; [done|done|].
  unfold Kv.live. rewrite Hdb'. cbn. destruct (Z.leb_spec (t0 + ws * 1000) next); [done|lia].
Qed.


Lemma window_of_two_example :
  ∃ db',
    checkRateLimits "u" 2 60 (0 :: [10; 20; 30]) ∅ =
      (true :: ((fun k => bool_decide (Z.of_nat k < 2)) <$> seq 1 (length [10; 20; 30])), db') ∧
    fst (checkRateLimit 60000 true no_fault "u" 2 60 db') = Ok true.
Proof.
  apply (checkRateLimit_is_a_fixed_window "u" 2 60 0 [10; 20; 30] 60000 ∅);
    [lia | reflexivity | reflexivity | lia].
Defined.

(** *** The connection count *)

(** X24. [incrementConnectionCount] reports one more than the live
    count, and the count is forgotten five minutes after the last
    increment: until then [getConnectionCount] reports it, from then on 0. *)
Theorem connection_count_is_forgotten_after_five_minutes (now t : Z) (db : Kv.Db Z) :
  let before := default 0 (Kv.value <$> Kv.live now db "connections:count") in
  ∃ db',
    incrementConnectionCount now true no_fault db = (Ok (before + 1), db') ∧
    fst (getConnectionCount t true no_fault db') =
      Ok (if t <? now + 300 * 1000 then before + 1 else 0).
Proof.
  cbn zeta.
  unfold incrementConnectionCount, getConnectionCount, try_catch, bind, Kv.command,
    Kv.incr, Kv.incrBy, Kv.expire, Kv.get, ret, no_fault.
  cbn [negb].
  destruct (Kv.live now db "connections:count") as [c|] eqn:Hlive;
    cbn [fmap option_fmap option_map default];
    rewrite live_insert; cbn [Kv.expireAt Kv.value].
  - destruct (Kv.expireAt c) as [e|] eqn:He.
    + assert ((e <=? now) = false) as ->.
      { unfold Kv.live in Hlive. destruct (db !! _) as [c'|]; [|done].
        destruct (Kv.expireAt c') as [e'|] eqn:He'; [|congruence].
        destruct (e' <=? now) eqn:Hle; [done|]. congruence. }
      cbn [Z.leb Z.compare]. eexists. split; [reflexivity|].
      cbn [fst]. rewrite live_insert. cbn [Kv.expireAt Kv.value].
      destruct (Z.leb_spec (now + 300 * 1000) t), (Z.ltb_spec t (now + 300 * 1000)); try lia;
        cbn [fmap option_fmap option_map Kv.value]; unfold id; [done|].
      by destruct (Z.eqb_spec (Kv.value c + 1) 0) as [->|].
    + cbn [Z.leb Z.compare]. eexists. split; [reflexivity|].
      cbn [fst]. rewrite live_insert. cbn [Kv.expireAt Kv.value].
      destruct (Z.leb_spec (now + 300 * 1000) t), (Z.ltb_spec t (now + 300 * 1000)); try lia;
        cbn [fmap option_fmap option_map Kv.value]; unfold id; [done|].
      by destruct (Z.eqb_spec (Kv.value c + 1) 0) as [->|].
  - cbn [Z.leb Z.compare]. eexists. split; [reflexivity|].
    cbn [fst]. rewrite live_insert. cbn [Kv.expireAt Kv.value].
    destruct (Z.leb_spec (now + 300 * 1000) t), (Z.ltb_spec t (now + 300 * 1000)); try lia;
      cbn [fmap option_fmap option_map]; done.
Qed.

(** X25. A decrement below zero is hidden but kept: on an absent count
    [decrementConnectionCount] reports 0 and stores -1 without a time to
    live, so that [getConnectionCount] reports -1 at any later time and the
    next [incrementConnectionCount] reports 0. *)
Theorem decrement_below_zero_is_hidden (now t t' : Z) (db : Kv.Db Z) :
  Kv.live now db "connections:count" = None →
  ∃ db',
    decrementConnectionCount now true no_fault db = (Ok 0, db') ∧
    getConnectionCount t true no_fault db' = (Ok (-1), db') ∧
    fst (incrementConnectionCount t' true no_fault db') = Ok 0.
Proof.
  intros Hlive.
  unfold decrementConnectionCount, getConnectionCount, incrementConnectionCount, try_catch,
    bind, Kv.command, Kv.decr, Kv.incr, Kv.incrBy, Kv.expire, Kv.get, ret, no_fault.
  cbn [negb]. rewrite Hlive. eexists. split; [reflexivity|].
  rewrite !live_insert. cbn [Kv.expireAt Kv.value fmap option_fmap option_map].
  split; [done|]. rewrite live_insert. done.
Qed.


Lemma decrement_of_nothing_example :
  ∃ db',
    decrementConnectionCount 0 true no_fault ∅ = (Ok 0, db') ∧
    getConnectionCount 5 true no_fault db' = (Ok (-1), db') ∧
    fst (incrementConnectionCount 10 true no_fault db') = Ok 0.
Proof. apply (decrement_below_zero_is_hidden 0 5 10 ∅). reflexivity. Defined.

(** *** The limits of the message operations *)

Lemma alive_again {A} now (k : Redis.Key A) (l : list A) :
  Redis.alive now (Redis.mkKey l (Redis.expireAt (Redis.alive now k))) =
  Redis.mkKey l (Redis.expireAt (Redis.alive now k)).
Proof.
  unfold Redis.alive. cbn [Redis.expireAt].
  destruct (Redis.expireAt k) as [e|] eqn:He; [|by rewrite He].
  destruct (e <=? now) eqn:Hle; cbn [Redis.expireAt Redis.empty]; [done|].
  by rewrite He, Hle.
Qed.

Lemma saveMessage_items {A} now (m : A) (maxMessages : Z) (w : Redis.Key (Json A)) l :
  Redis.range (Stringified m :: Redis.items (Redis.alive now w)) 0 (maxMessages - 1) = l →
  l ≠ [] →
  Redis.items (snd (RedisManager.saveMessage now true no_fault m maxMessages w)) = l.
Proof.
  intros Hrange Hne.
  unfold RedisManager.saveMessage, try_catch, bind, Redis.command, ret, no_fault. cbn [negb].
  unfold Redis.lPush, Redis.lTrim. rewrite alive_again. cbn [Redis.items Redis.expireAt].
  unfold JSON_stringify. rewrite Hrange.
  destruct l as [|x l]; [done|].
  unfold Redis.expire. rewrite alive_again. done.
Qed.

Section Limits.
Context {A : Type}.

(** X26. The limits of the message operations: [saveMessage] with
    [maxMessages] of at least one keeps the newest [maxMessages] entries,
    but with [maxMessages] 0 it keeps every entry; [getMessages] with
    [count] of at least one returns the newest [count] messages oldest
    first, but with [count] 0 it returns all of them. *)
Theorem limits_below_one_keep_everything (now : Z) (m : A) (maxMessages count : Z)
    (w : Redis.Key (Json A)) :
  let stored := Redis.items (Redis.alive now w) in
  let saved := Redis.items (snd (RedisManager.saveMessage now true no_fault m maxMessages w)) in
  let read := fst (RedisManager.getMessages now true no_fault count w) in
  (1 <= maxMessages → saved = take (Z.to_nat maxMessages) (Stringified m :: stored)) ∧
  (maxMessages = 0 → saved = Stringified m :: stored) ∧
  (1 <= count → read = Ok (reverse (map JSON_parse (take (Z.to_nat count) stored)))) ∧
  (count = 0 → read = Ok (reverse (map JSON_parse stored))).
Proof.
  cbn zeta. split; [|split; [|split]].
  - intros Hm. apply saveMessage_items.
    + destruct (Z.to_nat maxMessages) as [|n] eqn:Hn; [lia|].
      replace maxMessages with (Z.of_nat (S n)) by lia. apply StoreProofs.range_first.
    + destruct (Z.to_nat maxMessages) as [|n] eqn:Hn; [lia|done].
  - intros ->. apply saveMessage_items; [|done]. apply StoreProofs.range_all.
  - intros Hc.
    unfold RedisManager.getMessages, try_catch, bind, Redis.command, ret, no_fault, Redis.lRange.
    cbn [negb fst]. destruct (Z.to_nat count) as [|n] eqn:Hn; [lia|].
    replace count with (Z.of_nat (S n)) by lia. by rewrite StoreProofs.range_first.
  - intros ->.
    unfold RedisManager.getMessages, try_catch, bind, Redis.command, ret, no_fault, Redis.lRange.
    cbn [negb fst]. change (0 - 1) with (-1). by rewrite StoreProofs.range_all.
Qed.

End Limits.

Lemma limit_of_two_example :
  let w := Redis.mkKey [Stringified 2%nat; Stringified 1%nat] None in
  Redis.items (snd (RedisManager.saveMessage 0 true no_fault 3%nat 2 w)) =
    take (Z.to_nat 2) (Stringified 3%nat :: Redis.items (Redis.alive 0 w)) ∧
  fst (RedisManager.getMessages 0 true no_fault 0 w) =
    Ok (reverse (map JSON_parse (Redis.items (Redis.alive 0 w)))).
Proof.
  intros w.
  destruct (limits_below_one_keep_everything 0 3%nat 2 0 w) as (H1 & _ & _ & H4).
  split; [apply H1; lia | apply H4; reflexivity].
Defined.

(** *** Failures *)

Section Failures.
Context {A : Type}.

(** X27. No operation of the manager throws, whatever the server does;
    when the manager is not ready or the first command is rejected, each
    returns its default ([false], the empty list, [null], 1, 0, 0, and
    [true] for the limiter, which fails open) and leaves the data as it
    was. *)
Theorem manager_never_throws_and_fails_safe (now : Z) (ready : bool) (fault : nat → bool) :
  (∀ (m : A) maxMessages w,
     returned (RedisManager.saveMessage now ready fault m maxMessages w) = true) ∧
  (∀ count (w : Redis.Key (Json A)),
     returned (RedisManager.getMessages now ready fault count w) = true) ∧
  (∀ userId (data : A) db, returned (saveUserSession now ready fault userId data db) = true) ∧
  (∀ userId (db : Kv.Db (Json A)), returned (getUserSession now ready fault userId db) = true) ∧
  (∀ db, returned (incrementConnectionCount now ready fault db) = true) ∧
  (∀ db, returned (decrementConnectionCount now ready fault db) = true) ∧
  (∀ db, returned (getConnectionCount now ready fault db) = true) ∧
  (∀ identifier maxRequests windowSeconds db,
     returned (checkRateLimit now ready fault identifier maxRequests windowSeconds db) = true) ∧
  ((ready = false ∨ fault 0%nat = true) →
   (∀ (m : A) maxMessages w,
      RedisManager.saveMessage now ready fault m maxMessages w = (Ok false, w)) ∧
   (∀ count (w : Redis.Key (Json A)),
      RedisManager.getMessages now ready fault count w = (Ok [], w)) ∧
   (∀ userId (data : A) db, saveUserSession now ready fault userId data db = (Ok false, db)) ∧
   (∀ userId (db : Kv.Db (Json A)), getUserSession now ready fault userId db = (Ok None, db)) ∧
   (∀ db, incrementConnectionCount now ready fault db = (Ok 1, db)) ∧
   (∀ db, decrementConnectionCount now ready fault db = (Ok 0, db)) ∧
   (∀ db, getConnectionCount now ready fault db = (Ok 0, db)) ∧
   (∀ identifier maxRequests windowSeconds db,
      checkRateLimit now ready fault identifier maxRequests windowSeconds db = (Ok true, db))).
Proof.
  unfold RedisManager.saveMessage, RedisManager.getMessages, saveUserSession, getUserSession,
    incrementConnectionCount, decrementConnectionCount, getConnectionCount, checkRateLimit,
    try_catch, bind, Redis.command, Kv.command, ret, returned.
  repeat match goal with |- _ ∧ _ => split end.
  9: { intros Hfail. destruct ready; cbn [negb]; [|repeat split; done].
       destruct Hfail as [H| ->]; [done|]. repeat split; done. }
  all: intros; destruct ready; cbn [negb]; [|done];
    unfold Redis.lPush, Redis.lTrim, Redis.lRange, Redis.expire,
      Kv.get, Kv.setEx, Kv.incr, Kv.decr, Kv.incrBy, Kv.expire;
    repeat match goal with
           | |- context [if ?b then _ else _] =>
               match type of b with bool => destruct b end
           | |- context [match ?x with Some _ => _ | None => _ end] => destruct x
           | |- context [match ?x with [] => _ | _ :: _ => _ end] => destruct x
           end; done.
Qed.

End Failures.

Lemma limiter_fails_open_example :
  checkRateLimit 0 false no_fault "u" 30 60 ∅ = (Ok true, ∅).
Proof.
  destruct (manager_never_throws_and_fails_safe (A := nat) 0 false no_fault)
    as (_ & _ & _ & _ & _ & _ & _ & _ & H).
  destruct H as (_ & _ & _ & _ & _ & _ & _ & H); [by left|]. apply H.
Defined.

End ManagerOpsProofs.


(** ** The validator and the signatures *)

Module SigningProofs.
Import Js ServerEncryption Signing.

Ltac in_errors :=
  unfold validation_errors;
  repeat first [apply list_elem_of_here | apply list_elem_of_further].

(** X28. The verdicts of [validateMessage]: a valid verdict comes from an
    object with a string type and a content of 1 to 1000 code units, and
    carries that object with the sanitized content, which is not empty, no
    longer than the original and free of [<]; an invalid verdict carries
    no message and one of the five error texts. *)
Theorem validateMessage_verdicts (p : Payload) :
  let v := validateMessage p in
  (valid v = true →
     ∃ m c s, p = PObject m ∧ content m = JString c ∧
       (1 <= length c <= 1000)%nat ∧
       truthy (type m) && is_string (type m) = true ∧
       s = sanitizeInput (JString c) ∧
       (1 <= length s <= length c)%nat ∧ (60%N ∉ s) ∧
       sanitized v = Some {| type := type m; content := JString s;
                             encrypted := encrypted m |} ∧
       error v = None) ∧
  (valid v = false →
     sanitized v = None ∧ ∃ e, error v = Some e ∧ e ∈ validation_errors).
Proof.
  assert (∀ e, e ∈ validation_errors →
            (valid (reject e) = true → False) ∧
            (sanitized (reject e) = None ∧ ∃ e', error (reject e) = Some e' ∧ e' ∈ validation_errors))
    as Hrej.
  { intros e He. split; [done|]. split; [done|]. by exists e. }
  assert (∀ e, e ∈ validation_errors → ∀ P : Prop,
            (valid (reject e) = true → P) ∧
            (valid (reject e) = false →
               sanitized (reject e) = None ∧ ∃ e', error (reject e) = Some e' ∧ e' ∈ validation_errors))
    as Hcase.
  { intros e He P. destruct (Hrej e He) as [H1 H2]. split; [intros H; by destruct (H1 H)|done]. }
  cbn zeta. unfold validateMessage.
  destruct p as [| |m]; [apply Hcase; in_errors | apply Hcase; in_errors |].
  destruct (negb (truthy (content m)) || negb (is_string (content m))) eqn:Hcontent;
    [apply Hcase; in_errors|].
  destruct (content m) as [| | | |c|] eqn:Hc; try (apply Hcase; in_errors).
  destruct ((length c =? 0)%nat || (1000 <? length c)%nat) eqn:Hlen; [apply Hcase; in_errors|].
  destruct (negb (truthy (type m)) || negb (is_string (type m))) eqn:Htype;
    [apply Hcase; in_errors|].
  destruct (length (sanitizeInput (JString c)) =? 0)%nat eqn:Hs; [apply Hcase; in_errors|].
  split; [|done]. intros _.
  apply orb_false_elim in Hlen as [Hl1 Hl2].
  apply Nat.eqb_neq in Hl1, Hs. apply Nat.ltb_ge in Hl2.
  apply orb_false_elim in Htype as [Ht1 Ht2]. apply negb_false_iff in Ht1, Ht2.
  exists m, c, (sanitizeInput (JString c)).
  repeat split; try done; try lia.
  - by rewrite Ht1, Ht2.
  - etrans; [apply sublist_length, SanitizerProofs.sanitize_sublist|].
    apply sublist_length, SanitizerProofs.truncated_sublist.
  - apply SanitizerProofs.sanitize_bounds.
Qed.


(** *** Signatures *)

Lemma prop_spread key v o : prop key (spread_with key v o) = v.
Proof.
  induction o as [|[k v'] o IH]; cbn [spread_with prop].
  - by rewrite String.eqb_refl.
  - destruct (String.eqb k key) eqn:Hk; cbn [prop]; [by rewrite String.eqb_refl|].
    by rewrite Hk.
Qed.

Lemma rest_spread key v o :
  rest_without key (spread_with key v o) = rest_without key o.
Proof.
  induction o as [|[k v'] o IH]; cbn [spread_with rest_without List.filter fst].
  - by rewrite String.eqb_refl.
  - destruct (String.eqb k key) eqn:Hk; cbn [List.filter fst].
    + by rewrite String.eqb_refl.
    + rewrite Hk. cbn [negb]. f_equal. apply IH.
Qed.

Lemma rest_without_absent key o : has key o = false → rest_without key o = o.
Proof.
  induction o as [|[k v] o IH]; [done|]. cbn [has existsb fst rest_without List.filter].
  intros [Hk Ho]%orb_false_elim. rewrite Hk. cbn [negb]. f_equal. by apply IH.
Qed.

Lemma prop_rest_without key o : prop key (rest_without key o) = JUndefined.
Proof.
  induction o as [|[k v] o IH]; [done|]. cbn [rest_without List.filter fst].
  destruct (String.eqb k key) eqn:Hk; cbn [negb]; [apply IH|].
  cbn [prop]. rewrite Hk. apply IH.
Qed.

Section Sign.
Variables (stringify : Obj → string) (hmac : string → jsstring).
Hypothesis digest_not_empty : ∀ s, hmac s ≠ [].

(** X29. Signatures, for any [JSON.stringify] and any digest that is
    never empty: a message without a [serverSignature] property verifies
    after [signMessage]; signed twice it verifies only if the digests of
    the signed and of the unsigned message coincide; and any message
    verifies once its [serverSignature] is taken away. *)
Theorem signature_round_trip (message : Obj) :
  has "serverSignature" message = false →
  verifyMessageSignature stringify hmac (signMessage stringify hmac message) = true ∧
  verifyMessageSignature stringify hmac
      (signMessage stringify hmac (signMessage stringify hmac message)) =
    bool_decide (hmac (stringify (signMessage stringify hmac message)) =
                 hmac (stringify message)) ∧
  ∀ other, verifyMessageSignature stringify hmac (rest_without "serverSignature" other) = true.
Proof.
  intros Habsent.
  assert (∀ o v, v ≠ [] →
            verifyMessageSignature stringify hmac (spread_with "serverSignature" (JString v) o) =
            bool_decide (hmac (stringify (rest_without "serverSignature" o)) = v)) as Hverify.
  { intros o v Hv. unfold verifyMessageSignature. rewrite prop_spread, rest_spread.
    cbn [truthy]. destruct v; [done|]. done. }
  assert (rest_without "serverSignature" (signMessage stringify hmac message) = message)
    as Hrest.
  { unfold signMessage. cbn zeta. rewrite rest_spread. by apply rest_without_absent. }
  split; [|split].
  - unfold signMessage. cbn zeta. rewrite Hverify by apply digest_not_empty.
    rewrite rest_without_absent by done. by apply bool_decide_eq_true.
  - change (signMessage stringify hmac (signMessage stringify hmac message))
      with (spread_with "serverSignature"
              (JString (hmac (stringify (signMessage stringify hmac message))))
              (signMessage stringify hmac message)).
    rewrite Hverify by apply digest_not_empty. rewrite Hrest.
    apply bool_decide_ext. split; intros H; by symmetry.
  - intros other. unfold verifyMessageSignature. by rewrite prop_rest_without.
Qed.

End Sign.

Lemma tagged_not_empty s : tagged s ≠ [].
Proof. done. Qed.

Lemma signed_hello_example :
  let message := [("content"%string, JString (units "hello"))] in
  verifyMessageSignature count_props tagged (signMessage count_props tagged message) = true ∧
  verifyMessageSignature count_props tagged
      (signMessage count_props tagged (signMessage count_props tagged message)) =
    bool_decide (tagged (count_props (signMessage count_props tagged message)) =
                 tagged (count_props message)) ∧
  ∀ other, verifyMessageSignature count_props tagged (rest_without "serverSignature" other) = true.
Proof.
  apply (signature_round_trip count_props tagged tagged_not_empty). reflexivity.
Defined.

Lemma hello_is_valid_example :
  let p := PObject {| type := JString (units "message"); content := JString (units "hello");
                      encrypted := JUndefined |} in
  ∃ m c s, p = PObject m ∧ content m = JString c ∧
    (1 <= length c <= 1000)%nat ∧
    truthy (type m) && is_string (type m) = true ∧
    s = sanitizeInput (JString c) ∧
    (1 <= length s <= length c)%nat ∧ (60%N ∉ s) ∧
    sanitized (validateMessage p) =
      Some {| type := type m; content := JString s; encrypted := encrypted m |} ∧
    error (validateMessage p) = None.
Proof.
  intros p. destruct (validateMessage_verdicts p) as [H _]. apply H. reflexivity.
Defined.

End SigningProofs.


(** ** The two backends of the limiter *)

Module BackendsProofs.
Import RateLimit ZServer RateLimitProofs.
Local Open Scope Z_scope.

Lemma checkMemoryLimit_decision now id m w (st : gmap string (list Z)) :
  let v := filter (λ t, now - w < t) (default [] (st !! id)) in
  decision (fst (checkMemoryLimit now id m w st)) =
    if bool_decide (m <= Z.of_nat (length v)) then (false, 0, Z.of_nat (length v))
    else (true, m - Z.of_nat (length v) - 1, Z.of_nat (length v) + 1).
Proof.
  unfold checkMemoryLimit, decision.
  destruct (st !! id) as [l|] eqn:Hl; cbn [default from_option Datatypes.id].
  - rewrite Hl. cbn [default from_option Datatypes.id].
    case_bool_decide; cbn [fst allowed remaining totalHits]; [done|].
    rewrite length_app. cbn [length]. f_equal; try f_equal; lia.
  - rewrite lookup_insert_eq. cbn [default from_option Datatypes.id]. rewrite filter_nil.
    case_bool_decide; cbn [fst allowed remaining totalHits length app]; [done|].
    f_equal; try f_equal; lia.
Qed.


Lemma zlive_insert key k now (db : ZDb) :
  live now (<[key := k]> db) key =
  match expireAt k with
  | Some t => if t <=? now then None else Some k
  | None => Some k
  end.
Proof. unfold live. by rewrite lookup_insert_eq. Qed.

Lemma zlive_delete key now (db : ZDb) : live now (delete key db) key = None.
Proof. unfold live. by rewrite lookup_delete_eq. Qed.

Lemma zlive_put key ms e now (db : ZDb) :
  now < e →
  live now (put key ms (Some e) db) key =
  match ms with [] => None | _ => Some (mkZKey ms (Some e)) end.
Proof.
  intros He. unfold put. destruct ms as [|x ms]; [apply zlive_delete|].
  rewrite zlive_insert. cbn [expireAt]. destruct (Z.leb_spec e now); [lia|done].
Qed.

Lemma zlive_later t now (db : ZDb) key :
  t <= now →
  match live t db key with
  | None => live now db key = None
  | Some k => live now db key = Some k ∨
              (live now db key = None ∧ ∃ e, expireAt k = Some e ∧ e <= now)
  end.
Proof.
  intros Hle. unfold live. destruct (db !! key) as [k|]; [|done].
  destruct (expireAt k) as [e|] eqn:He; [|by left].
  destruct (Z.leb_spec e t), (Z.leb_spec e now); try lia; try done.
  - right. split; [done|]. by exists e.
  - by left.
Qed.

Lemma redis_ready {A} (c : M ZDb Redis.Error A) db st :
  redis c (ready db st) = (fst (c db), ready (snd (c db)) st).
Proof. unfold redis, ready. cbn. by destruct (c db). Qed.

(** The scores that the range removal keeps are those the in-process
    filter keeps. *)
Lemma kept_scores now w (ms : list (Z * string)) :
  Forall (fun x => 0 <= x) (map fst ms) →
  map fst (List.filter (fun m => negb (in_range 0 (now - w) m)) ms) =
  filter (λ t, now - w < t) (map fst ms).
Proof.
  induction ms as [|[x n] ms IH]; intros Hpos; [done|].
  cbn [map fst] in Hpos. apply Forall_cons in Hpos as [Hx Hpos].
  cbn [List.filter map fst]. rewrite filter_cons. unfold in_range at 1. cbn [fst].
  destruct (Z.leb_spec 0 x); [|lia].
  destruct (Z.leb_spec x (now - w)); cbn [andb negb].
  - rewrite decide_False by lia. by apply IH.
  - rewrite decide_True by lia. cbn [map fst]. f_equal. by apply IH.
Qed.

Lemma kept_names (P : Z * string → bool) (ms : list (Z * string)) (used : list string) :
  Forall (fun n => n ∈ used) (map snd ms) →
  Forall (fun n => n ∈ used) (map snd (List.filter P ms)).
Proof.
  induction ms as [|x ms IH]; [done|]. cbn [map List.filter].
  intros [Hx Hms]%Forall_cons. destruct (P x); [|by apply IH].
  cbn [map]. constructor; [done|by apply IH].
Qed.

Lemma not_used_not_member (n : string) (ms : list (Z * string)) (used : list string) :
  Forall (fun n => n ∈ used) (map snd ms) → n ∉ used →
  existsb (fun m => String.eqb (snd m) n) ms = false.
Proof.
  induction ms as [|x ms IH]; [done|]. cbn [map existsb].
  intros [Hx Hms]%Forall_cons Hn. rewrite IH by done.
  destruct (String.eqb_spec (snd x) n) as [<-|]; [done|done].
Qed.


Lemma ready_is_ready db st : isReady (redisManager (ready db st)) = true.
Proof. done. Qed.

Lemma zRem_ok now key lo hi db :
  ∃ n, fst (zRemRangeByScore (zserver now) key lo hi db) = Ok n.
Proof. cbn. destruct (live now db key); by eexists. Qed.

Lemma zAdd_ok now key score member db :
  ∃ n, fst (zAdd (zserver now) key score member db) = Ok n.
Proof.
  cbn. destruct (live now db key); [|by eexists].
  destruct (existsb _ _); by eexists.
Qed.

Lemma expire_ok now key seconds db :
  ∃ b, fst (expire (zserver now) key seconds db) = Ok b.
Proof.
  cbn. destruct (live now db key); [|by eexists].
  destruct (seconds <=? 0); by eexists.
Qed.

(** The Redis path of [checkLimit] against the server, command by
    command. *)
Lemma redis_path (id : string) (m ws : Z) (db : ZDb) (store0 : MemoryStore) (env : Env) :
  1 <= ws →
  let key := "ratelimit:" +:+ id in
  let db1 := snd (zRemRangeByScore (zserver (now env)) key 0 (now env - ws * 1000) db) in
  let card := match live (now env) db1 key with
              | Some k => Z.of_nat (length (members k))
              | None => 0
              end in
  let db2 := snd (zAdd (zserver (now env)) key (now env) (member env) db1) in
  let db3 := snd (expire (zserver (now env)) key ws db2) in
  ∃ r,
    checkLimit (zserver (now env)) env id
      {| maxRequests := Some m; windowMs := Some (ws * 1000) |} (ready db store0) =
      (Ok r, ready (if bool_decide (m <= card) then db1 else db3) store0) ∧
    decision r = if bool_decide (m <= card) then (false, 0, card)
                 else (true, m - card - 1, card + 1).
Proof.
  intros Hws key db1 card db2 db3.
  unfold checkLimit, bind, get. cbn [maxRequests windowMs default from_option Datatypes.id].
  rewrite ready_is_ready, Z.div_mul by lia.
  unfold checkRedisLimit, try_catch, checkRedisLimit_try, bind, get.
  change (getClient (redisManager (ready db store0))) with true. cbn [negb].
  fold key. rewrite redis_ready.
  destruct (zRem_ok (now env) key 0 (now env - ws * 1000) db) as [n1 ->]. fold db1.
  rewrite redis_ready. cbn [zCard zserver fst snd]. fold card.
  case_bool_decide.
  - rewrite redis_ready. cbn [ttl zserver fst snd]. unfold ret. by eexists.
  - rewrite redis_ready. change (pretty (now env) +:+ "-" +:+ random env) with (member env).
    destruct (zAdd_ok (now env) key (now env) (member env) db1) as [n2 ->]. fold db2.
    rewrite redis_ready.
    destruct (expire_ok (now env) key ws db2) as [b ->]. fold db3.
    unfold ret. by eexists.
Qed.

Lemma Forall_filtered {A} (P : A → Prop) (Q : A → Prop) `{∀ x, Decision (Q x)} (l : list A) :
  Forall P l → Forall P (filter Q l).
Proof.
  rewrite !Forall_forall. intros Hl x [_ Hx]%list_elem_of_filter. by apply Hl.
Qed.

Lemma filter_none (Q : Z → Prop) `{∀ x, Decision (Q x)} (l : list Z) :
  Forall (λ x, ¬ Q x) l → filter Q l = [].
Proof.
  induction l as [|x l IH]; [done|]. intros [Hx Hl]%Forall_cons.
  rewrite filter_cons, decide_False by done. by apply IH.
Qed.

(** One call, seen on the server. *)
Lemma server_step (id : string) (ws : Z) (used : list string) (db : ZDb)
    (rec : list Z) (t : Z) (env : Env) :
  1 <= ws → t <= now env → 0 <= now env → member env ∉ used →
  let key := "ratelimit:" +:+ id in
  mirrors (ws * 1000) key used db rec t →
  let v := filter (λ x, now env - ws * 1000 < x) rec in
  let db1 := snd (zRemRangeByScore (zserver (now env)) key 0 (now env - ws * 1000) db) in
  let card := match live (now env) db1 key with
              | Some k => Z.of_nat (length (members k))
              | None => 0
              end in
  let db2 := snd (zAdd (zserver (now env)) key (now env) (member env) db1) in
  let db3 := snd (expire (zserver (now env)) key ws db2) in
  card = Z.of_nat (length v) ∧
  mirrors (ws * 1000) key used db1 v (now env) ∧
  mirrors (ws * 1000) key (member env :: used) db3 (v ++ [now env]) (now env).
Proof.
  intros Hws Ht Hnow Hfresh key [Hrec Hdb] v db1 card db2 db3.
  assert (Forall (λ x, 0 <= x <= now env) v) as Hv.
  { apply Forall_filtered. eapply Forall_impl; [apply Hrec|]. cbn. lia. }
  assert (Forall (λ x, 0 <= x <= now env) (v ++ [now env])) as Hv'.
  { apply Forall_app. split; [done|]. constructor; [lia|constructor]. }
  assert (∀ (ms : list (Z * string)) (e0 : option Z),
            map fst ms = v →
            Forall (λ n, n ∈ used) (map snd ms) →
            live (now env) db1 key =
              match ms with [] => None | _ => Some (mkZKey ms e0) end →
            (ms ≠ [] → ∃ e, e0 = Some e ∧ now env < e) →
            mirrors (ws * 1000) key (member env :: used) db3 (v ++ [now env]) (now env))
    as Hadd.
  { intros ms e0 Hms Hnames Hlive1 He0. split; [done|].
    assert (live (now env) db2 key =
            Some (mkZKey (ms ++ [(now env, member env)]) e0) ∨
            (ms = [] ∧ live (now env) db2 key =
               Some (mkZKey [(now env, member env)] None))) as Hlive2.
    { unfold db2. cbn [zAdd zserver snd]. rewrite Hlive1.
      destruct ms as [|x ms]; [right|left].
      - split; [done|]. cbn [snd]. by rewrite zlive_insert.
      - cbn [members expireAt].
        rewrite (not_used_not_member _ _ used) by done. cbn [snd].
        rewrite zlive_insert. cbn [expireAt].
        destruct (He0 ltac:(done)) as (e & -> & He).
        destruct (Z.leb_spec e (now env)); [lia|done]. }
    assert (∃ ms', live (now env) db2 key = Some ms' ∧
                   members ms' = ms ++ [(now env, member env)]) as (k2 & Hk2 & Hm2).
    { destruct Hlive2 as [H|[-> H]]; rewrite H; by eexists. }
    unfold db3. cbn [expire zserver snd]. rewrite Hk2.
    destruct (Z.leb_spec ws 0); [lia|]. cbn [snd]. rewrite zlive_insert. cbn [expireAt].
    destruct (Z.leb_spec (now env + ws * 1000) (now env)); [lia|].
    cbn [members]. rewrite Hm2. split; [|split; [|split]].
    - by rewrite map_app, Hms.
    - by destruct v.
    - rewrite map_app. apply Forall_app. split.
      + eapply Forall_impl; [apply Hnames|]. intros n Hn. by apply elem_of_cons; right.
      + constructor; [|constructor]. by apply elem_of_cons; left.
    - exists (now env + ws * 1000). split; [done|].
      eapply Forall_impl; [apply Hv'|]. cbn. lia. }
  pose proof (zlive_later t (now env) db key Ht) as Hlater.
  destruct (live (now env) db key) as [k|] eqn:Hlive.
  - (* the key is there *)
    assert (live t db key = Some k) as Hlive_t.
    { destruct (live t db key) as [k'|]; [|done]. by destruct Hlater as [->|[? _]]. }
    rewrite Hlive_t in Hdb. destruct Hdb as (Hscores & Hne & Hnames & e & He & Hexp).
    assert (now env < e) as Halive.
    { unfold live in Hlive. destruct (db !! key) as [k'|]; [|done].
      destruct (expireAt k') as [e'|] eqn:He'; [|congruence].
      destruct (Z.leb_spec e' (now env)); [done|]. congruence. }
    set (kept := List.filter (fun m => negb (in_range 0 (now env - ws * 1000) m)) (members k)).
    assert (map fst kept = v) as Hkept.
    { unfold kept, v. rewrite kept_scores, Hscores; [done|].
      rewrite Hscores. eapply Forall_impl; [apply Hrec|]. cbn. lia. }
    assert (db1 = put key kept (Some e) db) as Hdb1.
    { unfold db1. cbn [zRemRangeByScore zserver]. rewrite Hlive. cbn [snd]. by rewrite He. }
    assert (live (now env) db1 key =
            match kept with [] => None | _ => Some (mkZKey kept (Some e)) end) as Hlive1.
    { rewrite Hdb1. by apply zlive_put. }
    assert (Forall (λ n, n ∈ used) (map snd kept)) as Hnames1 by by apply kept_names.
    split; [|split].
    + unfold card. rewrite Hlive1, <-Hkept, length_map. by destruct kept.
    + split; [done|]. rewrite Hlive1. destruct kept as [|x kept'] eqn:Hk.
      * by rewrite <-Hkept.
      * cbn [members expireAt]. split; [done|]. split; [by rewrite <-Hkept|].
        split; [done|]. exists e. split; [done|]. by apply Forall_filtered.
    + apply (Hadd kept (Some e)); try done. intros _. by exists e.
  - (* the key is absent or its time has run out *)
    assert (v = []) as Hv0.
    { destruct (live t db key) as [k|] eqn:Hlive_t.
      - destruct Hdb as (_ & _ & _ & e & He & Hexp).
        destruct Hlater as [Hl|(_ & e' & He' & Hle)]; [congruence|].
        assert (e' = e) as -> by congruence.
        apply filter_none. eapply Forall_impl; [apply Hexp|]. cbn. lia.
      - unfold v. by rewrite Hdb. }
    assert (db1 = db) as Hdb1.
    { unfold db1. cbn [zRemRangeByScore zserver]. by rewrite Hlive. }
    split; [|split].
    + unfold card. by rewrite Hdb1, Hlive, Hv0.
    + split; [done|]. by rewrite Hdb1, Hlive.
    + apply (Hadd [] None); try done. by rewrite Hdb1.
Qed.


Lemma redisChecks_agree (id : string) (m ws : Z) : ∀ (envs : list Env) (used : list string)
    (db : ZDb) (store store0 : MemoryStore) (t : Z),
  1 <= ws →
  Forall (λ env, t <= now env ∧ 0 <= now env ∧ member env ∉ used) envs →
  nondecreasing (map now envs) = true →
  fresh_members envs = true →
  mirrors (ws * 1000) ("ratelimit:" +:+ id) used db (default [] (store !! id)) t →
  map decision
    (fst (redisChecks id {| maxRequests := Some m; windowMs := Some (ws * 1000) |} envs
            (ready db store0))) =
  map decision (fst (checks id m (ws * 1000) (map now envs) store)).
Proof.
  induction envs as [|env envs IH]; intros used db store store0 t Hws Hall Hmono Hfresh Hmir;
    [done|].
  apply Forall_cons in Hall as [(Ht & Hnow & Hnew) Hall].
  cbn [map nondecreasing] in Hmono. apply andb_prop in Hmono as [Hlater Hmono].
  cbn [fresh_members] in Hfresh. apply andb_prop in Hfresh as [Hdiff Hfresh].
  destruct (redis_path id m ws db store0 env Hws) as (r & Hcall & Hdec).
  destruct (server_step id ws used db _ t env Hws Ht Hnow Hnew Hmir) as (Hcard & Hm1 & Hm3).
  cbn zeta in Hcall, Hdec, Hcard, Hm1, Hm3. rewrite Hcard in Hcall, Hdec.
  pose proof (checkMemoryLimit_decision (now env) id m (ws * 1000) store) as Hmem.
  pose proof (checkMemoryLimit_lookup (now env) id m (ws * 1000) store) as Hlook.
  cbn zeta in Hmem, Hlook.
  destruct (checkMemoryLimit (now env) id m (ws * 1000) store) as [r' store'] eqn:Hcm.
  cbn [fst snd] in Hmem, Hlook.
  set (v := filter (λ x, now env - ws * 1000 < x) (default [] (store !! id))) in *.
  assert (Forall (λ env', now env <= now env' ∧ 0 <= now env' ∧
                          member env' ∉ member env :: used) envs) as Hall'.
  { rewrite Forall_forall in Hall |- *. intros env' Hin.
    destruct (Hall env' Hin) as (_ & Hpos & Hfree).
    rewrite forallb_forall in Hlater, Hdiff.
    split; [|split; [done|]].
    - apply Z.leb_le, Hlater, in_map, list_elem_of_In, Hin.
    - specialize (Hdiff env' (proj1 (list_elem_of_In _ _) Hin)).
      apply negb_true_iff, String.eqb_neq in Hdiff.
      intros [Heq|H]%elem_of_cons; [by apply Hdiff|by apply Hfree]. }
  cbn [redisChecks map]. rewrite Hcall.
  match type of Hcall with _ = (_, ready ?d _) => set (db' := d) in * end.
  assert (mirrors (ws * 1000) ("ratelimit:" +:+ id) (member env :: used) db'
            (default [] (store' !! id)) (now env)) as Hmir'.
  { unfold db'. rewrite Hlook.
    cbn [default from_option Datatypes.id]. case_bool_decide; [|done].
    destruct Hm1 as [H1 H2]. split; [done|].
    destruct (live (now env) _ _) as [k|]; [|done].
    destruct H2 as (? & ? & Hn & ?). repeat split; try done.
    eapply Forall_impl; [apply Hn|]. intros n Hin. by apply elem_of_cons; right. }
  specialize (IH (member env :: used) db' store' store0 (now env) Hws Hall' Hmono Hfresh Hmir').
  cbn [checks]. rewrite Hcm.
  destruct (redisChecks id _ envs (ready db' store0)) as [rs w2].
  destruct (checks id m (ws * 1000) (map now envs) store') as [rs' store''].
  cbn [fst map] in *. by rewrite Hdec, Hmem, IH.
Qed.

(** X30. The two backends of the limiter implement one policy: for a
    window of whole seconds, calls in clock order at times that are not
    negative, and members that do not repeat, the checks answered from a
    Redis server of sorted sets give, call by call, the same [allowed],
    [remaining] and [totalHits] as the in-process checks. *)
Theorem redis_backend_decides_like_the_in_process_one (id : string) (m ws : Z)
    (envs : list Env) (store0 : MemoryStore) :
  1 <= ws →
  forallb (fun env => 0 <=? now env) envs = true →
  nondecreasing (map now envs) = true →
  fresh_members envs = true →
  map decision
    (fst (redisChecks id {| maxRequests := Some m; windowMs := Some (ws * 1000) |} envs
            (ready ∅ store0))) =
  map decision (fst (checks id m (ws * 1000) (map now envs) ∅)).
Proof.
  intros Hws Hpos Hmono Hfresh.
  apply (redisChecks_agree id m ws envs [] ∅ ∅ store0 0); try done.
  - rewrite Forall_forall. intros env Hin. rewrite forallb_forall in Hpos.
    specialize (Hpos env (proj1 (list_elem_of_In _ _) Hin)). apply Z.leb_le in Hpos.
    split; [done|]. split; [done|]. apply not_elem_of_nil.
Qed.

Lemma three_calls_over_redis_example :
  let envs := [ {| now := 1000; random := "0.1"; later := 1000 |};
                {| now := 2000; random := "0.2"; later := 2000 |};
                {| now := 3000; random := "0.3"; later := 3000 |} ] in
  map decision
    (fst (redisChecks "u" {| maxRequests := Some 2; windowMs := Some (60 * 1000) |} envs
            (ready ∅ ∅))) =
  map decision (fst (checks "u" 2 (60 * 1000) (map now envs) ∅)).
Proof.
  apply (redis_backend_decides_like_the_in_process_one "u" 2 60); [lia|reflexivity..].
Defined.

End BackendsProofs.
